(** * NetworkGraph: a shallow embedding of the force-directed graph view

    This development models the React/d3 component
    [src/components/NetworkGraph.tsx] (the plain variant) and its themed
    variant with a tooltip (the second file of [src/unnamed/part_000]).
    JavaScript numbers are modelled as rationals [Q] (no NaN, no rounding);
    strings as [string]; DOM attributes and styles as the values the
    handlers write. The d3 library code the component relies on (forceLink
    id resolution, d3-zoom scale clamping, d3-drag gesture events,
    simulation ticks) is modelled after d3's own sources. *)

From Stdlib Require Import QArith Qminmax Lqa Lia.
From stdpp Require Import base list gmap strings.

Open Scope Q_scope.

(** ** Data model ([src/unnamed/part_004], the [types] module) *)

(** [GraphNode]: [val] is an optional number, [type] a string (the enum
    [NodeType] has the string values 'DRUG', 'PROTEIN', 'SIDE_EFFECT';
    the component receives data cast with [as any]). *)
Record GraphNode := mkNode {
  n_id : string;
  n_label : string;
  n_type : string;
  n_val : option Q;
  n_description : option string
}.

(** [GraphLink]: endpoints are node ids. *)
Record GraphLink := mkLink {
  l_source : string;
  l_target : string;
  l_type : string
}.

(** The two observed variants of the component. [Tooltip dark] is the
    themed variant with its [isDarkMode] flag. *)
Inductive Variant := Plain | Tooltip (isDarkMode : bool).

(** ** Visual encoding *)

(** JavaScript truthiness of an optional number ([undefined], [0] falsy). *)
Definition js_truthy (v : option Q) : bool :=
  match v with
  | None => false
  | Some q => negb (Qeq_bool q 0)
  end.

(** [(d: any) => d.val ? d.val * 3 + 8 : 10] *)
Definition radius (d : GraphNode) : Q :=
  match n_val d with
  | Some v => if js_truthy (Some v) then v * 3 + 8 else 10
  | None => 10
  end.

(** The [fill] switch on [d.type]. *)
Definition fill (d : GraphNode) : string :=
  if String.eqb (n_type d) "DRUG" then "#a855f7"
  else if String.eqb (n_type d) "PROTEIN" then "#3b82f6"
  else if String.eqb (n_type d) "SIDE_EFFECT" then "#ef4444"
  else "#94a3b8".

(** ** Tooltip placement (mousemove handler of the tooltip variant) *)

(** [left]/[top] computed from the pointer [(x, y)] and the container's
    [clientWidth]/[clientHeight]. *)
Definition tooltip_pos (W H x y : Q) : Q * Q :=
  let left0 := x + 15 in
  let top0 := y + 15 in
  let left := if Qlt_le_dec (W - 250) left0 then x - 255 else left0 in
  let top := if Qlt_le_dec (H - 120) top0 then y - 130 else top0 in
  (left, top).

(** The tooltip box is at most 240 pixels wide ([max-w-[240px]]); its
    height depends on the description text. *)
Definition tooltip_inside (W H : Q) (pos : Q * Q) (w h : Q) : Prop :=
  0 <= fst pos /\ fst pos + w <= W /\ 0 <= snd pos /\ snd pos + h <= H.

(** ** Zoom (d3-zoom with [scaleExtent([0.1, 8])], [dblclick.zoom] removed) *)

Record Transform := mkTransform { t_k : Q; t_x : Q; t_y : Q }.

Definition identity_transform : Transform := mkTransform 1 0 0.

Definition scale_lo : Q := 1 # 10.
Definition scale_hi : Q := 8.

(** d3-zoom's [scale]: [k = Math.max(extent[0], Math.min(extent[1], k))]. *)
Definition clamp_k (k : Q) : Q := Qmax scale_lo (Qmin scale_hi k).

Definition scale (t : Transform) (k : Q) : Transform :=
  mkTransform (clamp_k k) (t_x t) (t_y t).

(** Gesture inputs reaching the zoom behaviour of the svg. A wheel event
    multiplies the scale by [2^wheelDelta] (any factor here); a pinch
    proposes the absolute scale [sqrt(dp / dl)]; a pan translates; a
    double click (or double tap) looks up the [dblclick.zoom] listener. *)
Inductive ZoomInput :=
  | Wheel (factor : Q)
  | Pinch (k : Q)
  | Pan (dx dy : Q)
  | DblClick.

(** The [dblclick.zoom] listener after [.on("dblclick.zoom", null)]. *)
Definition dblclick_zoom_listener : option (Transform -> Transform) := None.

(** The zoom state: d3's [__zoom] transform of the svg, and the
    [transform] attribute written on the root group [g] by the zoom
    listener [g.attr("transform", event.transform)]. *)
Record ZoomState := mkZoomState { zs_zoom : Transform; zs_g : option Transform }.

Definition zoom_init : ZoomState := mkZoomState identity_transform None.

Definition emit (t : Transform) : ZoomState := mkZoomState t (Some t).

Definition zoom_step (s : ZoomState) (i : ZoomInput) : ZoomState :=
  let t := zs_zoom s in
  match i with
  | Wheel f => emit (scale t (t_k t * f))
  | Pinch k => emit (scale t k)
  | Pan dx dy => emit (mkTransform (t_k t) (t_x t + dx) (t_y t + dy))
  | DblClick =>
      match dblclick_zoom_listener with
      | Some l => emit (l t)
      | None => s
      end
  end.

Definition zoom_run (s : ZoomState) (is : list ZoomInput) : ZoomState :=
  fold_left zoom_step is s.

(** ** The JavaScript heap

    The caller's arrays hold references to objects; [nodes.map(d => ({...d}))]
    allocates fresh objects, and d3 writes [index], [x], [y], [vx], [vy],
    [fx], [fy] into node objects and replaces a link's [source]/[target] id
    by a reference to a node object. Objects live in a heap of locations. *)

Abbreviation loc := nat (only parsing).

Record NodeObj := mkNodeObj {
  no_data : GraphNode;
  no_index : option nat;
  no_x : option Q; no_y : option Q;
  no_vx : option Q; no_vy : option Q;
  no_fx : option Q; no_fy : option Q
}.

(** A link endpoint: an id string before [forceLink] resolution, an object
    reference after it. *)
Inductive Endpoint := EpId (id : string) | EpRef (l : loc).

Record LinkObj := mkLinkObj {
  lo_source : Endpoint;
  lo_target : Endpoint;
  lo_type : string;
  lo_index : option nat
}.

Inductive Obj := ONode (o : NodeObj) | OLink (o : LinkObj).

(** A plain object literal for a caller's node or link. *)
Definition node_obj (d : GraphNode) : NodeObj :=
  mkNodeObj d None None None None None None None.

Definition link_obj (d : GraphLink) : LinkObj :=
  mkLinkObj (EpId (l_source d)) (EpId (l_target d)) (l_type d) None.

(** ** The render surface *)

(** A node circle: its datum (a working node object), its [r] attribute,
    and its own [stroke] / [stroke-width] attributes (unset ones inherit
    from the node group). The fill is fixed at creation. *)
Record CircleEl := mkCircle {
  c_datum : loc;
  c_r : Q;
  c_fill : string;
  c_stroke : option string;
  c_stroke_width : option Q
}.

(** A link line: its datum, its [stroke-width] attribute, and the inline
    styles [stroke], [stroke-opacity], [stroke-width] set by hover. *)
Record LineEl := mkLine {
  ln_datum : loc;
  ln_width_attr : Q;
  ln_stroke_style : option string;
  ln_opacity_style : option Q;
  ln_width_style : option Q
}.

(** An edge label: its datum and inline [opacity] style (its class
    [opacity-0] makes it invisible when the style is unset). *)
Record LinkTextEl := mkLinkText {
  lt_datum : loc;
  lt_opacity_style : option Q
}.

(** The contents of the zoom group [g]. Group attributes are recorded at
    their steady-state values (the entry transitions of the tooltip variant
    end at these values). *)
Record Graph := mkGraph {
  g_link_stroke : string;
  g_link_opacity : Q;
  g_lines : list LineEl;
  g_link_texts : list LinkTextEl;
  g_node_stroke : string;
  g_node_stroke_width : Q;
  g_circles : list CircleEl;
  g_labels : list loc
}.

(** Children of the svg: the zoom group (empty until filled), the arrow
    marker definitions, or anything else. *)
Inductive Elem := EG (contents : option Graph) | EDefs (markers : nat) | EOther (tag : string).

(** The tooltip div appended to the container. *)
Record TooltipEl := mkTooltip {
  tt_opacity : Q;
  tt_left : Q;
  tt_top : Q;
  tt_content : option loc
}.

Record Surface := mkSurface {
  sf_children : list Elem;
  sf_bg_click : option bool;   (* the svg click listener; its [onNodeClick] supplied? *)
  sf_zoom : bool;
  sf_tooltips : list TooltipEl
}.

(** ** Simulation and drag state *)

Record Sim := mkSim {
  sim_nodes : list loc;
  sim_links : list loc;
  sim_alpha_target : Q;
  sim_restarts : nat
}.

(** d3-drag's bookkeeping: the number of active gestures and, per gesture
    identifier, the subject and the offset [subject - pointer] taken at
    [beforestart]. *)
Record DragState := mkDrag {
  ds_active : nat;
  ds_gestures : list (nat * (loc * Q * Q))
}.

Record World := mkWorld {
  w_heap : gmap nat Obj;
  w_next : nat;
  w_surf : Surface;
  w_sim : option Sim;
  w_drag : DragState;
  w_calls : list (option loc)   (* arguments of onNodeClick, latest first *)
}.

Definition set_heap (h : gmap nat Obj) (n : nat) (w : World) : World :=
  mkWorld h n (w_surf w) (w_sim w) (w_drag w) (w_calls w).
Definition set_surf (s : Surface) (w : World) : World :=
  mkWorld (w_heap w) (w_next w) s (w_sim w) (w_drag w) (w_calls w).
Definition set_sim (s : option Sim) (w : World) : World :=
  mkWorld (w_heap w) (w_next w) (w_surf w) s (w_drag w) (w_calls w).
Definition set_drag (d : DragState) (w : World) : World :=
  mkWorld (w_heap w) (w_next w) (w_surf w) (w_sim w) d (w_calls w).
Definition set_calls (c : list (option loc)) (w : World) : World :=
  mkWorld (w_heap w) (w_next w) (w_surf w) (w_sim w) (w_drag w) c.

(** ** A state-and-exception monad for the effect body

    A thrown error keeps the effects done before the throw. *)

Inductive Res (A : Type) := Ok (a : A) | Err (msg : string).
Arguments Ok {A} a.
Arguments Err {A} msg.

Definition M (A : Type) : Type := World -> Res A * World.

Global Instance M_ret : MRet M := fun A a w => (Ok a, w).
Global Instance M_bind : MBind M := fun A B f m w =>
  match m w with
  | (Ok a, w') => f a w'
  | (Err e, w') => (Err e, w')
  end.

Definition throw {A} (msg : string) : M A := fun w => (Err msg, w).
Definition get : M World := fun w => (Ok w, w).
Definition modify (f : World -> World) : M unit := fun w => (Ok tt, f w).

Definition read_node (l : loc) : M NodeObj := fun w =>
  match w_heap w !! l with
  | Some (ONode o) => (Ok o, w)
  | _ => (Err "TypeError", w)
  end.

Definition read_link (l : loc) : M LinkObj := fun w =>
  match w_heap w !! l with
  | Some (OLink o) => (Ok o, w)
  | _ => (Err "TypeError", w)
  end.

Definition write (l : loc) (o : Obj) : M unit :=
  modify (fun w => set_heap (<[l := o]> (w_heap w)) (w_next w) w).

Definition alloc (o : Obj) : M loc := fun w =>
  (Ok (w_next w), set_heap (<[w_next w := o]> (w_heap w)) (S (w_next w)) w).

Fixpoint mapW {A B} (f : A -> M B) (l : list A) : M (list B) :=
  match l with
  | [] => mret []
  | x :: r => y ← f x; ys ← mapW f r; mret (y :: ys)
  end.

Fixpoint iterW {A} (f : nat -> A -> M unit) (i : nat) (l : list A) : M unit :=
  match l with
  | [] => mret tt
  | x :: r => f i x;; iterW f (S i) r
  end.

(** ** Initialisation: the first [useEffect] of the component *)

(** The environment the effect's handlers close over: the variant, whether
    [onNodeClick] was supplied, the caller's [nodes] array and the working
    copies [nodesData] and [linksData]. *)
Record Scene := mkScene {
  sc_variant : Variant;
  sc_cb : bool;
  sc_nodes : list loc;
  sc_nodesData : list loc;
  sc_linksData : list loc
}.

Inductive InitOutcome := NoOp | Built (sc : Scene).

(** Theme colours. The plain variant has the dark palette. *)
Definition link_color (v : Variant) : string :=
  match v with Tooltip false => "#94a3b8" | _ => "#64748b" end.

Definition node_group_stroke (v : Variant) : string :=
  match v with Tooltip false => "#f8fafc" | _ => "#fff" end.

Definition hover_stroke (v : Variant) : string :=
  match v with Tooltip false => "#0f172a" | _ => "#fff" end.

(** [d3.select(svg).selectAll("*").remove()], and in the tooltip variant
    [selectAll(".graph-tooltip").remove()] on the container. *)
Definition clear_surface (v : Variant) : M unit :=
  modify (fun w => let s := w_surf w in
    set_surf (mkSurface [] (sf_bg_click s) (sf_zoom s)
      (match v with Plain => sf_tooltips s | Tooltip _ => [] end)) w).

Definition on_bg_click (cb : bool) : M unit :=
  modify (fun w => let s := w_surf w in
    set_surf (mkSurface (sf_children s) (Some cb) (sf_zoom s) (sf_tooltips s)) w).

Definition append_child (e : Elem) : M unit :=
  modify (fun w => let s := w_surf w in
    set_surf (mkSurface (sf_children s ++ [e]) (sf_bg_click s) (sf_zoom s) (sf_tooltips s)) w).

Definition append_tooltip : M unit :=
  modify (fun w => let s := w_surf w in
    set_surf (mkSurface (sf_children s) (sf_bg_click s) (sf_zoom s)
      (sf_tooltips s ++ [mkTooltip 0 0 0 None])) w).

Definition install_zoom : M unit :=
  modify (fun w => let s := w_surf w in
    set_surf (mkSurface (sf_children s) (sf_bg_click s) true (sf_tooltips s)) w).

(** [{ ...d }] *)
Definition copy_node (l : loc) : M loc := o ← read_node l; alloc (ONode o).
Definition copy_link (l : loc) : M loc := o ← read_link l; alloc (OLink o).

Section Simulation.

(** d3's initial phyllotaxis placement [(r cos a, r sin a)] with
    [r = 10 sqrt(0.5 + i)] and [a = i pi (3 - sqrt 5)]: irrational, so it is
    a parameter of the model. *)
Variable place : nat -> Q * Q.

(** [initializeNodes] of [d3.forceSimulation(nodes)]. *)
Definition init_node (i : nat) (l : loc) : M unit :=
  o ← read_node l;
  let x0 := match no_fx o with Some f => Some f | None => no_x o end in
  let y0 := match no_fy o with Some f => Some f | None => no_y o end in
  let '(x1, y1) := match x0, y0 with Some x, Some y => (x, y) | _, _ => place i end in
  let '(vx, vy) := match no_vx o, no_vy o with Some a, Some b => (a, b) | _, _ => (0, 0) end in
  write l (ONode (mkNodeObj (no_data o) (Some i) (Some x1) (Some y1)
                             (Some vx) (Some vy) (no_fx o) (no_fy o))).

(** [new Map(nodes.map(d => [d.id, d]))]: a later duplicate id wins. *)
Definition node_by_id (objs : list (loc * NodeObj)) : gmap string loc :=
  fold_left (fun m lo => <[n_id (no_data lo.2) := lo.1]> m) objs ∅.

(** forceLink's [find]: [throw new Error("node not found: " + nodeId)]. *)
Definition find_node (m : gmap string loc) (id : string) : M loc :=
  match m !! id with
  | Some l => mret l
  | None => throw ("node not found: " +:+ id)
  end.

Definition resolve_ep (m : gmap string loc) (e : Endpoint) : M loc :=
  match e with EpId id => find_node m id | EpRef r => mret r end.

(** One iteration of forceLink's [initialize] loop: [link.index = i], then
    the source, then the target is resolved. *)
Definition resolve_link (m : gmap string loc) (i : nat) (l : loc) : M unit :=
  o ← read_link l;
  write l (OLink (mkLinkObj (lo_source o) (lo_target o) (lo_type o) (Some i)));;
  s ← resolve_ep m (lo_source o);
  write l (OLink (mkLinkObj (EpRef s) (lo_target o) (lo_type o) (Some i)));;
  t ← resolve_ep m (lo_target o);
  write l (OLink (mkLinkObj (EpRef s) (EpRef t) (lo_type o) (Some i))).

Definition read_with_loc (l : loc) : M (loc * NodeObj) := o ← read_node l; mret (l, o).

Definition init_links (nodesData linksData : list loc) : M unit :=
  objs ← mapW read_with_loc nodesData;
  iterW (resolve_link (node_by_id objs)) 0 linksData.

(** The data joins: one line and one edge label per link, one circle and
    one label per node, in array order. *)
Definition render (v : Variant) (nodesData linksData : list loc) : M Graph :=
  circles ← mapW (fun l => o ← read_node l;
                     mret (mkCircle l (radius (no_data o)) (fill (no_data o)) None None))
                 nodesData;
  mret (mkGraph (link_color v) (4 # 10)
          (map (fun l => mkLine l (3 # 2) None None None) linksData)
          (map (fun l => mkLinkText l None) linksData)
          (node_group_stroke v) (3 # 2) circles nodesData).

Definition fill_g (g : Graph) : M unit :=
  modify (fun w => let s := w_surf w in
    set_surf (mkSurface (map (fun e => match e with EG None => EG (Some g) | _ => e end)
                             (sf_children s))
                        (sf_bg_click s) (sf_zoom s) (sf_tooltips s)) w).

(** The effect body. [cb] says whether [onNodeClick] was supplied. *)
Definition init (v : Variant) (cb : bool) (nodes links : list loc) : M InitOutcome :=
  match nodes with
  | [] => mret NoOp
  | _ :: _ =>
      clear_surface v;;
      on_bg_click cb;;
      append_child (EG None);;
      (match v with Tooltip _ => append_tooltip | Plain => mret tt end);;
      install_zoom;;
      nodesData ← mapW copy_node nodes;
      linksData ← mapW copy_link links;
      iterW init_node 0 nodesData;;
      modify (set_sim (Some (mkSim nodesData [] 0 1)));;
      init_links nodesData linksData;;
      modify (set_sim (Some (mkSim nodesData linksData 0 1)));;
      append_child (EDefs 1);;
      g ← render v nodesData linksData;
      fill_g g;;
      mret (Built (mkScene v cb nodes nodesData linksData))
  end.

End Simulation.

(** ** Handlers installed by the effect *)

Definition the_graph (s : Surface) : option Graph :=
  head (omap (fun e => match e with EG (Some g) => Some g | _ => None end) (sf_children s)).

Definition get_graph : M Graph :=
  w ← get;
  match the_graph (w_surf w) with Some g => mret g | None => throw "TypeError" end.

Definition set_graph (g : Graph) : M unit :=
  modify (fun w => let s := w_surf w in
    set_surf (mkSurface (map (fun e => match e with EG (Some _) => EG (Some g) | _ => e end)
                             (sf_children s))
                        (sf_bg_click s) (sf_zoom s) (sf_tooltips s)) w).

Definition circle_at (i : nat) : M CircleEl :=
  g ← get_graph;
  match g_circles g !! i with Some c => mret c | None => throw "TypeError" end.

Definition set_circle (i : nat) (c : CircleEl) : M unit :=
  g ← get_graph;
  set_graph (mkGraph (g_link_stroke g) (g_link_opacity g) (g_lines g) (g_link_texts g)
               (g_node_stroke g) (g_node_stroke_width g) (<[i := c]> (g_circles g)) (g_labels g)).

Definition set_links_visual (lines : list LineEl) (texts : list LinkTextEl) : M unit :=
  g ← get_graph;
  set_graph (mkGraph (g_link_stroke g) (g_link_opacity g) lines texts
               (g_node_stroke g) (g_node_stroke_width g) (g_circles g) (g_labels g)).

Definition update_tooltips (f : TooltipEl -> TooltipEl) : M unit :=
  modify (fun w => let s := w_surf w in
    set_surf (mkSurface (sf_children s) (sf_bg_click s) (sf_zoom s) (map f (sf_tooltips s))) w).

Definition call_onNodeClick (a : option loc) : M unit :=
  modify (fun w => set_calls (a :: w_calls w) w).

(** *** Clicks *)

(** Where a click can land inside the svg. *)
Inductive Target :=
  | TCircle (i : nat) | TNodeLabel (i : nat) | TLine (i : nat) | TLinkText (i : nat)
  | TMarker | TGroup | TSvg.

Definition tag_name (t : Target) : string :=
  match t with
  | TCircle _ => "circle"
  | TNodeLabel _ | TLinkText _ => "text"
  | TLine _ => "line"
  | TMarker => "path"
  | TGroup => "g"
  | TSvg => "svg"
  end.

(** Bubbling path from the target up to the svg element. *)
Definition propagation_path (t : Target) : list Target :=
  match t with TSvg => [TSvg] | _ => [t; TGroup; TGroup; TSvg] end.

(** [nodes.find(n => n.id === d.id)] *)
Fixpoint find_original (nodes : list loc) (id : string) : M (option loc) :=
  match nodes with
  | [] => mret None
  | l :: r => o ← read_node l;
              if String.eqb (n_id (no_data o)) id then mret (Some l) else find_original r id
  end.

(** [node.on("click", ...)]; the result says whether propagation stopped. *)
Definition node_click (sc : Scene) (i : nat) : M bool :=
  c ← circle_at i;
  (if sc_cb sc then
     d ← read_node (c_datum c);
     orig ← find_original (sc_nodes sc) (n_id (no_data d));
     match orig with Some n => call_onNodeClick (Some n) | None => mret tt end
   else mret tt);;
  mret true.

(** [svg.on("click", ...)] *)
Definition bg_click (target : Target) : M bool :=
  w ← get;
  match sf_bg_click (w_surf w) with
  | Some true => if String.eqb (tag_name target) "svg" then call_onNodeClick None else mret tt
  | _ => mret tt
  end;;
  mret false.

Definition listener (sc : Scene) (cur target : Target) : option (M bool) :=
  match cur with
  | TCircle i => Some (node_click sc i)
  | TSvg => Some (bg_click target)
  | _ => None
  end.

Fixpoint propagate (sc : Scene) (path : list Target) (target : Target) : M unit :=
  match path with
  | [] => mret tt
  | cur :: r =>
      match listener sc cur target with
      | Some h => h ≫= (fun stop : bool => if stop then mret tt else propagate sc r target)
      | None => propagate sc r target
      end
  end.

(** A click that reaches its target: the window's capturing listeners
    (d3-drag's click suppression, see [wstep]) have let it through. *)
Definition click (sc : Scene) (t : Target) : M unit := propagate sc (propagation_path t) t.

(** *** Hover *)

(** [l.source === d || l.target === d] *)
Definition ep_is (d : loc) (e : Endpoint) : bool :=
  match e with EpRef r => Nat.eqb r d | EpId _ => false end.

Definition incident (d : loc) (lo : LinkObj) : bool := ep_is d (lo_source lo) || ep_is d (lo_target lo).

Definition mouseover (sc : Scene) (i : nat) : M unit :=
  let v := sc_variant sc in
  c ← circle_at i;
  let d := c_datum c in
  o ← read_node d;
  set_circle i (mkCircle d (radius (no_data o) * (13 # 10)) (c_fill c) (Some (hover_stroke v)) (Some 3));;
  g ← get_graph;
  lines ← mapW (fun ln => lo ← read_link (ln_datum ln);
                  let inc := incident d lo in
                  mret (mkLine (ln_datum ln) (ln_width_attr ln)
                          (Some (if inc then hover_stroke v else link_color v))
                          (Some (if inc then 1 else 1 # 10))
                          (Some (if inc then 5 # 2 else 3 # 2)))) (g_lines g);
  texts ← mapW (fun t => lo ← read_link (lt_datum t);
                  mret (mkLinkText (lt_datum t) (Some (if incident d lo then 1 else 0))))
                (g_link_texts g);
  set_links_visual lines texts;;
  match v with
  | Tooltip _ => update_tooltips (fun t => mkTooltip 1 (tt_left t) (tt_top t) (Some d))
  | Plain => mret tt
  end.

Definition mouseout (sc : Scene) (i : nat) : M unit :=
  let v := sc_variant sc in
  c ← circle_at i;
  o ← read_node (c_datum c);
  set_circle i (mkCircle (c_datum c) (radius (no_data o)) (c_fill c) (c_stroke c) (Some (3 # 2)));;
  g ← get_graph;
  set_links_visual
    (map (fun ln => mkLine (ln_datum ln) (ln_width_attr ln)
                      (Some (link_color v)) (Some (4 # 10)) (Some (3 # 2))) (g_lines g))
    (map (fun t => mkLinkText (lt_datum t) (Some 0)) (g_link_texts g));;
  match v with
  | Tooltip _ => update_tooltips (fun t => mkTooltip 0 (tt_left t) (tt_top t) (tt_content t))
  | Plain => mret tt
  end.

(** The tooltip variant's [mousemove] handler. *)
Definition mousemove (sc : Scene) (W H px py : Q) : M unit :=
  match sc_variant sc with
  | Tooltip _ => let p := tooltip_pos W H px py in
                 update_tooltips (fun t => mkTooltip (tt_opacity t) p.1 p.2 (tt_content t))
  | Plain => mret tt
  end.

(** *** Simulation ticks

    The force computations (link springs with their bias, many-body
    charge, collision, centring) involve square roots; a tick is modelled
    with their outcomes as inputs: per link the velocity impulses on its
    target and source, the centring shift, and per node the velocity
    impulse of charge and collision. The writes are d3's: the link force
    writes through [link.source]/[link.target], the other forces and the
    integration step write the simulation's node objects. *)

Definition qd (o : option Q) : Q := match o with Some q => q | None => 0 end.

Definition add_v (o : NodeObj) (a : Q * Q) : NodeObj :=
  mkNodeObj (no_data o) (no_index o) (no_x o) (no_y o)
    (Some (qd (no_vx o) + a.1)) (Some (qd (no_vy o) + a.2)) (no_fx o) (no_fy o).

Definition shift_pos (o : NodeObj) (s : Q * Q) : NodeObj :=
  mkNodeObj (no_data o) (no_index o) (Some (qd (no_x o) - s.1)) (Some (qd (no_y o) - s.2))
    (no_vx o) (no_vy o) (no_fx o) (no_fy o).

(** velocityDecay = 0.4: [if (node.fx == null) node.x += node.vx *= 0.6;
    else node.x = node.fx, node.vx = 0;] and the same for [y]. *)
Definition velocity_decay : Q := 6 # 10.

Definition integrate (o : NodeObj) : NodeObj :=
  let '(x, vx) := match no_fx o with
                  | None => let v := qd (no_vx o) * velocity_decay in (qd (no_x o) + v, v)
                  | Some f => (f, 0)
                  end in
  let '(y, vy) := match no_fy o with
                  | None => let v := qd (no_vy o) * velocity_decay in (qd (no_y o) + v, v)
                  | Some f => (f, 0)
                  end in
  mkNodeObj (no_data o) (no_index o) (Some x) (Some y) (Some vx) (Some vy) (no_fx o) (no_fy o).

Definition link_force (imp : list ((Q * Q) * (Q * Q))) (k : nat) (l : loc) : M unit :=
  lo ← read_link l;
  match lo_source lo, lo_target lo with
  | EpRef s, EpRef t =>
      let '(it, is) := default ((0, 0), (0, 0)) (imp !! k) in
      ot ← read_node t; write t (ONode (add_v ot it));;
      os ← read_node s; write s (ONode (add_v os is))
  | _, _ => throw "TypeError"
  end.

Definition tick (sc : Scene) (imp : list ((Q * Q) * (Q * Q))) (shift : Q * Q)
    (dv : list (Q * Q)) : M unit :=
  iterW (link_force imp) 0 (sc_linksData sc);;
  iterW (fun _ l => o ← read_node l; write l (ONode (shift_pos o shift))) 0 (sc_nodesData sc);;
  iterW (fun k l => o ← read_node l; write l (ONode (add_v o (default (0, 0) (dv !! k)))))
        0 (sc_nodesData sc);;
  iterW (fun _ l => o ← read_node l; write l (ONode (integrate o))) 0 (sc_nodesData sc).

(** *** Drag (d3-drag attached to every circle, [drag(simulation)]) *)

Definition set_pin (l : loc) (fx fy : option Q) : M unit :=
  o ← read_node l;
  write l (ONode (mkNodeObj (no_data o) (no_index o) (no_x o) (no_y o)
                            (no_vx o) (no_vy o) fx fy)).

Definition set_alpha_target (a : Q) (restart : bool) : M unit :=
  modify (fun w => set_sim (option_map (fun s =>
    mkSim (sim_nodes s) (sim_links s) a (if restart then S (sim_restarts s) else sim_restarts s))
    (w_sim w)) w).

Fixpoint gesture_lookup (gs : list (nat * (loc * Q * Q))) (gid : nat) : option (loc * Q * Q) :=
  match gs with
  | [] => None
  | (k, g) :: r => if Nat.eqb k gid then Some g else gesture_lookup r gid
  end.

(** [gestures[identifier]] *)
Definition gesture_of (ds : DragState) (gid : nat) : option (loc * Q * Q) :=
  gesture_lookup (ds_gestures ds) gid.

Definition without (gid : nat) (gs : list (nat * (loc * Q * Q))) :=
  List.filter (fun g => negb (Nat.eqb g.1 gid)) gs.

(** A pointer down on circle [i] at [(px, py)] (pointer coordinates in the
    circle's parent group): d3-drag's [beforestart] takes the datum as
    subject and the offset [subject.x - p[0] || 0]; the ["start"] gesture
    dispatches with [active] = the number of other active gestures; then
    [dragstarted] runs. *)
Definition dragstart (sc : Scene) (gid i : nat) (px py : Q) : M unit :=
  c ← circle_at i;
  let s := c_datum c in
  o ← read_node s;
  let dx := match no_x o with Some x => x - px | None => 0 end in
  let dy := match no_y o with Some y => y - py | None => 0 end in
  w ← get;
  let n := ds_active (w_drag w) in
  modify (set_drag (mkDrag (S n) ((gid, (s, dx, dy)) :: without gid (ds_gestures (w_drag w)))));;
  (if Nat.eqb n 0 then set_alpha_target (3 # 10) true else mret tt);;
  o ← read_node s;
  set_pin s (no_x o) (no_y o).

(** A pointer move: the event's [x] is [p[0] + dx]; [dragged] pins there. *)
Definition dragmove (gid : nat) (px py : Q) : M unit :=
  w ← get;
  match gesture_of (w_drag w) gid with
  | Some (s, dx, dy) => set_pin s (Some (px + dx)) (Some (py + dy))
  | None => mret tt
  end.

(** A pointer up: the gesture is removed, [active] is the number of
    remaining gestures; [dragended] cools when none remains. The plain
    variant releases the pin, the tooltip variant keeps it. *)
Definition dragend (sc : Scene) (gid : nat) : M unit :=
  w ← get;
  match gesture_of (w_drag w) gid with
  | Some (s, _, _) =>
      let n := pred (ds_active (w_drag w)) in
      modify (set_drag (mkDrag n (without gid (ds_gestures (w_drag w)))));;
      (if Nat.eqb n 0 then set_alpha_target 0 false else mret tt);;
      match sc_variant sc with
      | Plain => set_pin s None None
      | Tooltip _ => mret tt
      end
  | None => mret tt
  end.

(** ** Events after initialisation *)

Inductive Op :=
  | OTick (imp : list ((Q * Q) * (Q * Q))) (shift : Q * Q) (dv : list (Q * Q))
  | ODragStart (gid i : nat) (px py : Q)
  | ODrag (gid : nat) (px py : Q)
  | ODragEnd (gid : nat)
  | OOver (i : nat)
  | OMove (W H px py : Q)
  | OOut (i : nat)
  | OClick (t : Target).

Definition step (sc : Scene) (op : Op) : M unit :=
  match op with
  | OTick imp sh dv => tick sc imp sh dv
  | ODragStart gid i px py => dragstart sc gid i px py
  | ODrag gid px py => dragmove gid px py
  | ODragEnd gid => dragend sc gid
  | OOver i => mouseover sc i
  | OMove W H px py => mousemove sc W H px py
  | OOut i => mouseout sc i
  | OClick t => click sc t
  end.

(** Handlers run one at a time; an exception in one handler does not stop
    the page, later events still run. *)
Fixpoint run (sc : Scene) (ops : list Op) (w : World) : World :=
  match ops with
  | [] => w
  | op :: r => run sc r (snd (step sc op w))
  end.

(** Events that neither start nor end gesture [gid]. *)
Definition other_gesture (gid : nat) (op : Op) : bool :=
  match op with
  | ODragStart g _ _ _ | ODragEnd g => negb (Nat.eqb g gid)
  | _ => true
  end.

(** ** The window: d3-drag's mouse gesture and its click suppression

    d3-drag handles the mouse itself: [mousedowned] records the client
    position and clears [mousemoving]; [mousemoved] sets [mousemoving]
    once the pointer has moved by more than [clickDistance2] (0 by
    default); [mouseupped] calls [yesdrag(view, mousemoving)], which, when
    the mouse moved, adds a capturing [click.drag] listener on the window
    that stops the next click ([noevent]) and removes it with a zero-delay
    [setTimeout]. [md_noclick] says whether that listener is installed.
    Touch gestures install no such listener. The mouse gesture uses the
    identifier [mouse_gid] (d3's ["mouse"]). *)
Record MouseDrag := mkMouse {
  md_down : option (Q * Q);   (* client position of the mousedown, while the gesture lasts *)
  md_moving : bool;
  md_noclick : bool
}.

Definition mouse_idle : MouseDrag := mkMouse None false false.

Definition mouse_gid : nat := 0.

Definition click_distance2 : Q := 0.

(** What reaches the window: component events (ticks, hover, touch
    gestures, clicks), a mousedown on circle [i] accepted by d3-drag's
    filter, mouse moves and the mouse-up (client position [(cx, cy)],
    pointer position [(px, py)] in the circle's parent group), and the
    zero-delay timer. *)
Inductive Input :=
  | IEvent (op : Op)
  | IMouseDown (i : nat) (cx cy px py : Q)
  | IMouseMove (cx cy px py : Q)
  | IMouseUp
  | ITimer.

Definition wstep (sc : Scene) (inp : Input) (s : MouseDrag * World) : MouseDrag * World :=
  let '(md, w) := s in
  match inp with
  | IEvent (OClick t) => if md_noclick md then (md, w) else (md, snd (click sc t w))
  | IEvent op => (md, snd (step sc op w))
  | IMouseDown i cx cy px py =>
      (mkMouse (Some (cx, cy)) false (md_noclick md), snd (dragstart sc mouse_gid i px py w))
  | IMouseMove cx cy px py =>
      match md_down md with
      | Some (x0, y0) =>
          let moving := md_moving md
                        || negb (Qle_bool ((cx - x0) * (cx - x0) + (cy - y0) * (cy - y0)) click_distance2) in
          (mkMouse (Some (x0, y0)) moving (md_noclick md), snd (dragmove mouse_gid px py w))
      | None => (md, w)
      end
  | IMouseUp =>
      match md_down md with
      | Some _ => (mkMouse None (md_moving md) (md_noclick md || md_moving md),
                   snd (dragend sc mouse_gid w))
      | None => (md, w)
      end
  | ITimer => (mkMouse (md_down md) (md_moving md) false, w)
  end.

Fixpoint wrun (sc : Scene) (inps : list Input) (s : MouseDrag * World) : MouseDrag * World :=
  match inps with
  | [] => s
  | inp :: r => wrun sc r (wstep sc inp s)
  end.

(** ** Concrete inputs *)

Definition empty_surface : Surface := mkSurface [] None false [].

Definition world0 : World := mkWorld ∅ 0 empty_surface None (mkDrag 0 []) [].

(** The caller's arrays, allocated in a heap. *)
Definition alloc_input (ns : list GraphNode) (ls : list GraphLink) : M (list loc * list loc) :=
  nl ← mapW (fun d => alloc (ONode (node_obj d))) ns;
  ll ← mapW (fun d => alloc (OLink (link_obj d))) ls;
  mret (nl, ll).

Definition origin (_ : nat) : Q * Q := (0, 0).

Definition ex_nodes : list GraphNode :=
  [mkNode "1" "A" "DRUG" None None; mkNode "2" "B" "PROTEIN" None None;
   mkNode "3" "C" "SIDE_EFFECT" None None].

Definition ex_links : list GraphLink :=
  [mkLink "1" "2" "encodes"; mkLink "2" "3" "predicts"].

(** ** Specifications *)

(** Hoare triples over [M] with an invariant [I] kept by every run, also
    one that throws. *)
Definition hoare {A} (I P : World -> Prop) (m : M A) (Q : A -> World -> Prop) : Prop :=
  forall w, I w -> P w ->
    I (snd (m w)) /\ (forall a, fst (m w) = Ok a -> Q a (snd (m w))).

Definition alloc_w (o : Obj) (w : World) : World :=
  set_heap (<[w_next w := o]> (w_heap w)) (S (w_next w)) w.

Definition write_w (l : loc) (o : Obj) (w : World) : World :=
  set_heap (<[l := o]> (w_heap w)) (w_next w) w.

Definition ep_ok (lo : nat) (e : Endpoint) : Prop :=
  match e with EpRef r => (lo <= r)%nat | EpId _ => True end.

(** Link objects at or above [lo] only reference objects at or above [lo]. *)
Definition links_ok (lo : nat) (w : World) : Prop :=
  forall l o, (lo <= l)%nat -> w_heap w !! l = Some (OLink o) ->
    ep_ok lo (lo_source o) /\ ep_ok lo (lo_target o).

(** The working copy [l] carries the data of the caller's node [l'] of
    the initial world [w0]. *)
Definition corr (w0 w : World) (l l' : loc) : Prop :=
  exists o o', w_heap w !! l = Some (ONode o) /\ w_heap w0 !! l' = Some (ONode o')
               /\ no_data o = no_data o'.

(** The circle of a caller's node as rendered from its working copy. *)
Definition drawn (w0 : World) (c : CircleEl) (l : loc) : Prop :=
  exists o, w_heap w0 !! l = Some (ONode o) /\ c_r c = radius (no_data o) /\ c_fill c = fill (no_data o).

(** An endpoint still holding an id string. *)
Definition ep_is_id (e : Endpoint) : Prop :=
  match e with EpId _ => True | EpRef _ => False end.

(** The caller's input lives in the heap below [w_next w0], nothing is
    allocated above it, its links carry string ids ([GraphLink.source] and
    [target] are strings) and no drag gesture is in progress. *)
Record input_ok (w0 : World) (nodes links : list loc) : Prop := {
  in_nodes : Forall (fun l => (l < w_next w0)%nat) nodes;
  in_links : Forall (fun l => (l < w_next w0)%nat) links;
  in_fresh : forall l, (w_next w0 <= l)%nat -> w_heap w0 !! l = None;
  in_ids : Forall (fun l => forall o, w_heap w0 !! l = Some (OLink o) ->
                              ep_is_id (lo_source o) /\ ep_is_id (lo_target o)) links;
  in_idle : ds_gestures (w_drag w0) = []
}.

(** The heap side of the world during initialisation. *)
Record init_inv (lo : nat) (w0 w : World) : Prop := {
  ii_next : (lo <= w_next w)%nat;
  ii_frame : forall l, (l < lo)%nat -> w_heap w !! l = w_heap w0 !! l;
  ii_fresh : forall l, (w_next w <= l)%nat -> w_heap w !! l = None;
  ii_links : links_ok lo w;
  ii_drag : w_drag w = w_drag w0
}.

(** The working copy [l] of the caller's link [l'] before its endpoints are
    resolved. *)
Definition link_copy (w0 w : World) (l l' : loc) : Prop :=
  exists o, w_heap w !! l = Some (OLink o) /\ w_heap w0 !! l' = Some (OLink o).

(** [m] only touches the heap. *)
Definition heap_only {A} (m : M A) : Prop :=
  forall w, exists h n, snd (m w) = set_heap h n w.

(** [F] does not look at the heap. *)
Definition heap_blind (F : World -> Prop) : Prop :=
  forall w h n, F w -> F (set_heap h n w).

(** What holds of a built scene from initialisation on, [lo] being the
    first working location and [w0] the world before initialisation. *)
Record scene_inv (lo : nat) (w0 : World) (sc : Scene) (w : World) : Prop := {
  si_next : (lo <= w_next w)%nat;
  si_frame : forall l, (l < lo)%nat -> w_heap w !! l = w_heap w0 !! l;
  si_links : links_ok lo w;
  si_nodesData : Forall (fun l => (lo <= l)%nat) (sc_nodesData sc);
  si_linksData : Forall (fun l => (lo <= l)%nat) (sc_linksData sc);
  si_nodes : Forall (fun l => (l < lo)%nat) (sc_nodes sc);
  si_graph : exists g, the_graph (w_surf w) = Some g /\ c_datum <$> g_circles g = sc_nodesData sc;
  si_gestures : forall gid s dx dy, gesture_of (w_drag w) gid = Some (s, dx, dy) -> s ∈ sc_nodesData sc;
  si_corr : Forall2 (corr w0 w) (sc_nodesData sc) (sc_nodes sc);
  si_bg : sf_bg_click (w_surf w) = Some (sc_cb sc)
}.

(** The effective (inherited or own) visual state of the scene. *)
Record Visual := mkVisual {
  vi_circles : list (Q * string * Q);      (* r, stroke, stroke-width *)
  vi_lines : list (string * Q * Q);        (* stroke, stroke-opacity, stroke-width *)
  vi_texts : list Q;                       (* opacity *)
  vi_tooltips : list Q                     (* opacity *)
}.

Definition visual (s : Surface) : option Visual :=
  match the_graph s with
  | None => None
  | Some g => Some (mkVisual
      (map (fun c => (c_r c, default (g_node_stroke g) (c_stroke c),
                      default (g_node_stroke_width g) (c_stroke_width c))) (g_circles g))
      (map (fun ln => (default (g_link_stroke g) (ln_stroke_style ln),
                       default (g_link_opacity g) (ln_opacity_style ln),
                       default (ln_width_attr ln) (ln_width_style ln))) (g_lines g))
      (map (fun t => default 0 (lt_opacity_style t)) (g_link_texts g))
      (map tt_opacity (sf_tooltips s)))
  end.

(** ** The encoding as the specification words it *)

(** Radius [val*3+8] when [val] is present, [10] otherwise. *)
Definition radius_spec (d : GraphNode) : Q :=
  match n_val d with Some v => v * 3 + 8 | None => 10 end.

(** The fixed palette keyed by node type. *)
Definition palette (t : string) : string :=
  if String.eqb t "DRUG" then "#a855f7"
  else if String.eqb t "PROTEIN" then "#3b82f6"
  else if String.eqb t "SIDE_EFFECT" then "#ef4444"
  else "#94a3b8".

(** ** Input worlds: the caller's objects at locations [0, 1, ...] *)

Fixpoint heap_of (k : nat) (os : list Obj) : gmap nat Obj :=
  match os with
  | [] => ∅
  | o :: r => <[k := o]> (heap_of (S k) r)
  end.

Definition input_world (os : list Obj) : World :=
  mkWorld (heap_of 0 os) (length os) empty_surface None (mkDrag 0 []) [].

Definition ex_objs : list Obj :=
  map (fun d => ONode (node_obj d)) ex_nodes ++ map (fun d => OLink (link_obj d)) ex_links.

(** The example of the specification: nodes at [0; 1; 2], links at [3; 4]. *)
Definition ex_world : World := input_world ex_objs.

(** The scene built from [ex_world]: working copies at [5 .. 9]. *)
Definition ex_scene (v : Variant) : Scene := mkScene v true [0; 1; 2]%nat [5; 6; 7]%nat [8; 9]%nat.

Definition ex_after_init (v : Variant) : World := snd (init origin v true [0; 1; 2]%nat [3; 4]%nat ex_world).

(** A node with [val: 0]. *)
Definition zero_node : GraphNode := mkNode "z" "Z" "DRUG" (Some 0) None.

Definition zero_world : World := input_world [ONode (node_obj zero_node)].

(** One node ["1"] and a link from it to the absent id ["9"]. *)
Definition bad_world : World :=
  input_world [ONode (node_obj (mkNode "1" "A" "DRUG" None None));
               OLink (link_obj (mkLink "1" "9" "encodes"))].

(** A link whose endpoints name no node, and no node. *)
Definition dangling_world : World := input_world [OLink (link_obj (mkLink "1" "9" "encodes"))].

(** ** Frame conditions *)

(** [m] leaves the part [f] of the world unchanged, also when it throws. *)
Definition keeps {A X} (f : World -> X) (m : M A) : Prop := forall w, f (snd (m w)) = f w.

(** The parts of the world the hover handlers must not touch: the heap,
    the simulation, the drag bookkeeping and the [onNodeClick] calls. *)
Definition non_visual (w : World) : gmap nat Obj * nat * option Sim * DragState * list (option loc) :=
  (w_heap w, w_next w, w_sim w, w_drag w, w_calls w).

(** [m] records at most one [onNodeClick] call. *)
Definition one_call {A} (m : M A) : Prop :=
  forall w, w_calls (snd (m w)) = w_calls w \/ exists a, w_calls (snd (m w)) = a :: w_calls w.

(** What a simulation tick must leave alone: a node object's data, index
    and pin, and every link object. *)
Definition skeleton (o : Obj) : (GraphNode * option nat * option Q * option Q) + LinkObj :=
  match o with
  | ONode n => inl (no_data n, no_index n, no_fx n, no_fy n)
  | OLink l => inr l
  end.

Definition heap_skeleton (w : World) : gmap nat ((GraphNode * option nat * option Q * option Q) + LinkObj) * nat :=
  (skeleton <$> w_heap w, w_next w).

(** A node that is pinned sits at its pin and does not move. *)
Definition pinned_ok (o : NodeObj) : Prop :=
  (forall a, no_fx o = Some a -> no_x o = Some a /\ no_vx o = Some 0)
  /\ (forall b, no_fy o = Some b -> no_y o = Some b /\ no_vy o = Some 0).

(** Which heap cells hold node objects. *)
Definition heap_kinds (w : World) : gmap nat bool :=
  (fun o => match o with ONode _ => true | OLink _ => false end) <$> w_heap w.

(** d3-drag's gesture table: one entry per identifier, and no more
    entries than the [active] count. *)
Definition gest_ok (ds : DragState) : Prop :=
  NoDup (map fst (ds_gestures ds)) /\ (length (ds_gestures ds) <= ds_active ds)%nat.

(** ** Tooltip contents (mouseover handler of the tooltip variant) *)

(** [d.type === 'DRUG' ? '#a855f7' : d.type === 'PROTEIN' ? '#3b82f6' : '#ef4444'],
    the colour of the dot in the tooltip. *)
Definition type_color (t : string) : string :=
  if String.eqb t "DRUG" then "#a855f7"
  else if String.eqb t "PROTEIN" then "#3b82f6"
  else "#ef4444".


(** ** Graph updates of the hover handlers *)

(** The graph [set_circle i c] writes over [g]. *)
Definition with_circle (g : Graph) (i : nat) (c : CircleEl) : Graph :=
  mkGraph (g_link_stroke g) (g_link_opacity g) (g_lines g) (g_link_texts g)
    (g_node_stroke g) (g_node_stroke_width g) (<[i := c]> (g_circles g)) (g_labels g).

(** The graph [set_links_visual lines texts] writes over [g]. *)
Definition with_links (g : Graph) (lines : list LineEl) (texts : list LinkTextEl) : Graph :=
  mkGraph (g_link_stroke g) (g_link_opacity g) lines texts
    (g_node_stroke g) (g_node_stroke_width g) (g_circles g) (g_labels g).

(** ** The resize effect (second [useEffect]) *)

(** [entries[i].contentRect]: only its size is read. *)
Record Entry := mkEntry { e_width : Q; e_height : Q }.

(** The state the resize effect reads and writes: whether the observer is
    connected, the effect's [animationFrameId] variable ([None] while
    undefined), the browser's next [requestAnimationFrame] handle and its
    queue of the effect's frame callbacks (with the [entries] each one
    captured), whether [svgRef.current] and [simulationRef.current] are set,
    and the values written: the svg [viewBox], the simulation's centre
    force, its [alpha] and the number of restarts. *)
Record RState := mkRState {
  rs_connected : bool;
  rs_afid : option nat;
  rs_next_id : nat;
  rs_pending : list (nat * list Entry);
  rs_svg : bool;
  rs_sim : bool;
  rs_viewBox : option (Q * Q * Q * Q);
  rs_center : option (Q * Q);
  rs_alpha : Q;
  rs_restarts : nat
}.

Definition set_pending (p : list (nat * list Entry)) (s : RState) : RState :=
  mkRState (rs_connected s) (rs_afid s) (rs_next_id s) p (rs_svg s) (rs_sim s)
    (rs_viewBox s) (rs_center s) (rs_alpha s) (rs_restarts s).

(** [cancelAnimationFrame(id)]: drops the callback if it is still queued. *)
Definition cancelAnimationFrame (id : nat) (s : RState) : RState :=
  set_pending (List.filter (fun p => negb (Nat.eqb p.1 id)) (rs_pending s)) s.

(** [animationFrameId = requestAnimationFrame(cb)] *)
Definition requestAnimationFrame (es : list Entry) (s : RState) : RState :=
  mkRState (rs_connected s) (Some (rs_next_id s)) (S (rs_next_id s))
    (rs_pending s ++ [(rs_next_id s, es)]) (rs_svg s) (rs_sim s)
    (rs_viewBox s) (rs_center s) (rs_alpha s) (rs_restarts s).

(** [if (animationFrameId) cancelAnimationFrame(animationFrameId)]: a
    handle is truthy unless it is 0. *)
Definition cancel_pending (s : RState) : RState :=
  match rs_afid s with
  | Some id => if Nat.eqb id 0 then s else cancelAnimationFrame id s
  | None => s
  end.

(** The [ResizeObserver] callback. *)
Definition on_resize (es : list Entry) (s : RState) : RState :=
  requestAnimationFrame es (cancel_pending s).

(** The frame callback, over the [entries] it captured. *)
Definition frame_callback (es : list Entry) (s : RState) : RState :=
  match es with
  | [] => s
  | e :: _ =>
      if negb (rs_svg s) then s else
      let vb := Some (0, 0, e_width e, e_height e) in
      if rs_sim s then
        mkRState (rs_connected s) (rs_afid s) (rs_next_id s) (rs_pending s) (rs_svg s) (rs_sim s)
          vb (Some (e_width e / 2, e_height e / 2)) (3 # 10) (S (rs_restarts s))
      else
        mkRState (rs_connected s) (rs_afid s) (rs_next_id s) (rs_pending s) (rs_svg s) (rs_sim s)
          vb (rs_center s) (rs_alpha s) (rs_restarts s)
  end.

(** A rendering frame runs the callbacks queued before it, in order. *)
Definition run_frame (s : RState) : RState :=
  fold_left (fun s p => frame_callback p.2 s) (rs_pending s) (set_pending [] s).

(** The cleanup: [resizeObserver.disconnect()], then the pending frame is
    cancelled. *)
Definition resize_cleanup (s : RState) : RState :=
  cancel_pending
    (mkRState false (rs_afid s) (rs_next_id s) (rs_pending s) (rs_svg s) (rs_sim s)
       (rs_viewBox s) (rs_center s) (rs_alpha s) (rs_restarts s)).

(** What reaches the effect: a resize observation, a rendering frame,
    a frame requested by other code (d3's timer) taking a handle, and the
    unmount. *)
Inductive REvent := RObserve (es : list Entry) | RFrame | ROtherRequest | RUnmount.

Definition rstep (s : RState) (ev : REvent) : RState :=
  match ev with
  | RObserve es => if rs_connected s then on_resize es s else s
  | RFrame => run_frame s
  | ROtherRequest =>
      mkRState (rs_connected s) (rs_afid s) (S (rs_next_id s)) (rs_pending s) (rs_svg s) (rs_sim s)
        (rs_viewBox s) (rs_center s) (rs_alpha s) (rs_restarts s)
  | RUnmount => resize_cleanup s
  end.

Definition rrun (s : RState) (evs : list REvent) : RState := fold_left rstep evs s.

(** What the effect makes visible. *)
Definition rvisible (s : RState) : option (Q * Q * Q * Q) * option (Q * Q) * Q * nat :=
  (rs_viewBox s, rs_center s, rs_alpha s, rs_restarts s).

(** Browser handles are positive; the queue holds at most the callback
    whose handle is in [animationFrameId]. *)
Definition rs_inv (s : RState) : Prop :=
  (1 <= rs_next_id s)%nat /\ (forall id, rs_afid s = Some id -> (1 <= id)%nat)
  /\ Forall (fun p => rs_afid s = Some p.1) (rs_pending s) /\ (length (rs_pending s) <= 1)%nat.

Definition center_ok (s : RState) : Prop :=
  forall x y w h, rs_viewBox s = Some (x, y, w, h) ->
    exists cx cy, rs_center s = Some (cx, cy) /\ cx == w / 2 /\ cy == h / 2.

(** A mounted effect in a 800 x 600 container, its simulation centred. *)
Definition resize_example : RState :=
  mkRState true None 1 [] true true (Some (0, 0, 800, 600)) (Some (400, 300)) 1 0.

(** * Proofs *)

Section HoareRules.
Context (I : World -> Prop).

Lemma hoare_bind {A B} P (m : M A) (f : A -> M B) R Q :
  hoare I P m R -> (forall a, hoare I (R a) (f a) Q) -> hoare I P (m ≫= f) Q.
Proof.
  intros Hm Hf w HI HP. unfold mbind, M_bind.
  specialize (Hm w HI HP).
  destruct (m w) as [[a|e] w'] eqn:E; simpl in *; destruct Hm as [HI' HR].
  - exact (Hf a w' HI' (HR a eq_refl)).
  - split; [exact HI'|discriminate].
Qed.

Lemma hoare_ret {A} P (a : A) Q :
  (forall w, I w -> P w -> Q a w) -> hoare I P (mret a) Q.
Proof. intros H w HI HP. split; [exact HI|]. intros a' E. injection E as <-. auto. Qed.

Lemma hoare_conseq {A} P P' (m : M A) Q Q' :
  hoare I P' m Q' -> (forall w, I w -> P w -> P' w) -> (forall a w, Q' a w -> Q a w) ->
  hoare I P m Q.
Proof.
  intros H HP HQ w HI Hp. destruct (H w HI (HP w HI Hp)) as [H1 H2]. split; auto.
Qed.

Lemma hoare_modify P f Q :
  (forall w, I w -> P w -> I (f w) /\ Q tt (f w)) -> hoare I P (modify f) Q.
Proof. intros H w HI HP. destruct (H w HI HP). split; [auto|]. intros [] _; auto. Qed.

Lemma hoare_get P Q : (forall w, I w -> P w -> Q w w) -> hoare I P get Q.
Proof. intros H w HI HP. split; [exact HI|]. intros a E. injection E as <-. auto. Qed.

Lemma hoare_throw {A} P s (Q : A -> World -> Prop) : hoare I P (throw s) Q.
Proof. intros w HI HP. split; [exact HI|discriminate]. Qed.

Lemma hoare_read_node P l :
  hoare I P (read_node l) (fun o w => P w /\ I w /\ w_heap w !! l = Some (ONode o)).
Proof.
  intros w HI HP. unfold read_node.
  destruct (w_heap w !! l) as [[o|o]|] eqn:E; simpl; (split; [exact HI|]); try discriminate.
  intros a Ea. injection Ea as <-. auto.
Qed.

Lemma hoare_read_link P l :
  hoare I P (read_link l) (fun o w => P w /\ I w /\ w_heap w !! l = Some (OLink o)).
Proof.
  intros w HI HP. unfold read_link.
  destruct (w_heap w !! l) as [[o|o]|] eqn:E; simpl; (split; [exact HI|]); try discriminate.
  intros a Ea. injection Ea as <-. auto.
Qed.

Lemma hoare_alloc P o Q :
  (forall w, I w -> P w -> I (alloc_w o w) /\ Q (w_next w) (alloc_w o w)) ->
  hoare I P (alloc o) Q.
Proof. intros H w HI HP. destruct (H w HI HP). split; [auto|]. intros a E. injection E as <-. auto. Qed.

Lemma hoare_write P l o Q :
  (forall w, I w -> P w -> I (write_w l o w) /\ Q tt (write_w l o w)) ->
  hoare I P (write l o) Q.
Proof. intros H. apply hoare_modify. exact H. Qed.

Lemma hoare_iterW {A} (J : World -> Prop) (f : nat -> A -> M unit) (l : list A) i :
  (forall i x, x ∈ l -> hoare I J (f i x) (fun _ => J)) ->
  hoare I J (iterW f i l) (fun _ => J).
Proof.
  revert i. induction l as [|x r IH]; intros i Hf; simpl.
  - apply hoare_ret. auto.
  - eapply hoare_bind; [apply Hf; left|]. intros [].
    apply IH. intros j y Hy. apply Hf. right. exact Hy.
Qed.

Lemma hoare_conj {A} P (m : M A) Q1 Q2 :
  hoare I P m Q1 -> hoare I P m Q2 -> hoare I P m (fun a w => Q1 a w /\ Q2 a w).
Proof.
  intros H1 H2 w HI HP. destruct (H1 w HI HP) as [HI1 Hq1]. destruct (H2 w HI HP) as [_ Hq2].
  split; auto.
Qed.

Lemma hoare_mapW {A B} (f : A -> M B) (R : A -> B -> World -> Prop) (l : list A) :
  forall J : World -> Prop,
  (forall x, x ∈ l -> hoare I J (f x) (fun y w => J w /\ R x y w)) ->
  (forall x y x', x' ∈ l -> hoare I (fun w => J w /\ R x y w) (f x') (fun _ w => R x y w)) ->
  hoare I J (mapW f l) (fun ys w => J w /\ Forall2 (fun x y => R x y w) l ys).
Proof.
  induction l as [|x r IH]; intros J Hf Hs; simpl.
  - apply hoare_ret. intros w _ HJ. split; [exact HJ|constructor].
  - eapply hoare_bind; [apply Hf; left|]. intros y.
    eapply hoare_bind.
    + apply (IH (fun w => J w /\ R x y w)).
      * intros x' Hx'.
        eapply (hoare_conseq _ (fun w => J w /\ R x y w)).
        -- apply hoare_conj.
           ++ eapply hoare_conseq; [apply Hf; right; exact Hx'| |].
              ** intros w _ [HJ _]. exact HJ.
              ** intros a w Ha. exact Ha.
           ++ apply (Hs x y x'). right. exact Hx'.
        -- intros w _ Hw. exact Hw.
        -- intros y' w [[HJ HR'] HR]. tauto.
      * intros x2 y2 x' Hx'. eapply hoare_conseq; [apply (Hs x2 y2 x')| |].
        -- right. exact Hx'.
        -- intros w _ [[HJ _] HR]. tauto.
        -- auto.
    + intros ys. apply hoare_ret. intros w _ [[HJ HR] HF]. split; [exact HJ|]. constructor; auto.
Qed.

End HoareRules.

(** ** The scene invariant under the primitive effects *)

Lemma the_graph_replace (cs : list Elem) g g' :
  head (omap (fun e => match e with EG (Some g) => Some g | _ => None end) cs) = Some g ->
  head (omap (fun e => match e with EG (Some g) => Some g | _ => None end)
          (map (fun e => match e with EG (Some _) => EG (Some g') | _ => e end) cs)) = Some g'.
Proof.
  induction cs as [|e cs IH]; simpl; [discriminate|].
  destruct e as [[g0|]| |]; simpl; auto.
Qed.

Lemma corr_write w0 w l o1 o2 a b :
  w_heap w !! l = Some (ONode o1) -> no_data o2 = no_data o1 ->
  corr w0 w a b -> corr w0 (write_w l (ONode o2) w) a b.
Proof.
  intros Hl Hd (o & o' & Ha & Hb & Hab). unfold corr, write_w, set_heap.
  cbn [w_heap].
  destruct (decide (l = a)) as [<-|Hne].
  - rewrite Hl in Ha. injection Ha as <-. exists o2, o'.
    rewrite lookup_insert_eq. repeat split; auto. congruence.
  - exists o, o'. rewrite lookup_insert_ne by exact Hne. auto.
Qed.

Section SceneInv.
Variables (lo : nat) (w0 : World) (sc : Scene).
Local Notation I := (scene_inv lo w0 sc).

Lemma inv_write_node w l o1 o2 :
  I w -> (lo <= l)%nat -> w_heap w !! l = Some (ONode o1) -> no_data o2 = no_data o1 ->
  I (write_w l (ONode o2) w).
Proof.
  intros [Hn Hf Hlk Hnd Hld Hnds Hg Hgs Hc Hbg] Hlo Hl Hd.
  split; cbn [w_heap w_next w_surf w_drag w_sim w_calls write_w set_heap]; auto.
  - intros l' Hl'. rewrite lookup_insert_ne by lia. auto.
  - intros l' o Hl' Ho. cbn [w_heap write_w set_heap] in Ho.
    destruct (decide (l = l')) as [<-|Hne].
    + rewrite lookup_insert_eq in Ho. discriminate.
    + rewrite lookup_insert_ne in Ho by exact Hne. eauto.
  - eapply Forall2_impl; [exact Hc|]. intros a b. apply corr_write with o1; auto.
Qed.

Lemma inv_surf w s :
  I w -> sf_bg_click s = sf_bg_click (w_surf w) ->
  (exists g, the_graph s = Some g /\ c_datum <$> g_circles g = sc_nodesData sc) ->
  I (set_surf s w).
Proof. intros [] Hbg Hg; split; simpl; auto; congruence. Qed.

Lemma inv_calls w c : I w -> I (set_calls c w).
Proof. intros []; split; simpl; auto. Qed.

Lemma inv_sim w s : I w -> I (set_sim s w).
Proof. intros []; split; simpl; auto. Qed.

Lemma inv_drag w d :
  I w -> (forall gid s dx dy, gesture_of d gid = Some (s, dx, dy) -> s ∈ sc_nodesData sc) ->
  I (set_drag d w).
Proof. intros [] Hd; split; simpl; auto. Qed.

End SceneInv.

Section SceneHandlers.
Variables (lo : nat) (w0 : World) (sc : Scene).
Local Notation I := (scene_inv lo w0 sc).

Lemma inv_datum w g i c :
  I w -> the_graph (w_surf w) = Some g -> g_circles g !! i = Some c ->
  c_datum c ∈ sc_nodesData sc /\ (lo <= c_datum c)%nat.
Proof.
  intros HI Hg Hc. destruct (si_graph _ _ _ _ HI) as (g' & Hg' & Hd).
  rewrite Hg in Hg'. injection Hg' as <-.
  assert (Hin : c_datum c ∈ sc_nodesData sc).
  { rewrite <- Hd. apply list_elem_of_fmap_2. eapply list_elem_of_lookup_2. exact Hc. }
  split; [exact Hin|]. eapply Forall_forall; [apply (si_nodesData _ _ _ _ HI)|exact Hin].
Qed.

Lemma inv_in_nodesData w l : I w -> l ∈ sc_nodesData sc -> (lo <= l)%nat.
Proof. intros HI Hl. eapply Forall_forall; [apply (si_nodesData _ _ _ _ HI)|exact Hl]. Qed.

Lemma get_spec P : hoare I P get (fun w' w => w' = w /\ P w /\ I w).
Proof. apply hoare_get. auto. Qed.

Lemma get_graph_spec P :
  hoare I P get_graph (fun g w => P w /\ I w /\ the_graph (w_surf w) = Some g).
Proof.
  unfold get_graph. eapply hoare_bind; [apply get_spec|]. intros w'.
  destruct (the_graph (w_surf w')) as [g|] eqn:E; [|apply hoare_throw].
  apply hoare_ret. intros w _ (-> & HP & HI). auto.
Qed.

Lemma circle_at_spec P i :
  hoare I P (circle_at i) (fun c w => P w /\ I w /\ c_datum c ∈ sc_nodesData sc /\
    (lo <= c_datum c)%nat /\ exists g, the_graph (w_surf w) = Some g /\ g_circles g !! i = Some c).
Proof.
  unfold circle_at. eapply hoare_bind; [apply get_graph_spec|]. intros g.
  destruct (g_circles g !! i) as [c|] eqn:E; [|apply hoare_throw].
  apply hoare_ret. intros w _ (HP & HI & Hg).
  destruct (inv_datum w g i c HI Hg E). eauto 10.
Qed.

(** Writing a node object that keeps its data. *)
Lemma write_node_spec (F : Prop) l o2 :
  hoare I (fun w => F /\ (lo <= l)%nat /\ exists o1, w_heap w !! l = Some (ONode o1) /\ no_data o2 = no_data o1)
    (write l (ONode o2)) (fun _ _ => F).
Proof.
  apply hoare_write. intros w HI (HF & Hlo & o1 & Hl & Hd). split; [|exact HF].
  eapply inv_write_node; eauto.
Qed.

Lemma set_pin_spec (F : Prop) s fx fy :
  hoare I (fun _ => F /\ (lo <= s)%nat) (set_pin s fx fy) (fun _ _ => F).
Proof.
  unfold set_pin. eapply hoare_bind; [apply hoare_read_node|]. intros o.
  eapply hoare_conseq; [apply write_node_spec| |]; [|intros ? ? Hq; exact Hq].
  intros w _ ((HF & Hlo) & _ & Hl). split; [exact HF|]. split; [exact Hlo|].
  exists o. split; [exact Hl|reflexivity].
Qed.

Lemma set_graph_spec (F : Prop) g' :
  hoare I (fun _ => F /\ c_datum <$> g_circles g' = sc_nodesData sc) (set_graph g') (fun _ _ => F).
Proof.
  apply hoare_modify. intros w HI [HF Hd]. split; [|exact HF].
  apply inv_surf; [exact HI|reflexivity|]. exists g'. split; [|exact Hd].
  destruct (si_graph _ _ _ _ HI) as (g & Hg & _). apply (the_graph_replace _ g). exact Hg.
Qed.

Lemma fmap_c_datum_insert (cs : list CircleEl) i c :
  (forall c0, cs !! i = Some c0 -> c_datum c0 = c_datum c) ->
  c_datum <$> <[i := c]> cs = c_datum <$> cs.
Proof.
  intros H. rewrite list_fmap_insert.
  destruct (cs !! i) as [c0|] eqn:E.
  - apply list_insert_id. rewrite list_lookup_fmap, E. simpl. f_equal. apply H. reflexivity.
  - apply list_insert_ge. rewrite length_fmap. apply lookup_ge_None. exact E.
Qed.

Lemma set_circle_spec (F : Prop) i c :
  hoare I (fun w => F /\ forall g c0, the_graph (w_surf w) = Some g -> g_circles g !! i = Some c0 ->
                                       c_datum c0 = c_datum c)
    (set_circle i c) (fun _ _ => F).
Proof.
  unfold set_circle. eapply hoare_bind; [apply get_graph_spec|]. intros g.
  eapply hoare_conseq; [apply set_graph_spec| |]; [|intros ? ? Hq; exact Hq].
  intros w _ ((HF & Hc) & HI & Hg). split; [exact HF|]. simpl.
  rewrite fmap_c_datum_insert by eauto.
  destruct (si_graph _ _ _ _ HI) as (g1 & Hg1 & Hd). congruence.
Qed.

Lemma set_links_visual_spec (F : Prop) lines texts :
  hoare I (fun _ => F) (set_links_visual lines texts) (fun _ _ => F).
Proof.
  unfold set_links_visual. eapply hoare_bind; [apply get_graph_spec|]. intros g.
  eapply hoare_conseq; [apply set_graph_spec| |]; [|intros ? ? Hq; exact Hq].
  intros w _ (HF & HI & Hg). split; [exact HF|]. simpl.
  destruct (si_graph _ _ _ _ HI) as (g1 & Hg1 & Hd). congruence.
Qed.

Lemma update_tooltips_spec (F : Prop) f :
  hoare I (fun _ => F) (update_tooltips f) (fun _ _ => F).
Proof.
  apply hoare_modify. intros w HI HF. split; [|exact HF].
  apply inv_surf; [exact HI|reflexivity|]. apply (si_graph _ _ _ _ HI).
Qed.

Lemma call_spec (F : Prop) a : hoare I (fun _ => F) (call_onNodeClick a) (fun _ _ => F).
Proof. apply hoare_modify. intros w HI HF. split; [apply inv_calls; exact HI|exact HF]. Qed.

Lemma set_alpha_target_spec (F : Prop) a r :
  hoare I (fun _ => F) (set_alpha_target a r) (fun _ _ => F).
Proof. apply hoare_modify. intros w HI HF. split; [apply inv_sim; exact HI|exact HF]. Qed.


Lemma mapW_read_spec {A B} (F : Prop) (f : A -> M B) (l : list A) :
  (forall x, hoare I (fun _ => F) (f x) (fun _ _ => F)) ->
  hoare I (fun _ => F) (mapW f l) (fun _ _ => F).
Proof.
  intros Hf. induction l as [|x r IH]; simpl.
  - apply hoare_ret. auto.
  - eapply hoare_bind; [apply Hf|]. intros y.
    eapply hoare_bind; [apply IH|]. intros ys. apply hoare_ret. auto.
Qed.

Lemma find_original_spec (F : Prop) nodes id :
  hoare I (fun _ => F) (find_original nodes id) (fun _ _ => F).
Proof.
  induction nodes as [|l r IH]; simpl.
  - apply hoare_ret. auto.
  - eapply hoare_bind; [apply hoare_read_node|]. intros o.
    destruct (String.eqb _ _).
    + apply hoare_ret. intros w _ (HF & _). exact HF.
    + eapply hoare_conseq; [apply IH| |]; [intros w _ (HF & _); exact HF|intros ? ? Hq; exact Hq].
Qed.

Lemma node_click_spec i : hoare I (fun _ => True) (node_click sc i) (fun _ _ => True).
Proof.
  unfold node_click. eapply hoare_bind; [apply circle_at_spec|]. intros c.
  eapply hoare_bind with (R := fun _ _ => True); [|intros _; apply hoare_ret; auto].
  destruct (sc_cb sc); [|apply hoare_ret; auto].
  eapply hoare_bind; [apply hoare_read_node|]. intros o.
  eapply hoare_bind with (R := fun _ _ => True).
  { eapply hoare_conseq; [apply (find_original_spec True)|intros; exact Logic.I|intros ? ? Hq; exact Hq]. }
  intros [n|]; [apply call_spec|apply hoare_ret; auto].
Qed.

Lemma bg_click_spec t : hoare I (fun _ => True) (bg_click t) (fun _ _ => True).
Proof.
  unfold bg_click. eapply hoare_bind; [apply get_spec|]. intros w'.
  eapply hoare_bind with (R := fun _ _ => True); [|intros _; apply hoare_ret; auto].
  destruct (sf_bg_click (w_surf w')) as [[]|]; try (apply hoare_ret; auto).
  destruct (String.eqb _ _); [|apply hoare_ret; auto].
  eapply hoare_conseq; [apply (call_spec True)|intros; exact Logic.I|intros ? ? Hq; exact Hq].
Qed.

Lemma click_spec t : hoare I (fun _ => True) (click sc t) (fun _ _ => True).
Proof.
  unfold click. generalize (propagation_path t) as path.
  induction path as [|cur r IH]; simpl; [apply hoare_ret; auto|].
  destruct cur; simpl; try exact IH.
  - eapply hoare_bind with (R := fun _ _ => True); [apply node_click_spec|].
    intros [|]; [apply hoare_ret; auto|exact IH].
  - eapply hoare_bind with (R := fun _ _ => True); [apply bg_click_spec|].
    intros [|]; [apply hoare_ret; auto|exact IH].
Qed.

Lemma mouseover_spec i : hoare I (fun _ => True) (mouseover sc i) (fun _ _ => True).
Proof.
  unfold mouseover. eapply hoare_bind; [apply circle_at_spec|]. intros c.
  eapply hoare_bind; [apply hoare_read_node|]. intros o.
  eapply hoare_bind; [eapply hoare_conseq; [apply (set_circle_spec True)| |]|].
  { intros w _ ((_ & _ & _ & _ & g & Hg & Hc) & _ & _). split; [exact Logic.I|].
    intros g' c0 Hg' Hc0. simpl. congruence. }
  { intros ? ? Hq; exact Hq. }
  intros ?. eapply hoare_bind; [apply get_graph_spec|]. intros g.
  eapply hoare_bind with (R := fun _ _ => True).
  { eapply hoare_conseq; [apply (mapW_read_spec True)|intros; exact Logic.I|intros ? ? Hq; exact Hq].
    intros x. eapply hoare_bind; [apply hoare_read_link|]. intros lk. apply hoare_ret. auto. }
  intros lines. eapply hoare_bind; [apply (mapW_read_spec True)|].
  { intros x. eapply hoare_bind; [apply hoare_read_link|]. intros lk. apply hoare_ret. auto. }
  intros texts. eapply hoare_bind; [apply set_links_visual_spec|]. intros ?.
  destruct (sc_variant sc); [apply hoare_ret; auto|apply update_tooltips_spec].
Qed.

Lemma mouseout_spec i : hoare I (fun _ => True) (mouseout sc i) (fun _ _ => True).
Proof.
  unfold mouseout. eapply hoare_bind; [apply circle_at_spec|]. intros c.
  eapply hoare_bind; [apply hoare_read_node|]. intros o.
  eapply hoare_bind; [eapply hoare_conseq; [apply (set_circle_spec True)| |]|].
  { intros w _ ((_ & _ & _ & _ & g & Hg & Hc) & _ & _). split; [exact Logic.I|].
    intros g' c0 Hg' Hc0. simpl. congruence. }
  { intros ? ? Hq; exact Hq. }
  intros ?. eapply hoare_bind; [apply get_graph_spec|]. intros g.
  eapply hoare_bind with (R := fun _ _ => True).
  { eapply hoare_conseq; [apply (set_links_visual_spec True)|intros; exact Logic.I|intros ? ? Hq; exact Hq]. }
  intros ?. destruct (sc_variant sc); [apply hoare_ret; auto|apply update_tooltips_spec].
Qed.

Lemma mousemove_spec W H px py : hoare I (fun _ => True) (mousemove sc W H px py) (fun _ _ => True).
Proof.
  unfold mousemove. destruct (sc_variant sc); [apply hoare_ret; auto|apply update_tooltips_spec].
Qed.

Lemma node_update_spec (g : NodeObj -> NodeObj) l :
  (forall o, no_data (g o) = no_data o) -> l ∈ sc_nodesData sc ->
  hoare I (fun _ => True) (o ← read_node l; write l (ONode (g o))) (fun _ _ => True).
Proof.
  intros Hg Hl. eapply hoare_bind; [apply hoare_read_node|]. intros o.
  eapply hoare_conseq; [apply (write_node_spec True)| |intros ? ? Hq; exact Hq].
  intros w _ (_ & HI & Ho). split; [exact Logic.I|]. split.
  - eapply inv_in_nodesData; eauto.
  - exists o. auto.
Qed.

Lemma integrate_data o : no_data (integrate o) = no_data o.
Proof.
  unfold integrate. destruct (no_fx o), (no_fy o); reflexivity.
Qed.

Lemma link_force_spec imp k l :
  l ∈ sc_linksData sc -> hoare I (fun _ => True) (link_force imp k l) (fun _ _ => True).
Proof.
  intros Hl. unfold link_force. eapply hoare_bind; [apply hoare_read_link|]. intros lk.
  destruct (lo_source lk) as [?|s] eqn:Es; [apply hoare_throw|].
  destruct (lo_target lk) as [?|t] eqn:Et; [apply hoare_throw|].
  destruct (default _ (imp !! k)) as [it is].
  eapply hoare_conseq with (P' := fun _ => (lo <= s)%nat /\ (lo <= t)%nat).
  2:{ intros w _ (_ & HI & Hlk).
      assert (Hlo : (lo <= l)%nat).
      { eapply Forall_forall; [apply (si_linksData _ _ _ _ HI)|exact Hl]. }
      destruct (si_links _ _ _ _ HI l lk Hlo Hlk) as [H1 H2].
      rewrite Es in H1. rewrite Et in H2. simpl in *. auto. }
  2:{ intros ? ? Hq; exact Hq. }
  eapply hoare_bind; [apply hoare_read_node|]. intros ot.
  eapply hoare_bind.
  { eapply hoare_conseq; [apply (write_node_spec ((lo <= s)%nat))| |intros ? ? Hq; exact Hq].
    intros w _ ([Hs Ht] & _ & Hot). split; [exact Hs|]. split; [exact Ht|]. exists ot. auto. }
  intros u. eapply hoare_bind; [apply hoare_read_node|]. intros os.
  eapply hoare_conseq; [apply (write_node_spec True)| |intros ? ? Hq; exact Hq].
  intros w _ (Hs & _ & Hos). split; [exact Logic.I|]. split; [exact Hs|]. exists os. auto.
Qed.

Lemma tick_spec imp sh dv : hoare I (fun _ => True) (tick sc imp sh dv) (fun _ _ => True).
Proof.
  unfold tick.
  eapply hoare_bind; [apply hoare_iterW; intros; apply link_force_spec; auto|]. intros u1.
  eapply hoare_bind; [apply hoare_iterW; intros; apply node_update_spec; auto|]. intros u2.
  eapply hoare_bind; [apply hoare_iterW; intros; apply node_update_spec; auto|]. intros u3.
  apply hoare_iterW; intros; apply node_update_spec; auto using integrate_data.
Qed.

Lemma gesture_lookup_without gs gid k :
  gesture_lookup (without gid gs) k = if Nat.eqb k gid then None else gesture_lookup gs k.
Proof.
  induction gs as [|[k' g] gs IH]; simpl.
  - destruct (Nat.eqb k gid); reflexivity.
  - destruct (Nat.eqb k' gid) eqn:E1; simpl.
    + apply Nat.eqb_eq in E1. subst k'. rewrite IH.
      destruct (Nat.eqb gid k) eqn:E2, (Nat.eqb k gid) eqn:E3; auto;
        apply Nat.eqb_eq in E2 || apply Nat.eqb_eq in E3; subst;
        rewrite Nat.eqb_refl in *; discriminate.
    + rewrite IH. destruct (Nat.eqb k' k) eqn:E2; auto.
      apply Nat.eqb_eq in E2. subst k'. rewrite E1. reflexivity.
Qed.

Lemma dragstart_spec gid i px py :
  hoare I (fun _ => True) (dragstart sc gid i px py) (fun _ _ => True).
Proof.
  unfold dragstart. eapply hoare_bind; [apply circle_at_spec|]. intros c.
  eapply hoare_bind; [apply hoare_read_node|]. intros o.
  eapply hoare_bind; [apply get_spec|]. intros w'.
  eapply hoare_bind with (R := fun _ _ => (lo <= c_datum c)%nat).
  { apply hoare_modify. intros w HI (-> & ((_ & _ & Hin & Hlo & _) & _) & _). split; [|exact Hlo].
    apply inv_drag; [exact HI|]. intros k s dx dy. unfold gesture_of. simpl.
    destruct (Nat.eqb gid k) eqn:E.
    - intros Hk. injection Hk as <- _ _. exact Hin.
    - rewrite gesture_lookup_without. destruct (Nat.eqb k gid) eqn:E'.
      + discriminate.
      + apply (si_gestures _ _ _ _ HI). }
  intros u. eapply hoare_bind with (R := fun _ _ => (lo <= c_datum c)%nat).
  { destruct (Nat.eqb _ 0); [apply set_alpha_target_spec|apply hoare_ret; auto]. }
  intros u'. eapply hoare_bind; [apply hoare_read_node|]. intros o'.
  eapply hoare_conseq; [apply (set_pin_spec True)| |intros ? ? Hq; exact Hq].
  intros w _ (Hlo & _). auto.
Qed.

Lemma dragmove_spec gid px py :
  hoare I (fun _ => True) (dragmove gid px py) (fun _ _ => True).
Proof.
  unfold dragmove. eapply hoare_bind; [apply get_spec|]. intros w'.
  destruct (gesture_of (w_drag w') gid) as [[[s dx] dy]|] eqn:E; [|apply hoare_ret; auto].
  eapply hoare_conseq; [apply (set_pin_spec True)| |intros ? ? Hq; exact Hq].
  intros w _ (-> & _ & HI). split; [exact Logic.I|].
  eapply inv_in_nodesData; [exact HI|]. eapply (si_gestures _ _ _ _ HI). exact E.
Qed.

Lemma dragend_spec gid : hoare I (fun _ => True) (dragend sc gid) (fun _ _ => True).
Proof.
  unfold dragend. eapply hoare_bind; [apply get_spec|]. intros w'.
  destruct (gesture_of (w_drag w') gid) as [[[s dx] dy]|] eqn:E; [|apply hoare_ret; auto].
  eapply hoare_bind with (R := fun _ _ => (lo <= s)%nat).
  { apply hoare_modify. intros w HI (-> & _ & _).
    assert (Hs : s ∈ sc_nodesData sc) by (eapply (si_gestures _ _ _ _ HI); exact E).
    split; [|eapply inv_in_nodesData; eauto].
    apply inv_drag; [exact HI|]. intros k s' dx' dy'. unfold gesture_of. simpl.
    rewrite gesture_lookup_without. destruct (Nat.eqb k gid); [discriminate|].
    apply (si_gestures _ _ _ _ HI). }
  intros u. eapply hoare_bind with (R := fun _ _ => (lo <= s)%nat).
  { destruct (Nat.eqb _ 0); [apply set_alpha_target_spec|apply hoare_ret; auto]. }
  intros u'. destruct (sc_variant sc); [|apply hoare_ret; auto].
  eapply hoare_conseq; [apply (set_pin_spec True)| |intros ? ? Hq; exact Hq]. intros; split; auto.
Qed.

Lemma step_inv op w : I w -> I (snd (step sc op w)).
Proof.
  intros HI.
  assert (H : hoare I (fun _ => True) (step sc op) (fun _ _ => True)).
  { destruct op; simpl.
    - apply tick_spec.
    - apply dragstart_spec.
    - apply dragmove_spec.
    - apply dragend_spec.
    - apply mouseover_spec.
    - apply mousemove_spec.
    - apply mouseout_spec.
    - apply click_spec. }
  exact (proj1 (H w HI Logic.I)).
Qed.

Lemma run_inv ops w : I w -> I (run sc ops w).
Proof.
  revert w. induction ops as [|op ops IH]; intros w HI; simpl; [exact HI|].
  apply IH. apply step_inv. exact HI.
Qed.
End SceneHandlers.

(** ** Initialisation *)

Lemma set_heap_twice h n h' n' w : set_heap h' n' (set_heap h n w) = set_heap h' n' w.
Proof. reflexivity. Qed.

Lemma heap_only_ret {A} (a : A) : heap_only (mret a).
Proof. intros [h n s si d c]. exists h, n. reflexivity. Qed.

Lemma heap_only_bind {A B} (m : M A) (f : A -> M B) :
  heap_only m -> (forall a, heap_only (f a)) -> heap_only (m ≫= f).
Proof.
  intros Hm Hf w. unfold mbind, M_bind. destruct (Hm w) as (h & n & Hw).
  destruct (m w) as [[a|e] w'] eqn:E; simpl in *; subst w'.
  - destruct (Hf a (set_heap h n w)) as (h' & n' & ->). exists h', n'. reflexivity.
  - exists h, n. reflexivity.
Qed.

Lemma heap_only_throw {A} msg : heap_only (throw (A := A) msg).
Proof. intros [h n s si d c]. exists h, n. reflexivity. Qed.

Lemma heap_only_read_node l : heap_only (read_node l).
Proof.
  intros [h n s si d c]. exists h, n. unfold read_node. simpl.
  destruct (h !! l) as [[]|]; reflexivity.
Qed.

Lemma heap_only_read_link l : heap_only (read_link l).
Proof.
  intros [h n s si d c]. exists h, n. unfold read_link. simpl.
  destruct (h !! l) as [[]|]; reflexivity.
Qed.

Lemma heap_only_write l o : heap_only (write l o).
Proof. intros w. eexists _, _. reflexivity. Qed.

Lemma heap_only_alloc o : heap_only (alloc o).
Proof. intros w. eexists _, _. reflexivity. Qed.

Lemma heap_only_mapW {A B} (f : A -> M B) l :
  (forall x, heap_only (f x)) -> heap_only (mapW f l).
Proof.
  intros Hf. induction l as [|x r IH]; simpl.
  - apply heap_only_ret.
  - apply heap_only_bind; [apply Hf|]. intros y.
    apply heap_only_bind; [exact IH|]. intros ys. apply heap_only_ret.
Qed.

Lemma heap_only_iterW {A} (f : nat -> A -> M unit) i l :
  (forall j x, heap_only (f j x)) -> heap_only (iterW f i l).
Proof.
  intros Hf. revert i. induction l as [|x r IH]; intros i; simpl.
  - apply heap_only_ret.
  - apply heap_only_bind; [apply Hf|]. intros _. apply IH.
Qed.

Create HintDb heaponly.
#[local] Hint Resolve heap_only_ret heap_only_bind heap_only_throw heap_only_read_node
  heap_only_read_link heap_only_write heap_only_alloc heap_only_mapW heap_only_iterW : heaponly.

Lemma hoare_frame {A} I P (m : M A) Q E :
  heap_only m -> heap_blind E -> hoare I P m Q ->
  hoare I (fun w => P w /\ E w) m (fun a w => Q a w /\ E w).
Proof.
  intros Hm HE H w HI [HP HEw]. destruct (H w HI HP) as [HI' HQ].
  destruct (Hm w) as (h & n & Hw). split; [exact HI'|].
  intros a Ha. split; [auto|]. rewrite Hw. apply HE. exact HEw.
Qed.

Lemma hoare_inv_frame {A} I F P (m : M A) Q :
  heap_only m -> heap_blind F -> hoare I P m Q ->
  hoare (fun w => I w /\ F w) P m Q.
Proof.
  intros Hm HF H w [HI HFw] HP. destruct (H w HI HP) as [HI' HQ].
  destruct (Hm w) as (h & n & Hw). split; [|exact HQ].
  split; [exact HI'|]. rewrite Hw. apply HF. exact HFw.
Qed.

Lemma hoare_use {A} I P (m : M A) Q w (G : Res A * World -> Prop) :
  hoare I P m Q -> I w -> P w ->
  (I (snd (m w)) -> (forall a, fst (m w) = Ok a -> Q a (snd (m w))) -> G (m w)) -> G (m w).
Proof. intros H HI HP HG. destruct (H w HI HP). auto. Qed.

Lemma modify_seq {B} f (k : M B) w : (modify f;; k) w = k (f w).
Proof. reflexivity. Qed.

Lemma hoare_iterW_miss {A} I (J : World -> Prop) (f : nat -> A -> M unit) (l : list A) x i :
  (forall j y, y ∈ l -> hoare I J (f j y) (fun _ w => J w /\ y <> x)) -> x ∈ l ->
  hoare I J (iterW f i l) (fun _ _ => False).
Proof.
  revert i. induction l as [|y r IH]; intros i Hf Hx; [inversion Hx|]. simpl.
  eapply hoare_bind; [apply Hf; left|]. intros [].
  apply elem_of_cons in Hx. destruct Hx as [->|Hx].
  - intros w _ [_ Hn]. congruence.
  - eapply hoare_conseq; [apply (IH (S i))| |intros ? ? Hq; exact Hq].
    + intros j z Hz. apply Hf. right. exact Hz.
    + exact Hx.
    + intros w _ [HJ _]. exact HJ.
Qed.

Lemma Forall_elem {A} (P : A -> Prop) l x : Forall P l -> x ∈ l -> P x.
Proof. intros H Hx. eapply Forall_forall; eauto. Qed.

Lemma hoare_pure {A} I P (F : Prop) (m : M A) Q :
  (F -> hoare I P m Q) -> hoare I (fun w => P w /\ F) m Q.
Proof. intros H w HI [HP HF]. exact (H HF w HI HP). Qed.

Lemma Forall2_split {A B} (R : A -> B -> Prop) (S : B -> Prop) l l' :
  Forall2 (fun x y => R x y /\ S y) l l' -> Forall2 (fun y x => R x y) l' l /\ Forall S l'.
Proof.
  induction 1 as [|x y l l' [Hr Hs] _ [IH1 IH2]]; split; constructor; auto.
Qed.

Lemma Forall2_fmap_eq {A B} (f : B -> A) l l' : Forall2 (fun x y => f y = x) l l' -> f <$> l' = l.
Proof. induction 1; simpl; f_equal; auto. Qed.

Lemma node_by_id_lookup objs id l :
  node_by_id objs !! id = Some l -> exists p, p ∈ objs /\ p.1 = l /\ n_id (no_data p.2) = id.
Proof.
  unfold node_by_id.
  assert (Hgen : forall (m0 : gmap string loc),
    fold_left (fun m lo => <[n_id (no_data lo.2) := lo.1]> m) objs m0 !! id = Some l ->
    m0 !! id = Some l \/ exists p, p ∈ objs /\ p.1 = l /\ n_id (no_data p.2) = id).
  { induction objs as [|p r IH]; intros m0 H; simpl in H; [auto|].
    destruct (IH _ H) as [Hm|(q & Hq & Hq1 & Hq2)].
    - destruct (decide (n_id (no_data p.2) = id)) as [<-|Hne].
      + rewrite lookup_insert_eq in Hm. injection Hm as <-. right. exists p.
        split; [left|]; auto.
      + rewrite lookup_insert_ne in Hm by exact Hne. auto.
    - right. exists q. split; [right; exact Hq|]. auto. }
  intros H. destruct (Hgen ∅ H) as [Hm|Hp]; [rewrite lookup_empty in Hm; discriminate|exact Hp].
Qed.

Lemma hoare_false {A} I (m : M A) Q : hoare I (fun _ => False) m Q.
Proof. intros w _ []. Qed.

Lemma hoare_exists {A X} I (P : X -> World -> Prop) (m : M A) Q :
  (forall x, hoare I (P x) m Q) -> hoare I (fun w => exists x, P x w) m Q.
Proof. intros H w HI [x Hx]. exact (H x w HI Hx). Qed.

Lemma heap_only_copy_node l : heap_only (copy_node l).
Proof. unfold copy_node. eauto with heaponly. Qed.

Lemma heap_only_copy_link l : heap_only (copy_link l).
Proof. unfold copy_link. eauto with heaponly. Qed.

Lemma heap_only_init_node place i l : heap_only (init_node place i l).
Proof.
  unfold init_node. apply heap_only_bind; [apply heap_only_read_node|]. intros o.
  repeat match goal with |- context [match ?e with pair _ _ => _ end] => destruct e end.
  apply heap_only_write.
Qed.

Lemma heap_only_resolve_ep m e : heap_only (resolve_ep m e).
Proof.
  destruct e as [id|r]; simpl; [|apply heap_only_ret].
  unfold find_node. destruct (m !! id); auto with heaponly.
Qed.

Lemma heap_only_resolve_link m i x : heap_only (resolve_link m i x).
Proof.
  unfold resolve_link.
  apply heap_only_bind; [apply heap_only_read_link|intros o].
  apply heap_only_bind; [apply heap_only_write|intros _].
  apply heap_only_bind; [apply heap_only_resolve_ep|intros s].
  apply heap_only_bind; [apply heap_only_write|intros _].
  apply heap_only_bind; [apply heap_only_resolve_ep|intros t].
  apply heap_only_write.
Qed.

Lemma heap_only_init_links nD lD : heap_only (init_links nD lD).
Proof.
  unfold init_links. apply heap_only_bind.
  - apply heap_only_mapW. intros l. unfold read_with_loc. eauto with heaponly.
  - intros objs. apply heap_only_iterW. intros. apply heap_only_resolve_link.
Qed.

Lemma objs_ids w0 w nD nodes objs id :
  Forall2 (fun l p => p.1 = l /\ w_heap w !! l = Some (ONode p.2)) nD objs ->
  Forall2 (corr w0 w) nD nodes ->
  Forall (fun l => forall o, w_heap w0 !! l = Some (ONode o) -> n_id (no_data o) <> id) nodes ->
  Forall (fun p => n_id (no_data p.2) <> id) objs.
Proof.
  intros H. revert nodes. induction H as [|l p nD objs [Hp Hl] _ IH]; intros nodes Hc Hn; [constructor|].
  inversion Hc as [|? l' ? nodes' Hc1 Hc2]; subst. inversion Hn; subst.
  constructor; [|eapply IH; eauto].
  destruct Hc1 as (o & o' & Ho & Ho' & Hd). rewrite Hl in Ho. injection Ho as <-.
  rewrite Hd. auto.
Qed.

Section InitSpecs.
Variables (lo : nat) (w0 : World).
Local Notation II := (init_inv lo w0).

Lemma ii_set_surf w s : II w -> II (set_surf s w).
Proof. intros []; split; simpl; auto. Qed.

Lemma ii_set_sim w s : II w -> II (set_sim s w).
Proof. intros []; split; simpl; auto. Qed.

Lemma ii_some_lt w l x : II w -> w_heap w !! l = Some x -> (l < w_next w)%nat.
Proof.
  intros HI Hl. destruct (le_lt_dec (w_next w) l) as [Hle|Hlt]; [|exact Hlt].
  rewrite (ii_fresh _ _ _ HI l Hle) in Hl. discriminate.
Qed.

Lemma ii_alloc w o :
  II w -> (forall oL, o = OLink oL -> ep_ok lo (lo_source oL) /\ ep_ok lo (lo_target oL)) ->
  II (alloc_w o w).
Proof.
  intros HI Ho. destruct HI as [Hn Hf Hfr Hl Hd].
  split; cbn [alloc_w set_heap w_heap w_next w_drag].
  - lia.
  - intros l Hl'. rewrite lookup_insert_ne by lia. auto.
  - intros l Hl'. rewrite lookup_insert_ne by lia. apply Hfr. lia.
  - intros l oL Hlo Hlk. cbn [alloc_w set_heap w_heap] in Hlk.
    destruct (decide (l = w_next w)) as [->|Hne].
    + rewrite lookup_insert_eq in Hlk. injection Hlk as Hlk. auto.
    + rewrite lookup_insert_ne in Hlk by congruence. eauto.
  - exact Hd.
Qed.

Lemma ii_write w l o1 o :
  II w -> (lo <= l)%nat -> w_heap w !! l = Some o1 ->
  (forall oL, o = OLink oL -> ep_ok lo (lo_source oL) /\ ep_ok lo (lo_target oL)) ->
  II (write_w l o w).
Proof.
  intros HI Hlo Hl1 Ho. pose proof (ii_some_lt w l o1 HI Hl1) as Hlt.
  destruct HI as [Hn Hf Hfr Hl Hd].
  split; cbn [write_w set_heap w_heap w_next w_drag].
  - exact Hn.
  - intros l' Hl'. rewrite lookup_insert_ne by lia. auto.
  - intros l' Hl'. rewrite lookup_insert_ne by lia. apply Hfr. lia.
  - intros l' oL Hlo' Hlk. cbn [write_w set_heap w_heap] in Hlk.
    destruct (decide (l' = l)) as [->|Hne].
    + rewrite lookup_insert_eq in Hlk. injection Hlk as Hlk. auto.
    + rewrite lookup_insert_ne in Hlk by congruence. eauto.
  - exact Hd.
Qed.

Lemma corr_alloc w o a b : II w -> corr w0 w a b -> corr w0 (alloc_w o w) a b.
Proof.
  intros HI (o1 & o2 & H1 & H2 & H3). pose proof (ii_some_lt w a _ HI H1).
  exists o1, o2. cbn [alloc_w set_heap w_heap]. rewrite lookup_insert_ne by lia. auto.
Qed.

Lemma link_copy_alloc w o a b : II w -> link_copy w0 w a b -> link_copy w0 (alloc_w o w) a b.
Proof.
  intros HI (o1 & H1 & H2). pose proof (ii_some_lt w a _ HI H1).
  exists o1. cbn [alloc_w set_heap w_heap]. rewrite lookup_insert_ne by lia. auto.
Qed.

Lemma link_copy_write_node w l o1 o2 a b :
  w_heap w !! l = Some (ONode o1) -> link_copy w0 w a b -> link_copy w0 (write_w l (ONode o2) w) a b.
Proof.
  intros Hl (o & H1 & H2). exists o. cbn [write_w set_heap w_heap].
  rewrite lookup_insert_ne; [auto|]. intros ->. congruence.
Qed.

Lemma corr_write_link w l o1 o2 a b :
  w_heap w !! l = Some (OLink o1) -> corr w0 w a b -> corr w0 (write_w l (OLink o2) w) a b.
Proof.
  intros Hl (o & o' & H1 & H2 & H3). exists o, o'. cbn [write_w set_heap w_heap].
  rewrite lookup_insert_ne; [auto|]. intros ->. congruence.
Qed.

Lemma ep_is_id_ok e : ep_is_id e -> ep_ok lo e.
Proof. destruct e; simpl; tauto. Qed.

Lemma copy_node_spec (K : World -> Prop) l :
  (forall w o, II w -> K w -> K (alloc_w o w)) -> (l < lo)%nat ->
  hoare II K (copy_node l) (fun y w => K w /\ corr w0 w y l /\ (lo <= y)%nat).
Proof.
  intros HK Hl. unfold copy_node. eapply hoare_bind; [apply hoare_read_node|]. intros o.
  apply hoare_alloc. intros w HI (HKw & _ & Ho).
  split; [apply ii_alloc; [exact HI|intros; discriminate]|].
  split; [apply HK; auto|]. split.
  - exists o, o. cbn [alloc_w set_heap w_heap]. rewrite lookup_insert_eq.
    rewrite <- (ii_frame _ _ _ HI l Hl). auto.
  - apply (ii_next _ _ _ HI).
Qed.

Lemma copy_link_spec (K : World -> Prop) l :
  (forall w o, II w -> K w -> K (alloc_w o w)) -> (l < lo)%nat ->
  (forall o, w_heap w0 !! l = Some (OLink o) -> ep_is_id (lo_source o) /\ ep_is_id (lo_target o)) ->
  hoare II K (copy_link l) (fun y w => K w /\ link_copy w0 w y l /\ (lo <= y)%nat).
Proof.
  intros HK Hl Hid. unfold copy_link. eapply hoare_bind; [apply hoare_read_link|]. intros o.
  apply hoare_alloc. intros w HI (HKw & _ & Ho).
  rewrite (ii_frame _ _ _ HI l Hl) in Ho.
  split.
  { apply ii_alloc; [exact HI|]. intros oL HoL. injection HoL as <-.
    destruct (Hid o Ho). split; apply ep_is_id_ok; auto. }
  split; [apply HK; auto|]. split.
  - exists o. cbn [alloc_w set_heap w_heap]. rewrite lookup_insert_eq. auto.
  - apply (ii_next _ _ _ HI).
Qed.

Lemma init_node_spec place (K : World -> Prop) i x :
  (forall w l o1 o2, II w -> w_heap w !! l = Some (ONode o1) -> no_data o2 = no_data o1 ->
     K w -> K (write_w l (ONode o2) w)) ->
  (lo <= x)%nat -> hoare II K (init_node place i x) (fun _ => K).
Proof.
  intros HK Hx. unfold init_node. eapply hoare_bind; [apply hoare_read_node|]. intros o.
  repeat match goal with |- context [match ?e with pair _ _ => _ end] => destruct e end.
  apply hoare_write. intros w HI (HKw & _ & Ho). split.
  - eapply ii_write; eauto. intros; discriminate.
  - eapply HK; eauto.
Qed.

Lemma resolve_ep_spec (P : World -> Prop) m e :
  (forall id l, m !! id = Some l -> (lo <= l)%nat) ->
  hoare II (fun w => P w /\ ep_ok lo e) (resolve_ep m e) (fun s w => P w /\ (lo <= s)%nat).
Proof.
  intros Hm. destruct e as [id|r]; simpl.
  - unfold find_node. destruct (m !! id) as [l|] eqn:E.
    + apply hoare_ret. intros w _ [HP _]. eauto.
    + apply hoare_throw.
  - apply hoare_ret. intros w _ [HP He]. auto.
Qed.

Lemma resolve_link_spec (K : World -> Prop) m i x :
  (forall w o1 o2, II w -> w_heap w !! x = Some (OLink o1) -> K w -> K (write_w x (OLink o2) w)) ->
  (forall id l, m !! id = Some l -> (lo <= l)%nat) -> (lo <= x)%nat ->
  hoare II K (resolve_link m i x) (fun _ => K).
Proof.
  intros HK Hm Hx. unfold resolve_link. eapply hoare_bind; [apply hoare_read_link|]. intros o.
  eapply hoare_bind with (R := fun _ w => K w /\ ep_ok lo (lo_source o) /\ ep_ok lo (lo_target o)
                                  /\ exists o1, w_heap w !! x = Some (OLink o1)).
  { apply hoare_write. intros w HI (HKw & _ & Ho).
    destruct (ii_links _ _ _ HI x o Hx Ho) as [E1 E2]. split.
    - eapply ii_write; eauto. intros oL HoL. injection HoL as <-. simpl. auto.
    - split; [eapply HK; eauto|]. split; [exact E1|]. split; [exact E2|].
      eexists. cbn [write_w set_heap w_heap]. apply lookup_insert_eq. }
  intros []. eapply hoare_bind.
  { eapply hoare_conseq;
      [apply (resolve_ep_spec (fun w => K w /\ ep_ok lo (lo_target o)
                 /\ exists o1, w_heap w !! x = Some (OLink o1)) m (lo_source o) Hm)
      | |intros ? ? Hq; exact Hq].
    intros w _ (HKw & E1 & E2 & Hx1). auto. }
  intros s.
  eapply hoare_bind with (R := fun _ w => K w /\ ep_ok lo (lo_target o) /\ (lo <= s)%nat
                                  /\ exists o1, w_heap w !! x = Some (OLink o1)).
  { apply hoare_write. intros w HI ((HKw & E2 & o1 & Hx1) & Hs). split.
    - eapply ii_write; eauto. intros oL HoL. injection HoL as <-. simpl. auto.
    - split; [eapply HK; eauto|]. split; [exact E2|]. split; [exact Hs|].
      eexists. cbn [write_w set_heap w_heap]. apply lookup_insert_eq. }
  intros []. eapply hoare_bind.
  { eapply hoare_conseq;
      [apply (resolve_ep_spec (fun w => K w /\ (lo <= s)%nat
                 /\ exists o1, w_heap w !! x = Some (OLink o1)) m (lo_target o) Hm)
      | |intros ? ? Hq; exact Hq].
    intros w _ (HKw & E2 & Hs & Hx1). auto. }
  intros t. apply hoare_write. intros w HI ((HKw & Hs & o1 & Hx1) & Ht). split.
  - eapply ii_write; eauto. intros oL HoL. injection HoL as <-. simpl. auto.
  - eapply HK; eauto.
Qed.

Lemma read_with_loc_spec (K : World -> Prop) l :
  hoare II K (read_with_loc l) (fun y w => K w /\ y.1 = l /\ w_heap w !! l = Some (ONode y.2)).
Proof.
  unfold read_with_loc. eapply hoare_bind; [apply hoare_read_node|]. intros o.
  apply hoare_ret. intros w _ (HK & _ & Ho). auto.
Qed.

Lemma read_with_loc_stable (K : World -> Prop) l :
  hoare II K (read_with_loc l) (fun _ => K).
Proof.
  eapply hoare_conseq; [apply read_with_loc_spec| |]; [intros ? ? H; exact H|].
  intros ? ? [H _]. exact H.
Qed.

Lemma resolve_link_fails m i x :
  (forall id l, m !! id = Some l -> (lo <= l)%nat) -> (lo <= x)%nat ->
  hoare II (fun w => exists o, w_heap w !! x = Some (OLink o) /\
              ((exists id, lo_source o = EpId id /\ m !! id = None) \/
               (exists id, lo_target o = EpId id /\ m !! id = None)))
    (resolve_link m i x) (fun _ _ => False).
Proof.
  intros Hm Hx. unfold resolve_link. eapply hoare_bind; [apply hoare_read_link|]. intros o.
  eapply hoare_conseq with (P' := fun w => w_heap w !! x = Some (OLink o) /\
      ((exists id, lo_source o = EpId id /\ m !! id = None) \/
       (exists id, lo_target o = EpId id /\ m !! id = None)));
    [|intros w _ ((o' & Ho' & Hb) & _ & Ho); rewrite Ho in Ho'; injection Ho' as <-; auto
     |intros ? ? Hq; exact Hq].
  apply hoare_pure. intros Hbad.
  eapply hoare_bind with (R := fun _ w => ep_ok lo (lo_source o) /\ ep_ok lo (lo_target o)
                                  /\ exists o1, w_heap w !! x = Some (OLink o1)).
  { apply hoare_write. intros w HI Ho.
    destruct (ii_links _ _ _ HI x o Hx Ho) as [E1 E2]. split.
    - eapply ii_write; eauto. intros oL HoL. injection HoL as <-. simpl. auto.
    - split; [exact E1|]. split; [exact E2|].
      eexists. cbn [write_w set_heap w_heap]. apply lookup_insert_eq. }
  intros [].
  destruct Hbad as [(id & Hs & Hid)|(id & Ht & Hid)].
  - rewrite Hs. unfold resolve_ep, find_node. rewrite Hid.
    eapply hoare_bind with (R := fun (_ : loc) _ => False); [apply hoare_throw|].
    intros ?. apply hoare_false.
  - eapply hoare_bind.
    { eapply hoare_conseq;
        [apply (resolve_ep_spec (fun w => ep_ok lo (lo_target o)
                   /\ exists o1, w_heap w !! x = Some (OLink o1)) m (lo_source o) Hm)
        | |intros ? ? Hq; exact Hq].
      intros w _ (E1 & E2 & Hx1). auto. }
    intros s. eapply hoare_bind with (R := fun _ (w : World) => True).
    { apply hoare_write. intros w HI ((E2 & o1 & Hx1) & Hs). split; [|exact Logic.I].
      eapply ii_write; eauto. intros oL HoL. injection HoL as <-. simpl. auto. }
    intros []. rewrite Ht. unfold resolve_ep, find_node. rewrite Hid.
    eapply hoare_bind with (R := fun (_ : loc) _ => False); [apply hoare_throw|].
    intros ?. apply hoare_false.
Qed.

End InitSpecs.

Lemma init_inv_start w0 : (forall l, (w_next w0 <= l)%nat -> w_heap w0 !! l = None) ->
  init_inv (w_next w0) w0 w0.
Proof.
  intros Hfr. split; auto.
  intros l o Hl Ho. rewrite (Hfr l Hl) in Ho. discriminate.
Qed.

(** A successful initialisation builds a scene of the caller's arrays and
    establishes the scene invariant. *)
Lemma Forall2_compose {A B C} (R1 : A -> B -> Prop) (R2 : A -> C -> Prop) (S : B -> C -> Prop)
    l1 l2 l3 :
  Forall2 R1 l1 l2 -> Forall2 R2 l1 l3 -> (forall a b c, R1 a b -> R2 a c -> S b c) ->
  Forall2 S l2 l3.
Proof.
  intros H1. revert l3. induction H1 as [|a b l1 l2 Hab _ IH]; intros l3 H2 HS;
    inversion H2; subst; constructor; eauto.
Qed.

Lemma init_built place v cb nodes links w0 sc w1 :
  input_ok w0 nodes links ->
  init place v cb nodes links w0 = (Ok (Built sc), w1) ->
  sc = mkScene v cb nodes (sc_nodesData sc) (sc_linksData sc) /\ scene_inv (w_next w0) w0 sc w1
  /\ exists g, the_graph (w_surf w1) = Some g /\ Forall2 (drawn w0) (g_circles g) nodes.
Proof.
  intros Hin Hinit.
  destruct nodes as [|n ns]; [simpl in Hinit; injection Hinit; discriminate|].
  pose proof (init_inv_start w0 (in_fresh _ _ _ Hin)) as HI0.
  set (lo := w_next w0) in *.
  set (E1 := fun w => sf_children (w_surf w) = [EG None] /\ sf_bg_click (w_surf w) = Some cb).
  set (E2 := fun w => sf_children (w_surf w) = [EG None; EDefs 1] /\ sf_bg_click (w_surf w) = Some cb).
  assert (H : hoare (init_inv lo w0) (fun w => w = w0) (init place v cb (n :: ns) links)
    (fun a w => forall sc, a = Built sc ->
       sc = mkScene v cb (n :: ns) (sc_nodesData sc) (sc_linksData sc) /\ scene_inv lo w0 sc w
       /\ exists g, the_graph (w_surf w) = Some g /\ Forall2 (drawn w0) (g_circles g) (n :: ns))).
  2:{ destruct (H w0 HI0 eq_refl) as [_ HQ]. rewrite Hinit in HQ. exact (HQ _ eq_refl sc eq_refl). }
  unfold init.
  eapply hoare_bind with (R := fun _ w => sf_children (w_surf w) = []).
  { unfold clear_surface. apply hoare_modify. intros w HI _.
    split; [apply ii_set_surf; exact HI|reflexivity]. }
  intros [].
  eapply hoare_bind with (R := fun _ w => sf_children (w_surf w) = [] /\ sf_bg_click (w_surf w) = Some cb).
  { unfold on_bg_click. apply hoare_modify. intros w HI Hc.
    split; [apply ii_set_surf; exact HI|split; [exact Hc|reflexivity]]. }
  intros [].
  eapply hoare_bind with (R := fun _ => E1).
  { unfold append_child. apply hoare_modify. intros w HI [Hc Hb].
    split; [apply ii_set_surf; exact HI|]. unfold E1. simpl. rewrite Hc, Hb. auto. }
  intros [].
  eapply hoare_bind with (R := fun _ => E1).
  { destruct v; [apply hoare_ret; auto|].
    unfold append_tooltip. apply hoare_modify. intros w HI HE.
    split; [apply ii_set_surf; exact HI|exact HE]. }
  intros [].
  eapply hoare_bind with (R := fun _ => E1).
  { unfold install_zoom. apply hoare_modify. intros w HI HE.
    split; [apply ii_set_surf; exact HI|exact HE]. }
  intros [].
  (* the working copies of the nodes *)
  eapply hoare_bind.
  { eapply (hoare_mapW _ copy_node (fun l y w => corr w0 w y l /\ (lo <= y)%nat)).
    - intros x Hx. apply copy_node_spec; [intros w o _ HE; exact HE|].
      exact (Forall_elem _ _ _ (in_nodes _ _ _ Hin) Hx).
    - intros x y x' Hx'.
      eapply hoare_conseq; [apply (copy_node_spec _ _ (fun w => E1 w /\ (corr w0 w y x /\ (lo <= y)%nat)))| |].
      + intros w o HI [HE [Hc Hl]]. split; [exact HE|]. split; [eapply corr_alloc; eauto|exact Hl].
      + exact (Forall_elem _ _ _ (in_nodes _ _ _ Hin) Hx').
      + intros w _ Hw. exact Hw.
      + intros ? ? [[_ Hq] _]. exact Hq. }
  intros nD.
  eapply hoare_conseq with
    (P' := fun w => (E1 w /\ Forall2 (corr w0 w) nD (n :: ns)) /\ Forall (fun l => (lo <= l)%nat) nD);
    [|intros w _ [HE HF]; apply Forall2_split in HF; destruct HF as [HF1 HF2];
      split; [split; [exact HE|exact HF1]|exact HF2]
     |intros ? ? Hq; exact Hq].
  apply hoare_pure. intros HnD.
  (* the working copies of the links *)
  eapply hoare_bind.
  { eapply (hoare_mapW _ copy_link (fun l y w => link_copy w0 w y l /\ (lo <= y)%nat)).
    - intros x Hx. apply copy_link_spec.
      + intros w o HI [HE Hc]. split; [exact HE|].
        eapply Forall2_impl; [exact Hc|]. intros. eapply corr_alloc; eauto.
      + exact (Forall_elem _ _ _ (in_links _ _ _ Hin) Hx).
      + exact (Forall_elem _ _ _ (in_ids _ _ _ Hin) Hx).
    - intros x y x' Hx'.
      eapply hoare_conseq; [apply (copy_link_spec _ _
          (fun w => (E1 w /\ Forall2 (corr w0 w) nD (n :: ns)) /\ (link_copy w0 w y x /\ (lo <= y)%nat)))| |].
      + intros w o HI [[HE Hc] [Hl Hy]]. split; [split; [exact HE|]|split; [|exact Hy]].
        * eapply Forall2_impl; [exact Hc|]. intros. eapply corr_alloc; eauto.
        * eapply link_copy_alloc; eauto.
      + exact (Forall_elem _ _ _ (in_links _ _ _ Hin) Hx').
      + exact (Forall_elem _ _ _ (in_ids _ _ _ Hin) Hx').
      + intros w _ Hw. exact Hw.
      + intros ? ? [[_ Hq] _]. exact Hq. }
  intros lD.
  eapply hoare_conseq with
    (P' := fun w => (E1 w /\ Forall2 (corr w0 w) nD (n :: ns)) /\ Forall (fun l => (lo <= l)%nat) lD);
    [|intros w _ [HE HF]; apply Forall2_split in HF; destruct HF as [_ HF2];
      split; [exact HE|exact HF2]
     |intros ? ? Hq; exact Hq].
  apply hoare_pure. intros HlD.
  (* initializeNodes *)
  eapply hoare_bind.
  { apply hoare_iterW. intros i x Hx. apply init_node_spec.
    - intros w l o1 o2 HI Hl Hd [HE Hc]. split; [exact HE|].
      eapply Forall2_impl; [exact Hc|]. intros. eapply corr_write; eauto.
    - exact (Forall_elem _ _ _ HnD Hx). }
  intros [].
  eapply hoare_bind with (R := fun _ w => E1 w /\ Forall2 (corr w0 w) nD (n :: ns)).
  { apply hoare_modify. intros w HI HJ. split; [apply ii_set_sim; exact HI|exact HJ]. }
  intros [].
  (* forceLink's initialize *)
  eapply hoare_bind.
  { unfold init_links. eapply hoare_bind.
    { eapply (hoare_mapW _ read_with_loc (fun l y (w : World) => y.1 = l)).
      - intros x _. eapply hoare_conseq; [apply read_with_loc_spec| |].
        + intros ? ? H; exact H.
        + intros ? ? (H1 & H2 & _). auto.
      - intros x y x' _. eapply hoare_conseq; [apply read_with_loc_stable| |].
        + intros ? ? H; exact H.
        + intros ? ? [_ H]; exact H. }
    intros objs.
    eapply hoare_conseq with
      (P' := fun w => (E1 w /\ Forall2 (corr w0 w) nD (n :: ns)) /\ fst <$> objs = nD);
      [|intros w _ [HJ HF]; split; [exact HJ|apply Forall2_fmap_eq; exact HF]
       |intros ? ? Hq; exact Hq].
    apply hoare_pure. intros Hobjs.
    apply hoare_iterW. intros i x Hx. apply resolve_link_spec.
    - intros w o1 o2 HI Hl [HE Hc]. split; [exact HE|].
      eapply Forall2_impl; [exact Hc|]. intros. eapply corr_write_link; eauto.
    - intros id l Hl. destruct (node_by_id_lookup _ _ _ Hl) as (p & Hp & <- & _).
      apply (Forall_elem _ _ _ HnD). rewrite <- Hobjs. apply list_elem_of_fmap_2. exact Hp.
    - exact (Forall_elem _ _ _ HlD Hx). }
  intros [].
  eapply hoare_bind with (R := fun _ w => E1 w /\ Forall2 (corr w0 w) nD (n :: ns)).
  { apply hoare_modify. intros w HI HJ. split; [apply ii_set_sim; exact HI|exact HJ]. }
  intros [].
  eapply hoare_bind with (R := fun _ w => E2 w /\ Forall2 (corr w0 w) nD (n :: ns)).
  { unfold append_child. apply hoare_modify. intros w HI [[Hc Hb] HF].
    split; [apply ii_set_surf; exact HI|]. unfold E2. simpl. rewrite Hc, Hb. auto. }
  intros [].
  (* the data joins *)
  eapply hoare_bind with (R := fun g w => (E2 w /\ Forall2 (corr w0 w) nD (n :: ns))
      /\ (c_datum <$> g_circles g = nD /\ Forall2 (drawn w0) (g_circles g) (n :: ns))).
  { unfold render. eapply hoare_bind.
    { eapply (hoare_mapW _ _ (fun l c (w : World) => c_datum c = l /\ exists o,
          w_heap w !! l = Some (ONode o) /\ c_r c = radius (no_data o) /\ c_fill c = fill (no_data o))).
      - intros x _. eapply hoare_bind; [apply hoare_read_node|]. intros o.
        apply hoare_ret. intros w _ (H & _ & Ho). split; [exact H|]. split; [reflexivity|].
        exists o. auto.
      - intros x y x' _. eapply hoare_bind; [apply hoare_read_node|]. intros o.
        apply hoare_ret. intros w _ ([_ H] & _). exact H. }
    intros circles. apply hoare_ret. intros w _ [[HJ Hc] HF]. split; [split; [exact HJ|exact Hc]|].
    simpl. split.
    - apply Forall2_fmap_eq. eapply Forall2_impl; [exact HF|]. intros ? ? [H _]. exact H.
    - eapply Forall2_compose; [exact HF|exact Hc|].
      intros a c b [_ (o & Ho & Hr & Hf)] (o1 & o2 & Ho1 & Ho2 & Hd).
      rewrite Ho in Ho1. injection Ho1 as <-. exists o2. rewrite <- Hd. auto. }
  intros g. apply hoare_pure. intros [Hg Hdr].
  eapply hoare_bind with (R := fun _ w => the_graph (w_surf w) = Some g
      /\ sf_bg_click (w_surf w) = Some cb /\ Forall2 (corr w0 w) nD (n :: ns)).
  { unfold fill_g. apply hoare_modify. intros w HI [[Hc Hb] HF].
    split; [apply ii_set_surf; exact HI|]. cbn [w_surf set_surf sf_children sf_bg_click].
    rewrite Hc. auto. }
  intros []. apply hoare_ret. intros w HI (Hgr & Hb & Hc) sc' Hsc. injection Hsc as <-.
  split; [reflexivity|]. split; [|exists g; split; [exact Hgr|exact Hdr]]. split; simpl.
  - apply (ii_next _ _ _ HI).
  - apply (ii_frame _ _ _ HI).
  - apply (ii_links _ _ _ HI).
  - exact HnD.
  - exact HlD.
  - apply (in_nodes _ _ _ Hin).
  - exists g. auto.
  - intros gid s dx dy Hs. unfold gesture_of in Hs.
    rewrite (ii_drag _ _ _ HI), (in_idle _ _ _ Hin) in Hs. discriminate.
  - exact Hc.
  - exact Hb.
Qed.

Lemma tooltip_seq {B} v (k : M B) w :
  ((match v with Tooltip _ => append_tooltip | Plain => mret tt end);; k) w
  = k (match v with Tooltip _ => snd (append_tooltip w) | Plain => w end).
Proof. destruct v; reflexivity. Qed.

(** C4 (amended): for a non-empty node set, if a link of the input has a
    source or target id that names none of the nodes, the initialisation
    throws ([node not found]) and the svg holds no graph. *)
Theorem init_dangling place v cb n ns links w0 lbad o0 id :
  input_ok w0 (n :: ns) links -> lbad ∈ links -> w_heap w0 !! lbad = Some (OLink o0) ->
  (lo_source o0 = EpId id \/ lo_target o0 = EpId id) ->
  Forall (fun l => forall o, w_heap w0 !! l = Some (ONode o) -> n_id (no_data o) <> id) (n :: ns) ->
  (exists e, fst (init place v cb (n :: ns) links w0) = Err e) /\
  the_graph (w_surf (snd (init place v cb (n :: ns) links w0))) = None.
Proof.
  intros Hin Hl Hl0 Hid Hnodes.
  pose proof (init_inv_start w0 (in_fresh _ _ _ Hin)) as HI0.
  apply list_elem_of_lookup_1 in Hl as [k Hk].
  set (lo := w_next w0) in *.
  set (I4 := fun w => init_inv lo w0 w /\ the_graph (w_surf w) = None).
  unfold init, clear_surface, on_bg_click, append_child, install_zoom.
  rewrite !modify_seq, tooltip_seq, modify_seq.
  match goal with |- context [fst (?m ?w)] =>
    apply (hoare_use I4 (fun _ => True) m (fun _ _ => False) w
             (fun r => (exists e, fst r = Err e) /\ the_graph (w_surf (snd r)) = None)) end.
  4:{ intros [_ HG] HQ. split; [|exact HG].
      match goal with |- exists e, fst ?r = Err e => destruct r as [[a|e] w'] end.
      - exfalso. exact (HQ a eq_refl).
      - exists e. reflexivity. }
  3:{ exact Logic.I. }
  2:{ destruct v; split; try reflexivity; repeat apply ii_set_surf; exact HI0. }
  (* the working copies of the nodes *)
  eapply hoare_bind.
  { apply hoare_inv_frame; [apply heap_only_mapW, heap_only_copy_node|intros ? ? ? H; exact H|].
    eapply (hoare_mapW _ copy_node (fun l y w => corr w0 w y l /\ (lo <= y)%nat)).
    - intros x Hx. apply copy_node_spec; [intros w o _ HE; exact HE|].
      exact (Forall_elem _ _ _ (in_nodes _ _ _ Hin) Hx).
    - intros x y x' Hx'.
      eapply hoare_conseq; [apply (copy_node_spec _ _ (fun w => True /\ (corr w0 w y x /\ (lo <= y)%nat)))| |].
      + intros w o HI [HE [Hc Hy]]. split; [exact HE|]. split; [eapply corr_alloc; eauto|exact Hy].
      + exact (Forall_elem _ _ _ (in_nodes _ _ _ Hin) Hx').
      + intros w _ Hw. exact Hw.
      + intros ? ? [[_ Hq] _]. exact Hq. }
  intros nD.
  eapply hoare_conseq with
    (P' := fun w => Forall2 (corr w0 w) nD (n :: ns) /\ Forall (fun l => (lo <= l)%nat) nD);
    [|intros w _ [_ HF]; apply Forall2_split in HF; destruct HF as [HF1 HF2]; split; [exact HF1|exact HF2]
     |intros ? ? Hq; exact Hq].
  apply hoare_pure. intros HnD.
  (* the working copies of the links *)
  eapply hoare_bind.
  { apply hoare_inv_frame; [apply heap_only_mapW, heap_only_copy_link|intros ? ? ? H; exact H|].
    eapply (hoare_mapW _ copy_link (fun l y w => link_copy w0 w y l /\ (lo <= y)%nat)).
    - intros x Hx. apply copy_link_spec.
      + intros w o HI Hc. eapply Forall2_impl; [exact Hc|]. intros. eapply corr_alloc; eauto.
      + exact (Forall_elem _ _ _ (in_links _ _ _ Hin) Hx).
      + exact (Forall_elem _ _ _ (in_ids _ _ _ Hin) Hx).
    - intros x y x' Hx'.
      eapply hoare_conseq; [apply (copy_link_spec _ _
          (fun w => Forall2 (corr w0 w) nD (n :: ns) /\ (link_copy w0 w y x /\ (lo <= y)%nat)))| |].
      + intros w o HI [Hc [Hcp Hy]]. split; [|split; [eapply link_copy_alloc; eauto|exact Hy]].
        eapply Forall2_impl; [exact Hc|]. intros. eapply corr_alloc; eauto.
      + exact (Forall_elem _ _ _ (in_links _ _ _ Hin) Hx').
      + exact (Forall_elem _ _ _ (in_ids _ _ _ Hin) Hx').
      + intros w _ Hw. exact Hw.
      + intros ? ? [[_ Hq] _]. exact Hq. }
  intros lD.
  eapply hoare_conseq with (P' := fun w => exists lc,
      (Forall2 (corr w0 w) nD (n :: ns) /\ link_copy w0 w lc lbad)
      /\ (Forall (fun l => (lo <= l)%nat) lD /\ lc ∈ lD));
    [|intros w _ [Hc HF];
      destruct (Forall2_lookup_l _ _ _ _ _ HF Hk) as (lc & Hlc & Hcp & _);
      exists lc; split; [split; [exact Hc|exact Hcp]|split];
      [apply Forall2_split in HF; destruct HF as [_ HF2]; exact HF2
      |eapply list_elem_of_lookup_2; exact Hlc]
     |intros ? ? Hq; exact Hq].
  apply hoare_exists. intros lc. apply hoare_pure. intros [HlD Hlc].
  (* initializeNodes *)
  eapply hoare_bind.
  { apply hoare_inv_frame;
      [apply heap_only_iterW; intros; apply heap_only_init_node|intros ? ? ? H; exact H|].
    apply hoare_iterW. intros i x Hx. apply init_node_spec.
    - intros w l o1 o2 HI Hl1 Hd [Hc Hcp]. split.
      + eapply Forall2_impl; [exact Hc|]. intros. eapply corr_write; eauto.
      + eapply link_copy_write_node; eauto.
    - exact (Forall_elem _ _ _ HnD Hx). }
  intros [].
  eapply hoare_bind with (R := fun _ w => Forall2 (corr w0 w) nD (n :: ns) /\ link_copy w0 w lc lbad).
  { apply hoare_modify. intros w [HI HG] HJ. split; [split; [apply ii_set_sim; exact HI|exact HG]|exact HJ]. }
  intros [].
  (* forceLink's initialize throws *)
  eapply hoare_bind with (R := fun _ _ => False).
  { apply hoare_inv_frame; [apply heap_only_init_links|intros ? ? ? H; exact H|].
    unfold init_links. eapply hoare_bind.
    { eapply (hoare_mapW _ read_with_loc (fun l p w => p.1 = l /\ w_heap w !! l = Some (ONode p.2))).
      - intros x _. apply read_with_loc_spec.
      - intros x y x' _. eapply hoare_conseq; [apply read_with_loc_stable| |].
        + intros ? ? H; exact H.
        + intros ? ? [_ H]; exact H. }
    intros objs. set (m := node_by_id objs).
    eapply hoare_conseq with (P' := fun w =>
        (exists o, w_heap w !! lc = Some (OLink o) /\
           ((exists id, lo_source o = EpId id /\ m !! id = None) \/
            (exists id, lo_target o = EpId id /\ m !! id = None)))
        /\ (forall id' l, m !! id' = Some l -> (lo <= l)%nat)).
    2:{ intros w _ [[Hc Hcp] HF].
        assert (Hids := objs_ids _ _ _ _ _ id HF Hc Hnodes).
        assert (Hfst : fst <$> objs = nD).
        { apply Forall2_fmap_eq. eapply Forall2_impl; [exact HF|]. intros ? ? [H _]. exact H. }
        split.
        - destruct Hcp as (o & Ho & Ho0). rewrite Hl0 in Ho0. injection Ho0 as <-.
          exists o0. split; [exact Ho|].
          assert (Hm : m !! id = None).
          { destruct (m !! id) as [l|] eqn:E; [|reflexivity].
            destruct (node_by_id_lookup _ _ _ E) as (p & Hp & _ & Hpid).
            exfalso. exact (Forall_elem _ _ _ Hids Hp Hpid). }
          destruct Hid as [Hs|Ht]; [left|right]; exists id; auto.
        - intros id' l Hl'. destruct (node_by_id_lookup _ _ _ Hl') as (p & Hp & <- & _).
          apply (Forall_elem _ _ _ HnD). rewrite <- Hfst. apply list_elem_of_fmap_2. exact Hp. }
    2:{ intros ? ? Hq; exact Hq. }
    apply hoare_pure. intros Hm.
    eapply (hoare_iterW_miss _ _ _ _ lc); [|exact Hlc].
    intros j y Hy. destruct (decide (y = lc)) as [->|Hne].
    - eapply hoare_conseq;
        [apply (resolve_link_fails _ _ m j lc Hm (Forall_elem _ _ _ HlD Hlc))
        |intros w _ H; exact H|intros ? ? []].
    - eapply hoare_conseq; [apply (resolve_link_spec _ _ _ m j y)|intros w _ H; exact H|].
      + intros w o1 o2 HI Hy1 (o & Ho & Hb). exists o. cbn [write_w set_heap w_heap].
        rewrite lookup_insert_ne by congruence. auto.
      + exact Hm.
      + exact (Forall_elem _ _ _ HlD Hy).
      + intros a w HJ. split; [exact HJ|exact Hne]. }
  intros []. apply hoare_false.
Qed.

(** ** Concrete inputs *)

Lemma heap_of_fresh k os l : (k + length os <= l)%nat -> heap_of k os !! l = None.
Proof.
  revert k. induction os as [|o r IH]; intros k Hl; cbn [heap_of length] in *.
  - apply lookup_empty.
  - rewrite lookup_insert_ne by lia. apply IH. lia.
Qed.

Lemma ex_input_ok : input_ok ex_world [0; 1; 2]%nat [3; 4]%nat.
Proof.
  split.
  - repeat constructor; cbv; lia.
  - repeat constructor; cbv; lia.
  - intros l Hl. exact (heap_of_fresh 0 ex_objs l Hl).
  - repeat apply Forall_cons_2; try apply Forall_nil_2;
      intros o Ho; vm_compute in Ho; injection Ho as <-; split; exact Logic.I.
  - reflexivity.
Qed.

Lemma bad_input_ok : input_ok bad_world [0]%nat [1]%nat.
Proof.
  split.
  - repeat constructor; cbv; lia.
  - repeat constructor; cbv; lia.
  - intros l Hl. exact (heap_of_fresh 0 _ l Hl).
  - repeat apply Forall_cons_2; try apply Forall_nil_2;
      intros o Ho; vm_compute in Ho; injection Ho as <-; split; exact Logic.I.
  - reflexivity.
Qed.

Lemma ex_init v :
  init origin v true [0; 1; 2]%nat [3; 4]%nat ex_world = (Ok (Built (ex_scene v)), ex_after_init v).
Proof.
  assert (Hf : fst (init origin v true [0; 1; 2]%nat [3; 4]%nat ex_world) = Ok (Built (ex_scene v)))
    by (destruct v as [|[]]; vm_compute; reflexivity).
  unfold ex_after_init. destruct (init origin v true [0; 1; 2]%nat [3; 4]%nat ex_world) as [r w].
  simpl in *. subst. reflexivity.
Qed.

(** ** Clicks *)

Lemma find_original_found nodes id w :
  Forall (fun l => exists o, w_heap w !! l = Some (ONode o)) nodes ->
  (exists l o, l ∈ nodes /\ w_heap w !! l = Some (ONode o) /\ n_id (no_data o) = id) ->
  exists n o, find_original nodes id w = (Ok (Some n), w) /\ n ∈ nodes
              /\ w_heap w !! n = Some (ONode o) /\ n_id (no_data o) = id.
Proof.
  induction nodes as [|a r IH]; intros HF (l & o & Hl & Ho & Hid).
  - inversion Hl.
  - inversion HF as [|? ? [oa Ha] HF']; subst.
    cbn [find_original]. unfold mbind, M_bind, read_node. rewrite Ha.
    destruct (String.eqb (n_id (no_data oa)) (n_id (no_data o))) eqn:E.
    + apply String.eqb_eq in E. exists a, oa. repeat split; auto. left.
    + destruct (IH HF') as (n & on & Hf & Hn & Hon & Hnid).
      * apply elem_of_cons in Hl as [->|Hl].
        -- rewrite Ha in Ho. injection Ho as ->. rewrite String.eqb_refl in E. discriminate.
        -- exists l, o. auto.
      * exists n, on. repeat split; auto. right. exact Hn.
Qed.

Lemma click_circle_eval sc w g i c d n :
  sc_cb sc = true -> the_graph (w_surf w) = Some g -> g_circles g !! i = Some c ->
  w_heap w !! c_datum c = Some (ONode d) ->
  find_original (sc_nodes sc) (n_id (no_data d)) w = (Ok (Some n), w) ->
  click sc (TCircle i) w = (Ok tt, set_calls (Some n :: w_calls w) w).
Proof.
  intros Hcb Hg Hc Hd Hf.
  unfold click, propagation_path, propagate, listener, node_click, circle_at, get_graph, get.
  unfold mbind, M_bind, mret, M_ret. rewrite Hg, Hc, Hcb.
  unfold read_node. rewrite Hd, Hf. reflexivity.
Qed.

Lemma click_svg_eval sc w :
  sf_bg_click (w_surf w) = Some true ->
  click sc TSvg w = (Ok tt, set_calls (None :: w_calls w) w).
Proof.
  intros Hb. unfold click, propagation_path, propagate, listener, bg_click, get.
  unfold mbind, M_bind, mret, M_ret. rewrite Hb. reflexivity.
Qed.

(** ** Zoom *)

Lemma clamp_k_bounds k : scale_lo <= clamp_k k <= scale_hi.
Proof.
  unfold clamp_k. split.
  - apply Q.le_max_l.
  - apply Q.max_lub; [unfold scale_lo, scale_hi; lra|apply Q.le_min_l].
Qed.

Lemma zoom_step_bounds s i :
  scale_lo <= t_k (zs_zoom s) <= scale_hi ->
  (forall t, zs_g s = Some t -> scale_lo <= t_k t <= scale_hi) ->
  scale_lo <= t_k (zs_zoom (zoom_step s i)) <= scale_hi
  /\ (forall t, zs_g (zoom_step s i) = Some t -> scale_lo <= t_k t <= scale_hi).
Proof.
  intros Hk Hg. destruct i; cbn [zoom_step dblclick_zoom_listener emit zs_zoom zs_g t_k scale].
  - split; [apply clamp_k_bounds|]. intros t Ht. injection Ht as <-. apply clamp_k_bounds.
  - split; [apply clamp_k_bounds|]. intros t Ht. injection Ht as <-. apply clamp_k_bounds.
  - split; [exact Hk|]. intros t Ht. injection Ht as <-. exact Hk.
  - auto.
Qed.

Lemma zoom_run_bounds is s :
  scale_lo <= t_k (zs_zoom s) <= scale_hi ->
  (forall t, zs_g s = Some t -> scale_lo <= t_k t <= scale_hi) ->
  scale_lo <= t_k (zs_zoom (zoom_run s is)) <= scale_hi
  /\ (forall t, zs_g (zoom_run s is) = Some t -> scale_lo <= t_k t <= scale_hi).
Proof.
  revert s. induction is as [|i r IH]; intros s Hk Hg; [auto|].
  unfold zoom_run. cbn [fold_left].
  destruct (zoom_step_bounds s i Hk Hg). apply IH; auto.
Qed.

(** ** Frame conditions of the effects *)

Section Keeps.
Context {X : Type} (f : World -> X).

Lemma keeps_ret {A} (a : A) : keeps f (mret a).
Proof. intros w. reflexivity. Qed.

Lemma keeps_bind {A B} (m : M A) (k : A -> M B) :
  keeps f m -> (forall a, keeps f (k a)) -> keeps f (m ≫= k).
Proof.
  intros Hm Hk w. unfold mbind, M_bind. specialize (Hm w).
  destruct (m w) as [[a|e] w'] eqn:E; simpl in *; [rewrite Hk|]; exact Hm.
Qed.

Lemma keeps_throw {A} msg : keeps f (throw (A := A) msg).
Proof. intros w. reflexivity. Qed.

Lemma keeps_get : keeps f get.
Proof. intros w. reflexivity. Qed.

Lemma keeps_modify g : (forall w, f (g w) = f w) -> keeps f (modify g).
Proof. intros H w. apply H. Qed.

Lemma keeps_read_node l : keeps f (read_node l).
Proof. intros w. unfold read_node. destruct (w_heap w !! l) as [[]|]; reflexivity. Qed.

Lemma keeps_read_link l : keeps f (read_link l).
Proof. intros w. unfold read_link. destruct (w_heap w !! l) as [[]|]; reflexivity. Qed.

Lemma keeps_mapW {A B} (g : A -> M B) l : (forall x, keeps f (g x)) -> keeps f (mapW g l).
Proof.
  intros Hg. induction l as [|x r IH]; simpl; [apply keeps_ret|].
  apply keeps_bind; [apply Hg|intros y]. apply keeps_bind; [exact IH|intros ys]. apply keeps_ret.
Qed.

Lemma keeps_iterW {A} (g : nat -> A -> M unit) i l :
  (forall j x, keeps f (g j x)) -> keeps f (iterW g i l).
Proof.
  intros Hg. revert i. induction l as [|x r IH]; intros i; simpl; [apply keeps_ret|].
  apply keeps_bind; [apply Hg|intros _]. apply IH.
Qed.

End Keeps.

Create HintDb keeps.
#[local] Hint Resolve keeps_ret keeps_throw keeps_get keeps_read_node keeps_read_link : keeps.

(** Takes a monadic program apart into its primitive effects. *)
Ltac keeps_tac :=
  repeat first
    [ apply keeps_bind; [|intros]
    | apply keeps_mapW; intros
    | apply keeps_iterW; intros
    | apply keeps_modify; intros; reflexivity
    | solve [eauto with keeps]
    | match goal with |- keeps _ (match ?e with _ => _ end) => destruct e end
    | match goal with |- keeps _ (if ?e then _ else _) => destruct e end ].

Lemma keeps_write_calls l o : keeps w_calls (write l o).
Proof. apply keeps_modify. reflexivity. Qed.

Lemma keeps_alloc_calls o : keeps w_calls (alloc o).
Proof. intros w. reflexivity. Qed.

#[local] Hint Resolve keeps_write_calls keeps_alloc_calls : keeps.

Lemma bind_ok {A B} (m : M A) (k : A -> M B) w b w' :
  (m ≫= k) w = (Ok b, w') -> exists a w1, m w = (Ok a, w1) /\ k a w1 = (Ok b, w').
Proof.
  unfold mbind, M_bind. destruct (m w) as [[a|e] w1]; intros H; [eauto|discriminate].
Qed.

Lemma keeps_circle_at {X} (f : World -> X) i : keeps f (circle_at i).
Proof. unfold circle_at, get_graph. keeps_tac. Qed.

Lemma node_click_true sc i w b w' : node_click sc i w = (Ok b, w') -> b = true.
Proof.
  unfold node_click. intros H. apply bind_ok in H as (c & w1 & _ & H).
  apply bind_ok in H as (u & w2 & _ & H). injection H as <- _. reflexivity.
Qed.

(** The calls recorded by one handler: none, or a single one. *)
Lemma one_call_keeps {A} (m : M A) : keeps w_calls m -> one_call m.
Proof. intros H w. left. apply H. Qed.

Lemma one_call_bind_l {A B} (m : M A) (k : A -> M B) :
  one_call m -> (forall a, keeps w_calls (k a)) -> one_call (m ≫= k).
Proof.
  intros Hm Hk w. unfold mbind, M_bind. specialize (Hm w).
  destruct (m w) as [[a|e] w1]; simpl in *; [|exact Hm].
  destruct Hm as [H|[x H]]; [left|right; exists x]; rewrite (Hk a w1); exact H.
Qed.

Lemma one_call_bind_r {A B} (m : M A) (k : A -> M B) :
  keeps w_calls m -> (forall a, one_call (k a)) -> one_call (m ≫= k).
Proof.
  intros Hm Hk w. unfold mbind, M_bind. specialize (Hm w).
  destruct (m w) as [[a|e] w1]; simpl in *.
  - destruct (Hk a w1) as [H|[x H]]; rewrite H, Hm; eauto.
  - left. exact Hm.
Qed.

Lemma one_call_call a : one_call (call_onNodeClick a).
Proof. intros w. right. exists a. reflexivity. Qed.

Lemma keeps_find_original {X} (f : World -> X) nodes id : keeps f (find_original nodes id).
Proof. induction nodes as [|l r IH]; simpl; keeps_tac. Qed.

Lemma node_click_one_call sc i : one_call (node_click sc i).
Proof.
  unfold node_click. apply one_call_bind_r; [apply keeps_circle_at|intros c].
  apply one_call_bind_l; [|intros; apply keeps_ret].
  destruct (sc_cb sc); [|apply one_call_keeps, keeps_ret].
  apply one_call_bind_r; [apply keeps_read_node|intros d].
  apply one_call_bind_r; [apply keeps_find_original|intros [n|]];
    [apply one_call_call|apply one_call_keeps, keeps_ret].
Qed.

Lemma bg_click_one_call t : one_call (bg_click t).
Proof.
  unfold bg_click. apply one_call_bind_r; [apply keeps_get|intros w'].
  apply one_call_bind_l; [|intros; apply keeps_ret].
  destruct (sf_bg_click (w_surf w')) as [[]|]; try apply one_call_keeps, keeps_ret.
  destruct (String.eqb _ _); [apply one_call_call|apply one_call_keeps, keeps_ret].
Qed.

Lemma click_one_call sc t : one_call (click sc t).
Proof.
  intros w. destruct t; unfold click, propagation_path; cbn [propagate listener];
    try (apply one_call_bind_l; [apply bg_click_one_call|intros []; apply keeps_ret]).
  pose proof (node_click_one_call sc i w) as H.
  match goal with |- context [(node_click sc i ≫= ?k) w] =>
    assert (Hs : ((node_click sc i ≫= k) w).2 = (node_click sc i w).2) end.
  { unfold mbind at 1, M_bind at 1. destruct (node_click sc i w) as [[b|e] w1] eqn:E; [|reflexivity].
    rewrite (node_click_true _ _ _ _ _ E). reflexivity. }
  rewrite Hs. exact H.
Qed.

Lemma keeps_calls_handlers sc op : (forall t, op <> OClick t) -> keeps w_calls (step sc op).
Proof.
  intros Hop. destruct op as [imp sh dv|gid i px py|gid px py|gid|i|W H px py|i|t];
    [| | | | | | |exfalso; eapply Hop; reflexivity]; cbn [step].
  - unfold tick, link_force. keeps_tac.
  - unfold dragstart, set_alpha_target, set_pin. apply keeps_bind; [apply keeps_circle_at|intros c].
    keeps_tac.
  - unfold dragmove, set_pin. keeps_tac.
  - unfold dragend, set_alpha_target, set_pin. keeps_tac.
  - unfold mouseover, set_circle, set_graph, set_links_visual, update_tooltips, get_graph.
    apply keeps_bind; [apply keeps_circle_at|intros c]. keeps_tac.
  - unfold mousemove, update_tooltips. keeps_tac.
  - unfold mouseout, set_circle, set_graph, set_links_visual, update_tooltips, get_graph.
    apply keeps_bind; [apply keeps_circle_at|intros c]. keeps_tac.
Qed.

Lemma keeps_init_calls place v cb nodes links : keeps w_calls (init place v cb nodes links).
Proof.
  unfold init, clear_surface, on_bg_click, append_child, append_tooltip, install_zoom,
    copy_node, copy_link, init_node, init_links, read_with_loc, resolve_link, resolve_ep,
    find_node, render, fill_g.
  keeps_tac.
Qed.

Lemma step_calls_nocb sc op w :
  sc_cb sc = false -> sf_bg_click (w_surf w) = Some false -> w_calls (snd (step sc op w)) = w_calls w.
Proof.
  intros Hcb Hbg. destruct op as [| | | | | | |t];
    try (apply (keeps_calls_handlers sc _); intros ? ?; discriminate).
  cbn [step]. destruct t; unfold click, propagation_path; cbn [propagate listener];
    try (cbv [bg_click get mbind M_bind mret M_ret]; rewrite Hbg; reflexivity).
  assert (Hk : keeps w_calls (node_click sc i)).
  { unfold node_click. rewrite Hcb. apply keeps_bind; [apply keeps_circle_at|intros c]. keeps_tac. }
  match goal with |- context [(node_click sc i ≫= ?k) w] =>
    assert (Hs : ((node_click sc i ≫= k) w).2 = (node_click sc i w).2) end.
  { unfold mbind at 1, M_bind at 1. destruct (node_click sc i w) as [[b|e] w1] eqn:E; [|reflexivity].
    rewrite (node_click_true _ _ _ _ _ E). reflexivity. }
  rewrite Hs. apply Hk.
Qed.

Lemma run_calls_nocb lo w0 sc ops w :
  scene_inv lo w0 sc w -> sc_cb sc = false -> w_calls (run sc ops w) = w_calls w.
Proof.
  revert w. induction ops as [|op r IH]; intros w HI Hcb; [reflexivity|]. cbn [run].
  rewrite (IH _ (step_inv _ _ _ op w HI) Hcb). apply step_calls_nocb; [exact Hcb|].
  rewrite (si_bg _ _ _ _ HI), Hcb. reflexivity.
Qed.

Lemma ex_init_cb v cb :
  init origin v cb [0; 1; 2]%nat [3; 4]%nat ex_world
  = (Ok (Built (mkScene v cb [0; 1; 2]%nat [5; 6; 7]%nat [8; 9]%nat)),
     snd (init origin v cb [0; 1; 2]%nat [3; 4]%nat ex_world)).
Proof.
  assert (Hf : fst (init origin v cb [0; 1; 2]%nat [3; 4]%nat ex_world)
               = Ok (Built (mkScene v cb [0; 1; 2]%nat [5; 6; 7]%nat [8; 9]%nat)))
    by (destruct v as [|[]], cb; vm_compute; reflexivity).
  destruct (init origin v cb [0; 1; 2]%nat [3; 4]%nat ex_world) as [r w]. simpl in *. subst. reflexivity.
Qed.

Lemma node_by_id_fold objs id (m : gmap string loc) :
  fold_left (fun m lo => <[n_id (no_data lo.2) := lo.1]> m) objs m !! id
  = match last (map fst (List.filter (fun p => String.eqb (n_id (no_data p.2)) id) objs)) with
    | Some l => Some l
    | None => m !! id
    end.
Proof.
  revert m. induction objs as [|p r IH]; intros m; [reflexivity|]. cbn [fold_left]. rewrite IH.
  cbn [List.filter]. destruct (String.eqb (n_id (no_data p.2)) id) eqn:E.
  - apply String.eqb_eq in E. cbn [map]. rewrite last_cons.
    destruct (last _); [reflexivity|]. rewrite E. apply lookup_insert_eq.
  - apply String.eqb_neq in E. destruct (last _); [reflexivity|]. apply lookup_insert_ne. exact E.
Qed.

Lemma keeps_update_skel l (g : NodeObj -> NodeObj) :
  (forall o, skeleton (ONode (g o)) = skeleton (ONode o)) ->
  keeps heap_skeleton (o ← read_node l; write l (ONode (g o))).
Proof.
  intros Hg w. unfold mbind, M_bind, read_node.
  destruct (w_heap w !! l) as [[o|o]|] eqn:E; [|reflexivity|reflexivity].
  unfold heap_skeleton, write, modify. cbn [snd w_heap set_heap w_next]. f_equal.
  rewrite fmap_insert, Hg. apply insert_id. rewrite lookup_fmap, E. reflexivity.
Qed.

Lemma keeps_update_skel_seq {B} l (g : NodeObj -> NodeObj) (k : M B) :
  (forall o, skeleton (ONode (g o)) = skeleton (ONode o)) -> keeps heap_skeleton k ->
  keeps heap_skeleton (o ← read_node l; write l (ONode (g o));; k).
Proof.
  intros Hg Hk w. pose proof (keeps_update_skel l g Hg w) as H.
  unfold mbind, M_bind in *. destruct (read_node l w) as [[o|e] w1]; [|exact H].
  unfold write, modify in *. rewrite Hk. exact H.
Qed.

Lemma skel_add_v o a : skeleton (ONode (add_v o a)) = skeleton (ONode o).
Proof. reflexivity. Qed.

Lemma skel_shift_pos o s : skeleton (ONode (shift_pos o s)) = skeleton (ONode o).
Proof. reflexivity. Qed.

Lemma skel_integrate o : skeleton (ONode (integrate o)) = skeleton (ONode o).
Proof. destruct o as [d i x y vx vy [fx|] [fy|]]; reflexivity. Qed.

Lemma tick_skeleton sc imp sh dv : keeps heap_skeleton (tick sc imp sh dv).
Proof.
  unfold tick. apply keeps_bind; [|intros _; apply keeps_bind; [|intros _; apply keeps_bind]].
  - apply keeps_iterW. intros k l. unfold link_force.
    apply keeps_bind; [apply keeps_read_link|intros lo].
    destruct (lo_source lo), (lo_target lo); try apply keeps_throw.
    destruct (default _ _) as [it is].
    apply keeps_update_skel_seq; [intros; apply skel_add_v|].
    apply keeps_update_skel. intros; apply skel_add_v.
  - apply keeps_iterW. intros k l. apply keeps_update_skel. intros; apply skel_shift_pos.
  - apply keeps_iterW. intros k l. apply keeps_update_skel. intros; apply skel_add_v.
  - intros _. apply keeps_iterW. intros k l. apply keeps_update_skel. apply skel_integrate.
Qed.

Lemma pinned_ok_integrate o : pinned_ok (integrate o).
Proof.
  destruct o as [d i x y vx vy [fx|] [fy|]]; split; intros c Hc; cbn in *;
    try discriminate; injection Hc as <-; auto.
Qed.

Lemma integrate_pass_keep L i w w' l :
  iterW (fun _ l => o ← read_node l; write l (ONode (integrate o))) i L w = (Ok tt, w') ->
  (exists o, w_heap w !! l = Some (ONode o) /\ pinned_ok o) ->
  exists o, w_heap w' !! l = Some (ONode o) /\ pinned_ok o.
Proof.
  revert i w. induction L as [|x r IH]; intros i w H Hl; cbn [iterW] in H.
  - injection H as <-. exact Hl.
  - apply bind_ok in H as ([] & w1 & H1 & H2). apply (IH _ _ H2).
    unfold mbind, M_bind, read_node in H1.
    destruct (w_heap w !! x) as [[o|o]|] eqn:E; try discriminate.
    unfold write, modify in H1. injection H1 as <-. cbn [w_heap set_heap].
    destruct (decide (x = l)) as [<-|Hne].
    + rewrite lookup_insert_eq. eexists. split; [reflexivity|apply pinned_ok_integrate].
    + rewrite lookup_insert_ne by exact Hne. exact Hl.
Qed.

Lemma integrate_pass L i w w' l :
  iterW (fun _ l => o ← read_node l; write l (ONode (integrate o))) i L w = (Ok tt, w') ->
  l ∈ L -> exists o, w_heap w' !! l = Some (ONode o) /\ pinned_ok o.
Proof.
  revert i w. induction L as [|x r IH]; intros i w H Hl; [inversion Hl|]. cbn [iterW] in H.
  apply bind_ok in H as ([] & w1 & H1 & H2).
  apply elem_of_cons in Hl as [->|Hl]; [|exact (IH _ _ H2 Hl)].
  apply (integrate_pass_keep _ _ _ _ _ H2).
  unfold mbind, M_bind, read_node in H1.
  destruct (w_heap w !! x) as [[o|o]|] eqn:E; try discriminate.
  unfold write, modify in H1. injection H1 as <-. cbn [w_heap set_heap].
  rewrite lookup_insert_eq. eexists. split; [reflexivity|apply pinned_ok_integrate].
Qed.

Lemma keeps_id_circle_at i : keeps (fun w => w) (circle_at i).
Proof. apply keeps_circle_at. Qed.

Lemma without_absent gs gid : gesture_lookup gs gid = None -> without gid gs = gs.
Proof.
  induction gs as [|[k g] r IH]; intros H; [reflexivity|]. cbn [gesture_lookup] in H.
  unfold without. cbn [List.filter fst]. destruct (Nat.eqb k gid) eqn:E; [discriminate|].
  cbn [negb]. f_equal. exact (IH H).
Qed.

Lemma without_cons_same gid g gs : without gid ((gid, g) :: gs) = without gid gs.
Proof. unfold without. cbn [List.filter fst]. rewrite Nat.eqb_refl. reflexivity. Qed.

Lemma keeps_drag_set_pin l fx fy : keeps w_drag (set_pin l fx fy).
Proof. unfold set_pin. keeps_tac. Qed.

Lemma keeps_drag_alpha a r : keeps w_drag (set_alpha_target a r).
Proof. unfold set_alpha_target. keeps_tac. Qed.

Lemma dragstart_drag sc gid i px py w w1 :
  dragstart sc gid i px py w = (Ok tt, w1) ->
  exists s dx dy, w_drag w1 = mkDrag (S (ds_active (w_drag w)))
                                     ((gid, (s, dx, dy)) :: without gid (ds_gestures (w_drag w)))
    /\ (ds_active (w_drag w) = 0%nat ->
        option_map sim_alpha_target (w_sim w1) = option_map (fun _ => 3 # 10) (w_sim w)).
Proof.
  unfold dragstart. intros H.
  apply bind_ok in H as (c & wa & Hc & H). pose proof (keeps_id_circle_at i w) as Ea.
  rewrite Hc in Ea. cbn in Ea. subst wa.
  apply bind_ok in H as (o & wb & Ho & H).
  pose proof (keeps_read_node (fun w => w) (c_datum c) w) as Eb.
  rewrite Ho in Eb. cbn in Eb. subst wb.
  apply bind_ok in H as (w' & wc & Hg & H). injection Hg as <- <-.
  apply bind_ok in H as ([] & w2 & Hm & H). unfold modify in Hm. injection Hm as <-.
  exists (c_datum c), (match no_x o with Some x => x - px | None => 0 end),
         (match no_y o with Some y => y - py | None => 0 end).
  set (w2 := set_drag _ w) in H.
  match type of H with ?m w2 = _ =>
    assert (Kd : keeps w_drag m) by (unfold set_alpha_target, set_pin, write; keeps_tac);
    pose proof (Kd w2) as Ed; rewrite H in Ed; cbn in Ed end.
  split; [exact Ed|intros Hn]. rewrite Hn in H. cbn [Nat.eqb] in H.
  apply bind_ok in H as ([] & w3 & H3 & H).
  match type of H with ?m w3 = _ =>
    assert (Ks : keeps w_sim m) by (unfold set_pin, write; keeps_tac);
    pose proof (Ks w3) as Es; rewrite H in Es; cbn in Es end.
  rewrite Es. unfold set_alpha_target, modify in H3. injection H3 as <-.
  subst w2. cbn. destruct (w_sim w); reflexivity.
Qed.

(** ** Hover handlers and initialisation, step by step *)

Lemma circle_at_ok i w c w1 :
  circle_at i w = (Ok c, w1) ->
  w1 = w /\ exists g, the_graph (w_surf w) = Some g /\ g_circles g !! i = Some c.
Proof.
  unfold circle_at, get_graph, get, mbind, M_bind.
  destruct (the_graph (w_surf w)) as [g|]; [|discriminate]. cbn.
  destruct (g_circles g !! i) eqn:E; [|discriminate]. intros [= -> ->]. eauto.
Qed.

Lemma get_graph_ok w g w1 :
  get_graph w = (Ok g, w1) -> w1 = w /\ the_graph (w_surf w) = Some g.
Proof.
  unfold get_graph, get, mbind, M_bind.
  destruct (the_graph (w_surf w)) as [g0|]; [|discriminate]. intros [= -> ->]. auto.
Qed.

Lemma read_node_ok l w o w1 :
  read_node l w = (Ok o, w1) -> w1 = w /\ w_heap w !! l = Some (ONode o).
Proof. unfold read_node. destruct (w_heap w !! l) as [[|]|]; intros; simplify_eq; auto. Qed.

Lemma read_link_ok l w o w1 :
  read_link l w = (Ok o, w1) -> w1 = w /\ w_heap w !! l = Some (OLink o).
Proof. unfold read_link. destruct (w_heap w !! l) as [[|]|]; intros; simplify_eq; auto. Qed.

Lemma set_graph_ok g w g0 :
  the_graph (w_surf w) = Some g0 ->
  the_graph (w_surf (snd (set_graph g w))) = Some g
  /\ w_heap (snd (set_graph g w)) = w_heap w
  /\ sf_tooltips (w_surf (snd (set_graph g w))) = sf_tooltips (w_surf w).
Proof. intros H. split; [apply (the_graph_replace _ g0); exact H|]. auto. Qed.

Lemma mapW_pure {A B} (f : A -> M B) l w r w' :
  (forall x w b w', f x w = (Ok b, w') -> w' = w) ->
  mapW f l w = (Ok r, w') -> w' = w /\ Forall2 (fun x y => f x w = (Ok y, w)) l r.
Proof.
  intros Hf. revert r w'. induction l as [|x l IH]; intros r w' H.
  - cbn in H. injection H as <- <-. auto.
  - cbn in H. apply bind_ok in H as (y & w1 & H1 & H). pose proof (Hf _ _ _ _ H1) as ->.
    apply bind_ok in H as (ys & w2 & H2 & H). destruct (IH _ _ H2) as [-> HF].
    cbn in H. injection H as <- <-. auto.
Qed.

Lemma set_circle_ok i c w w' :
  set_circle i c w = (Ok tt, w') ->
  exists g0, the_graph (w_surf w) = Some g0 /\ w' = snd (set_graph (with_circle g0 i c) w).
Proof.
  unfold set_circle. intros H. apply bind_ok in H as (g0 & w1 & H1 & H).
  apply get_graph_ok in H1 as (-> & Hg). exists g0. split; [exact Hg|].
  unfold set_graph, modify in H |- *. injection H as <-. reflexivity.
Qed.

Lemma set_links_visual_ok lines texts w w' :
  set_links_visual lines texts w = (Ok tt, w') ->
  exists g0, the_graph (w_surf w) = Some g0 /\ w' = snd (set_graph (with_links g0 lines texts) w).
Proof.
  unfold set_links_visual. intros H. apply bind_ok in H as (g0 & w1 & H1 & H).
  apply get_graph_ok in H1 as (-> & Hg). exists g0. split; [exact Hg|].
  unfold set_graph, modify in H |- *. injection H as <-. reflexivity.
Qed.

Lemma heap_only_ok {A} (m : M A) w a w' :
  heap_only m -> m w = (Ok a, w') -> w_surf w' = w_surf w /\ w_sim w' = w_sim w.
Proof. intros Hm H. destruct (Hm w) as (h & n & E). rewrite H in E. cbn in E. subst w'. auto. Qed.

Lemma mapW_length {A B} (f : A -> M B) l w r w' :
  mapW f l w = (Ok r, w') -> length r = length l.
Proof.
  revert w r w'. induction l as [|x l IH]; intros w r w' H.
  - cbn in H. injection H as <- _. reflexivity.
  - cbn in H. apply bind_ok in H as (y & w1 & _ & H).
    apply bind_ok in H as (ys & w2 & H2 & H). cbv [mret M_ret] in H. injection H as <- _.
    cbn. f_equal. exact (IH _ _ _ H2).
Qed.

Lemma render_ok v nD lD w g w' :
  render v nD lD w = (Ok g, w') ->
  w' = w /\ map c_datum (g_circles g) = nD /\ g_labels g = nD
  /\ map ln_datum (g_lines g) = lD /\ map lt_datum (g_link_texts g) = lD.
Proof.
  unfold render. intros H. apply bind_ok in H as (cs & w1 & H1 & H).
  apply mapW_pure in H1 as (-> & HF);
    [|intros x w0 b w0' Hx; apply bind_ok in Hx as (o & w9 & Hr & Hx);
      apply read_node_ok in Hr as (-> & _); cbv [mret M_ret] in Hx; congruence].
  cbv [mret M_ret] in H. injection H as <- <-. cbn.
  split; [reflexivity|]. split.
  { induction HF as [|l c nD cs Hc _ IH]; [reflexivity|]. cbn. rewrite IH. f_equal.
    apply bind_ok in Hc as (o & w9 & Hr & Hc). apply read_node_ok in Hr as (-> & _).
    cbv [mret M_ret] in Hc. injection Hc as <-. reflexivity. }
  split; [reflexivity|].
  split; rewrite map_map; apply map_id.
Qed.

Lemma modify_ok f w w' : modify f w = (Ok tt, w') -> w' = f w.
Proof. unfold modify. congruence. Qed.

(** ** The resize effect *)

Lemma cancel_pending_empty s :
  (forall id, rs_afid s = Some id -> (1 <= id)%nat) ->
  Forall (fun p => rs_afid s = Some p.1) (rs_pending s) ->
  rs_pending (cancel_pending s) = [].
Proof.
  intros Hid HF. unfold cancel_pending. destruct (rs_afid s) as [id|] eqn:E.
  - specialize (Hid id eq_refl). destruct (Nat.eqb_spec id 0); [lia|].
    cbn. induction HF as [|p ps Hp _ IH]; [reflexivity|]. cbn.
    injection Hp as <-. rewrite Nat.eqb_refl. exact IH.
  - destruct (rs_pending s) as [|p ps]; [reflexivity|]. inversion HF. congruence.
Qed.

Lemma cancel_pending_fields s :
  rs_afid (cancel_pending s) = rs_afid s /\ rs_next_id (cancel_pending s) = rs_next_id s
  /\ rs_connected (cancel_pending s) = rs_connected s /\ rvisible (cancel_pending s) = rvisible s
  /\ rs_svg (cancel_pending s) = rs_svg s /\ rs_sim (cancel_pending s) = rs_sim s.
Proof. unfold cancel_pending, rvisible. destruct (rs_afid s) as [[|id]|] eqn:E; cbn; split_and!; congruence. Qed.

Lemma frame_callback_fields es s :
  rs_afid (frame_callback es s) = rs_afid s /\ rs_next_id (frame_callback es s) = rs_next_id s
  /\ rs_pending (frame_callback es s) = rs_pending s /\ rs_connected (frame_callback es s) = rs_connected s
  /\ rs_svg (frame_callback es s) = rs_svg s /\ rs_sim (frame_callback es s) = rs_sim s.
Proof. unfold frame_callback. destruct es; [split_and!; reflexivity|]. destruct (rs_svg s) eqn:E1, (rs_sim s) eqn:E2; cbn; split_and!; congruence. Qed.

Lemma fold_frames_fields (ps : list (nat * list Entry)) s :
  let s' := fold_left (fun s (p : nat * list Entry) => frame_callback p.2 s) ps s in
  rs_afid s' = rs_afid s /\ rs_next_id s' = rs_next_id s
  /\ rs_pending s' = rs_pending s /\ rs_connected s' = rs_connected s
  /\ rs_svg s' = rs_svg s /\ rs_sim s' = rs_sim s.
Proof.
  revert s. induction ps as [|p ps IH]; intros s; cbn; [split_and!; reflexivity|].
  destruct (IH (frame_callback p.2 s)) as (? & ? & ? & ? & ? & ?).
  destruct (frame_callback_fields p.2 s) as (? & ? & ? & ? & ? & ?). cbn in *. split_and!; congruence.
Qed.

Lemma rs_inv_step s ev : rs_inv s -> rs_inv (rstep s ev).
Proof.
  intros (Hn & Hid & HF & Hl). destruct ev as [es| | |]; cbn [rstep].
  - destruct (rs_connected s); [|split_and!; auto].
    pose proof (cancel_pending_empty s Hid HF) as He.
    destruct (cancel_pending_fields s) as (Ha & Hn' & _).
    unfold on_resize, requestAnimationFrame, rs_inv. cbn. rewrite He, Hn'. cbn.
    split_and!; [lia| intros id [= <-]; lia | constructor; [reflexivity|constructor] | lia].
  - unfold run_frame. destruct (fold_frames_fields (rs_pending s) (set_pending [] s)) as (Ha & Hn' & Hp & _).
    unfold rs_inv. rewrite Ha, Hn', Hp. cbn. split_and!; auto.
  - unfold rs_inv. cbn. split_and!; auto.
  - unfold resize_cleanup. set (s1 := mkRState false _ _ _ _ _ _ _ _ _).
    pose proof (cancel_pending_empty s1 Hid HF) as He.
    destruct (cancel_pending_fields s1) as (Ha & Hn' & _).
    unfold rs_inv. rewrite He, Ha, Hn'. cbn. split_and!; auto.
Qed.

Lemma rs_inv_run s evs : rs_inv s -> rs_inv (rrun s evs).
Proof.
  revert s. induction evs as [|ev evs IH]; intros s Hs; [exact Hs|].
  apply IH. apply rs_inv_step. exact Hs.
Qed.

Lemma frame_callback_visible es s t :
  rs_svg t = rs_svg s -> rs_sim t = rs_sim s -> rvisible t = rvisible s ->
  rvisible (frame_callback es t) = rvisible (frame_callback es s).
Proof.
  intros Hs Hm Hv. unfold frame_callback. destruct es as [|e es]; [exact Hv|].
  rewrite Hs, Hm. destruct (rs_svg s); cbn; [|exact Hv].
  destruct (rs_sim s); unfold rvisible in *; cbn; congruence.
Qed.

Lemma observe_fields s es :
  rs_connected s = true ->
  rs_connected (rstep s (RObserve es)) = true /\ rs_svg (rstep s (RObserve es)) = rs_svg s
  /\ rs_sim (rstep s (RObserve es)) = rs_sim s /\ rvisible (rstep s (RObserve es)) = rvisible s.
Proof.
  intros Hc. cbn [rstep]. rewrite Hc.
  destruct (cancel_pending_fields s) as (_ & _ & H1 & H2 & H3 & H4).
  unfold on_resize, requestAnimationFrame, rvisible in *. cbn. split_and!; congruence.
Qed.

Lemma observe_many s obs :
  rs_connected s = true ->
  rs_connected (rrun s (map RObserve obs)) = true /\ rs_svg (rrun s (map RObserve obs)) = rs_svg s
  /\ rs_sim (rrun s (map RObserve obs)) = rs_sim s /\ rvisible (rrun s (map RObserve obs)) = rvisible s.
Proof.
  revert s. induction obs as [|es obs IH]; intros s Hc; [split_and!; auto|].
  cbn [map]. unfold rrun. cbn [fold_left]. fold (rrun (rstep s (RObserve es)) (map RObserve obs)).
  destruct (observe_fields s es Hc) as (H1 & H2 & H3 & H4).
  destruct (IH _ H1) as (G1 & G2 & G3 & G4). split_and!; congruence.
Qed.

Lemma unmounted_step s ev :
  rs_connected s = false -> rs_pending s = [] ->
  rs_connected (rstep s ev) = false /\ rs_pending (rstep s ev) = [] /\ rvisible (rstep s ev) = rvisible s.
Proof.
  intros Hc Hp. destruct ev as [es| | |]; cbn [rstep].
  - rewrite Hc. auto.
  - unfold run_frame. rewrite Hp. cbn. auto.
  - cbn. auto.
  - unfold resize_cleanup. set (s1 := mkRState false _ _ _ _ _ _ _ _ _).
    destruct (cancel_pending_fields s1) as (_ & _ & G3 & G4 & _).
    unfold cancel_pending. destruct (rs_afid s1) as [[|id]|]; cbn; [auto| |auto].
    unfold rvisible. cbn. rewrite Hp. auto.
Qed.

Lemma center_ok_callback es s : rs_sim s = true -> center_ok s -> center_ok (frame_callback es s).
Proof.
  intros Hm Hc. unfold frame_callback. destruct es as [|e es]; [exact Hc|].
  destruct (rs_svg s); cbn; [|exact Hc]. rewrite Hm.
  intros x y w h [= _ _ <- <-]. eexists _, _. split; [reflexivity|split; reflexivity].
Qed.

Lemma center_ok_fold (ps : list (nat * list Entry)) s :
  rs_sim s = true -> center_ok s ->
  center_ok (fold_left (fun s (p : nat * list Entry) => frame_callback p.2 s) ps s).
Proof.
  revert s. induction ps as [|p ps IH]; intros s Hm Hc; [exact Hc|]. cbn. apply IH.
  - destruct (frame_callback_fields p.2 s) as (_ & _ & _ & _ & _ & H). congruence.
  - apply center_ok_callback; assumption.
Qed.

(** ** Drag gestures among other events *)

Lemma keeps_kind_update l (g : NodeObj -> NodeObj) :
  keeps heap_kinds (o ← read_node l; write l (ONode (g o))).
Proof.
  intros w. unfold mbind, M_bind, read_node.
  destruct (w_heap w !! l) as [[o|o]|] eqn:E; [|reflexivity|reflexivity].
  unfold heap_kinds, write, modify. cbn [snd w_heap set_heap]. rewrite fmap_insert.
  apply insert_id. rewrite lookup_fmap, E. reflexivity.
Qed.

Lemma keeps_kind_update_seq {B} l (g : NodeObj -> NodeObj) (k : M B) :
  keeps heap_kinds k -> keeps heap_kinds (o ← read_node l; write l (ONode (g o));; k).
Proof.
  intros Hk w. pose proof (keeps_kind_update l g w) as H.
  unfold mbind, M_bind in *. destruct (read_node l w) as [[o|e] w1]; [|exact H].
  unfold write, modify in *. rewrite Hk. exact H.
Qed.

Lemma keeps_kind_set_pin l fx fy : keeps heap_kinds (set_pin l fx fy).
Proof. apply keeps_kind_update. Qed.

Ltac kinds_tac :=
  repeat first
    [ apply keeps_kind_set_pin
    | apply keeps_kind_update
    | apply keeps_kind_update_seq
    | apply keeps_bind; [|intros]
    | apply keeps_mapW; intros
    | apply keeps_iterW; intros
    | apply keeps_modify; intros; reflexivity
    | solve [eauto with keeps]
    | match goal with |- keeps _ (match ?e with _ => _ end) => destruct e end
    | match goal with |- keeps _ (if ?e then _ else _) => destruct e end ].

Lemma keeps_kinds_propagate sc path t : keeps heap_kinds (propagate sc path t).
Proof.
  induction path as [|cur r IH]; cbn [propagate]; [apply keeps_ret|].
  destruct cur; cbn [listener]; try exact IH;
    (apply keeps_bind; [|intros [|]; [apply keeps_ret|exact IH]]).
  - unfold node_click, circle_at, get_graph, call_onNodeClick. kinds_tac.
    apply keeps_find_original.
  - unfold bg_click, call_onNodeClick. kinds_tac.
Qed.

Lemma keeps_kinds_step sc op : keeps heap_kinds (step sc op).
Proof.
  destruct op; cbn [step].
  - unfold tick, link_force. kinds_tac.
  - unfold dragstart, circle_at, get_graph, set_alpha_target. kinds_tac.
  - unfold dragmove. kinds_tac.
  - unfold dragend, set_alpha_target. kinds_tac.
  - unfold mouseover, circle_at, get_graph, set_circle, set_links_visual, update_tooltips. kinds_tac.
  - unfold mousemove, update_tooltips. kinds_tac.
  - unfold mouseout, circle_at, get_graph, set_circle, set_links_visual, update_tooltips. kinds_tac.
  - apply keeps_kinds_propagate.
Qed.

Lemma run_kinds sc ops w : heap_kinds (run sc ops w) = heap_kinds w.
Proof.
  revert w. induction ops as [|op r IH]; intros w; [reflexivity|].
  cbn [run]. rewrite IH. apply keeps_kinds_step.
Qed.

Lemma kinds_node w w' l o :
  heap_kinds w' = heap_kinds w -> w_heap w !! l = Some (ONode o) ->
  exists o', w_heap w' !! l = Some (ONode o').
Proof.
  intros E H. assert (E' : heap_kinds w' !! l = Some true)
    by (rewrite E; unfold heap_kinds; rewrite lookup_fmap, H; reflexivity).
  unfold heap_kinds in E'. rewrite lookup_fmap in E'.
  destruct (w_heap w' !! l) as [[o'|o']|]; cbn in E'; try discriminate. eauto.
Qed.

Lemma without_nodup gs k : NoDup (map fst gs) -> NoDup (map fst (without k gs)).
Proof.
  induction gs as [|[k' g] r IH]; intros H; [constructor|]. unfold without in *.
  cbn [List.filter fst map] in *. apply NoDup_cons in H as [Hn H].
  destruct (negb (Nat.eqb k' k)); cbn [map fst]; [|exact (IH H)].
  constructor; [|exact (IH H)]. intros Hin. apply Hn.
  apply list_elem_of_In in Hin. apply list_elem_of_In.
  apply in_map_iff in Hin as ([a b] & Ha & Hin). apply in_map_iff. exists (a, b).
  split; [exact Ha|]. apply filter_In in Hin. exact (proj1 Hin).
Qed.

Lemma without_not_in gs k : k ∉ map fst (without k gs).
Proof.
  induction gs as [|[k' g] r IH]; [intros H; inversion H|]. unfold without in *.
  cbn [List.filter fst]. destruct (Nat.eqb k' k) eqn:E; cbn [negb map fst]; [exact IH|].
  intros Hin. apply elem_of_cons in Hin as [->|Hin]; [rewrite Nat.eqb_refl in E; discriminate|].
  exact (IH Hin).
Qed.

Lemma without_length gs k : (length (without k gs) <= length gs)%nat.
Proof.
  induction gs as [|[k' g] r IH]; [reflexivity|]. unfold without in *. cbn [List.filter fst].
  destruct (negb (Nat.eqb k' k)); cbn [length]; lia.
Qed.

Lemma without_length_in gs k :
  NoDup (map fst gs) -> gesture_lookup gs k <> None -> S (length (without k gs)) = length gs.
Proof.
  induction gs as [|[k' g] r IH]; intros Hd Hl; [exfalso; exact (Hl eq_refl)|].
  unfold without in *. cbn [List.filter fst gesture_lookup map] in *.
  apply NoDup_cons in Hd as [Hn Hd].
  destruct (Nat.eqb k' k) eqn:E; cbn [negb length].
  - apply Nat.eqb_eq in E. subst k'. f_equal. fold (without k r). rewrite without_absent; [reflexivity|].
    destruct (gesture_lookup r k) eqn:El; [|reflexivity]. exfalso. apply Hn.
    clear -El. induction r as [|[k2 g2] r IH]; [discriminate|]. cbn [gesture_lookup] in El.
    cbn [map fst]. destruct (Nat.eqb k2 k) eqn:E2.
    + apply Nat.eqb_eq in E2. subst. left.
    + right. exact (IH El).
  - f_equal. exact (IH Hd Hl).
Qed.

Lemma lookup_length gs k : gesture_lookup gs k <> None -> (1 <= length gs)%nat.
Proof. destruct gs; cbn; [intros H; exfalso; exact (H eq_refl)|lia]. Qed.

Lemma keeps_drag_sim_set_pin l fx fy : keeps (fun w => (w_drag w, w_sim w)) (set_pin l fx fy).
Proof. unfold set_pin, write. keeps_tac. Qed.

Lemma snd_bind {A B} (m : M A) (k : A -> M B) w :
  snd ((m ≫= k) w) = match m w with (Ok a, w1) => snd (k a w1) | (Err _, w1) => w1 end.
Proof. unfold mbind, M_bind. destruct (m w) as [[a|e] w1]; reflexivity. Qed.

Lemma dragstart_tail_drag s (b : bool) :
  keeps w_drag ((if b then set_alpha_target (3 # 10) true else mret tt);;
                o ← read_node s; set_pin s (no_x o) (no_y o)).
Proof. destruct b; unfold set_alpha_target, set_pin, write; keeps_tac. Qed.

Lemma dragstart_tail_sim s :
  keeps w_sim ((mret tt : M unit);; o ← read_node s; set_pin s (no_x o) (no_y o)).
Proof. unfold set_pin, write; keeps_tac. Qed.

Lemma dragstart_cases sc gid i px py w :
  let w1 := snd (dragstart sc gid i px py w) in
  (w_drag w1 = w_drag w /\ w_sim w1 = w_sim w)
  \/ (exists g, w_drag w1 = mkDrag (S (ds_active (w_drag w))) ((gid, g) :: without gid (ds_gestures (w_drag w)))
        /\ (ds_active (w_drag w) <> 0%nat -> w_sim w1 = w_sim w)).
Proof.
  cbv zeta. unfold dragstart. rewrite snd_bind.
  pose proof (keeps_id_circle_at i w) as Ec.
  destruct (circle_at i w) as [[c|e] wa]; cbn [snd] in Ec; subst wa; [|left; auto].
  rewrite snd_bind.
  pose proof (keeps_read_node (fun w => w) (c_datum c) w) as Er.
  destruct (read_node (c_datum c) w) as [[o|e] wb]; cbn [snd] in Er; subst wb; [|left; auto].
  right. eexists. split.
  - etransitivity; [apply dragstart_tail_drag|reflexivity].
  - intros Hn. apply Nat.eqb_neq in Hn. rewrite snd_bind. unfold get; cbv beta iota.
    rewrite snd_bind. unfold modify at 1; cbv beta iota. rewrite Hn.
    etransitivity; [apply dragstart_tail_sim|reflexivity].
Qed.

Lemma dragend_cases sc gid w :
  let w1 := snd (dragend sc gid w) in
  (gesture_of (w_drag w) gid = None /\ w1 = w)
  \/ (gesture_of (w_drag w) gid <> None
      /\ w_drag w1 = mkDrag (pred (ds_active (w_drag w))) (without gid (ds_gestures (w_drag w)))
      /\ (pred (ds_active (w_drag w)) <> 0%nat -> w_sim w1 = w_sim w)).
Proof.
  cbv zeta. unfold dragend. rewrite snd_bind. unfold get; cbv beta iota.
  destruct (gesture_of (w_drag w) gid) as [[[s dx] dy]|] eqn:Eg; [right|left; auto].
  split; [discriminate|]. rewrite snd_bind. unfold modify at 1; cbv beta iota.
  split.
  - destruct (Nat.eqb _ 0), (sc_variant sc); unfold set_alpha_target, set_pin, write;
      etransitivity; (apply keeps_bind; [|intros]; keeps_tac) || reflexivity.
  - intros Hn. apply Nat.eqb_neq in Hn. rewrite Hn.
    destruct (sc_variant sc); unfold set_pin, write;
      etransitivity; (apply keeps_bind; [|intros]; keeps_tac) || reflexivity.
Qed.

Lemma keeps_drag_sim_step sc op :
  match op with ODragStart _ _ _ _ | ODragEnd _ => False | _ => True end ->
  keeps (fun w => (w_drag w, w_sim w)) (step sc op).
Proof.
  intros Hop. destruct op; try contradiction; cbn [step].
  - unfold tick, link_force, write. keeps_tac.
  - unfold dragmove. keeps_tac; apply keeps_drag_sim_set_pin.
  - unfold mouseover, circle_at, get_graph, set_circle, set_links_visual, update_tooltips. keeps_tac.
  - unfold mousemove, update_tooltips. keeps_tac.
  - unfold mouseout, circle_at, get_graph, set_circle, set_links_visual, update_tooltips. keeps_tac.
  - unfold click. generalize (propagation_path t). intros path.
    induction path as [|cur r IH]; cbn [propagate]; [apply keeps_ret|].
    destruct cur; cbn [listener]; try exact IH;
      (apply keeps_bind; [|intros [|]; [apply keeps_ret|exact IH]]).
    + unfold node_click, circle_at, get_graph, call_onNodeClick. keeps_tac. apply keeps_find_original.
    + unfold bg_click, call_onNodeClick. keeps_tac.
Qed.

(** The drag bookkeeping of gesture [gid] across events of other gestures. *)
Lemma other_step_drag sc op gid G w :
  other_gesture gid op = true ->
  gest_ok (w_drag w) -> gesture_of (w_drag w) gid = Some G ->
  let w1 := snd (step sc op w) in
  gest_ok (w_drag w1) /\ gesture_of (w_drag w1) gid = Some G /\ w_sim w1 = w_sim w.
Proof.
  intros Hop [Hnd Hlen] Hg. cbv zeta. unfold gesture_of, gest_ok in *.
  assert (Hn1 := lookup_length (ds_gestures (w_drag w)) gid ltac:(rewrite Hg; discriminate)).
  destruct op as [imp sh dv|g i px py|g px py|g|i|W H px py|i|t];
    try (lazymatch goal with |- context [snd (step sc ?op w)] =>
           pose proof (keeps_drag_sim_step sc op I w) as E end; cbv beta in E;
         injection E as E1 E2; cbn [step] in *; rewrite E1, E2; split; [split; assumption|auto]).
  - cbn [other_gesture] in Hop. apply negb_true_iff, Nat.eqb_neq in Hop. cbn [step].
    destruct (dragstart_cases sc g i px py w) as [[E1 E2]|(gg & E1 & E2)];
      rewrite E1; [split; [split; assumption|auto]|].
    cbn [ds_gestures ds_active gesture_lookup]. rewrite (proj2 (Nat.eqb_neq g gid) Hop).
    rewrite gesture_lookup_without, (proj2 (Nat.eqb_neq gid g) (not_eq_sym Hop)).
    split; [|split; [exact Hg|apply E2; lia]]. split.
    + cbn [map fst]. constructor; [apply without_not_in|apply without_nodup; exact Hnd].
    + cbn [length]. pose proof (without_length (ds_gestures (w_drag w)) g). lia.
  - cbn [other_gesture] in Hop. apply negb_true_iff, Nat.eqb_neq in Hop. cbn [step].
    destruct (dragend_cases sc g w) as [[_ ->]|(Hp & E1 & E2)]; [split; [split; assumption|auto]|].
    rewrite E1. cbn [ds_gestures ds_active].
    rewrite gesture_lookup_without, (proj2 (Nat.eqb_neq gid g) (not_eq_sym Hop)).
    pose proof (without_length_in _ _ Hnd Hp) as HL.
    assert (Hw1 := lookup_length (without g (ds_gestures (w_drag w))) gid).
    rewrite gesture_lookup_without, (proj2 (Nat.eqb_neq gid g) (not_eq_sym Hop)), Hg in Hw1.
    specialize (Hw1 ltac:(discriminate)).
    split; [|split; [exact Hg|apply E2; lia]]. split; [apply without_nodup; exact Hnd|lia].
Qed.

Lemma other_run_drag sc mid gid G w :
  forallb (other_gesture gid) mid = true ->
  gest_ok (w_drag w) -> gesture_of (w_drag w) gid = Some G ->
  gest_ok (w_drag (run sc mid w)) /\ gesture_of (w_drag (run sc mid w)) gid = Some G
  /\ w_sim (run sc mid w) = w_sim w.
Proof.
  revert w. induction mid as [|op r IH]; intros w Hm Hok Hg; [auto|].
  cbn [forallb] in Hm. apply andb_true_iff in Hm as [Hop Hm]. cbn [run].
  destruct (other_step_drag sc op gid G w Hop Hok Hg) as (Hok1 & Hg1 & Hs1).
  destruct (IH _ Hm Hok1 Hg1) as (? & ? & ->). auto.
Qed.

Lemma tick_keeps_pinned sc imp sh dv w w' l o a b :
  tick sc imp sh dv w = (Ok tt, w') -> l ∈ sc_nodesData sc ->
  w_heap w !! l = Some (ONode o) -> no_fx o = Some a -> no_fy o = Some b ->
  exists o', w_heap w' !! l = Some (ONode o') /\ no_data o' = no_data o
    /\ no_fx o' = Some a /\ no_fy o' = Some b
    /\ no_x o' = Some a /\ no_y o' = Some b /\ no_vx o' = Some 0 /\ no_vy o' = Some 0.
Proof.
  intros Ht Hk Ho Ha Hb.
  pose proof (tick_skeleton sc imp sh dv w) as Hsk. rewrite Ht in Hsk.
  unfold heap_skeleton in Hsk. cbn [snd] in Hsk. injection Hsk as Hsk _.
  unfold tick in Ht. apply bind_ok in Ht as ([] & w1 & _ & Ht).
  apply bind_ok in Ht as ([] & w2 & _ & Ht). apply bind_ok in Ht as ([] & w3 & _ & Ht).
  destruct (integrate_pass _ _ _ _ l Ht Hk) as (o' & Ho' & [Px Py]).
  assert (E : skeleton <$> w_heap w' !! l = skeleton <$> w_heap w !! l)
    by (rewrite <- !lookup_fmap, Hsk; reflexivity).
  rewrite Ho', Ho in E. cbn in E. injection E as Hd Hi Hfx Hfy.
  rewrite Hfx in Px. rewrite Hfy in Py.
  destruct (Px a Ha) as [Hx Hvx]. destruct (Py b Hb) as [Hy Hvy].
  exists o'. rewrite Hfx, Hfy. auto 10.
Qed.

Lemma set_pin_eval l fx fy w o :
  w_heap w !! l = Some (ONode o) ->
  snd (set_pin l fx fy w)
  = write_w l (ONode (mkNodeObj (no_data o) (no_index o) (no_x o) (no_y o) (no_vx o) (no_vy o) fx fy)) w.
Proof. intros H. unfold set_pin, read_node, write, modify, mbind, M_bind. rewrite H. reflexivity. Qed.

Lemma dragend_eval sc gid w s dx dy :
  gesture_of (w_drag w) gid = Some (s, dx, dy) ->
  let w1 := set_drag (mkDrag (pred (ds_active (w_drag w))) (without gid (ds_gestures (w_drag w)))) w in
  let w2 := if Nat.eqb (pred (ds_active (w_drag w))) 0 then snd (set_alpha_target 0 false w1) else w1 in
  snd (dragend sc gid w) = match sc_variant sc with Plain => snd (set_pin s None None w2) | Tooltip _ => w2 end.
Proof.
  intros Hg. cbv zeta. unfold dragend. rewrite snd_bind. unfold get; cbv beta iota. rewrite Hg.
  rewrite snd_bind. unfold modify at 1; cbv beta iota. rewrite snd_bind.
  destruct (Nat.eqb _ 0), (sc_variant sc); reflexivity.
Qed.

(** ** Clicks through the window *)

(** The clicks that reach the component after any sequence of component
    events. *)
Lemma node_click_after_run place v nodes links w0 sc w1 ops i :
  input_ok w0 nodes links ->
  init place v true nodes links w0 = (Ok (Built sc), w1) ->
  (i < length nodes)%nat ->
  (exists g c n o o',
     the_graph (w_surf (run sc ops w1)) = Some g /\ g_circles g !! i = Some c /\
     click sc (TCircle i) (run sc ops w1)
       = (Ok tt, set_calls (Some n :: w_calls (run sc ops w1)) (run sc ops w1)) /\
     n ∈ nodes /\ n <> c_datum c /\
     w_heap (run sc ops w1) !! n = w_heap w0 !! n /\ w_heap w0 !! n = Some (ONode o) /\
     w_heap (run sc ops w1) !! c_datum c = Some (ONode o') /\ n_id (no_data o) = n_id (no_data o'))
  /\ click sc TSvg (run sc ops w1) = (Ok tt, set_calls (None :: w_calls (run sc ops w1)) (run sc ops w1)).
Proof.
  intros Hin Hinit Hi.
  destruct (init_built _ _ _ _ _ _ _ _ Hin Hinit) as [Hsc [HI0 _]].
  pose proof (run_inv _ _ _ ops w1 HI0) as HI.
  set (w := run sc ops w1) in *.
  assert (Hn : sc_nodes sc = nodes) by (rewrite Hsc; reflexivity).
  assert (Hcb : sc_cb sc = true) by (rewrite Hsc; reflexivity).
  split; [|apply click_svg_eval; rewrite (si_bg _ _ _ _ HI), Hcb; reflexivity].
  destruct (si_graph _ _ _ _ HI) as (g & Hg & Hgd).
  pose proof (si_corr _ _ _ _ HI) as Hcorr. rewrite Hn in Hcorr.
  pose proof (si_nodes _ _ _ _ HI) as Hlt. rewrite Hn in Hlt.
  pose proof (si_nodesData _ _ _ _ HI) as Hge.
  assert (Hlen : length (g_circles g) = length nodes).
  { rewrite <- (Forall2_length _ _ _ Hcorr), <- Hgd. rewrite length_fmap. reflexivity. }
  destruct (lookup_lt_is_Some_2 (g_circles g) i) as [c Hc]; [lia|].
  assert (HnD : sc_nodesData sc !! i = Some (c_datum c))
    by (rewrite <- Hgd, list_lookup_fmap, Hc; reflexivity).
  destruct (Forall2_lookup_l _ _ _ _ _ Hcorr HnD) as (l' & Hl' & o1 & o2 & Ho1 & Ho2 & Hd).
  assert (Hfr : forall l, l ∈ nodes -> w_heap w !! l = w_heap w0 !! l).
  { intros l Hl. apply (si_frame _ _ _ _ HI). exact (Forall_elem _ _ _ Hlt Hl). }
  assert (Hl'in : l' ∈ nodes) by (eapply list_elem_of_lookup_2; exact Hl').
  assert (Hread : Forall (fun l => exists o, w_heap w !! l = Some (ONode o)) (sc_nodes sc)).
  { rewrite Hn. apply Forall_forall. intros l Hl. pose proof (Hfr l Hl) as Hfl.
    apply list_elem_of_lookup_1 in Hl as [k Hk].
    destruct (Forall2_lookup_r _ _ _ _ _ Hcorr Hk) as (a & _ & _ & o' & _ & Ho' & _).
    exists o'. rewrite Hfl. exact Ho'. }
  destruct (find_original_found (sc_nodes sc) (n_id (no_data o1)) w Hread)
    as (n & o & Hf & Hnin & Ho & Hid).
  { exists l', o2. rewrite Hn. split; [exact Hl'in|]. split; [rewrite Hfr by exact Hl'in; exact Ho2|].
    rewrite Hd. reflexivity. }
  rewrite Hn in Hnin.
  exists g, c, n, o, o1.
  split; [exact Hg|]. split; [exact Hc|].
  split; [eapply click_circle_eval; eauto|].
  split; [exact Hnin|].
  split.
  { pose proof (Forall_elem _ _ _ Hlt Hnin) as H1.
    pose proof (Forall_elem _ _ _ Hge (list_elem_of_lookup_2 _ _ _ HnD)) as H2. cbv beta in H1, H2. lia. }
  split; [apply Hfr; exact Hnin|].
  split; [rewrite <- (Hfr n Hnin); exact Ho|].
  split; [exact Ho1|exact Hid].
Qed.

Lemma wstep_world sc inp md w : exists ops, snd (wstep sc inp (md, w)) = run sc ops w.
Proof.
  destruct inp as [op|i cx cy px py|cx cy px py| |]; cbn [wstep].
  - destruct op; try (eexists [_]; reflexivity).
    destruct (md_noclick md); [exists []|exists [OClick t]]; reflexivity.
  - exists [ODragStart mouse_gid i px py]. reflexivity.
  - destruct (md_down md) as [[x0 y0]|]; [exists [ODrag mouse_gid px py]|exists []]; reflexivity.
  - destruct (md_down md); [exists [ODragEnd mouse_gid]|exists []]; reflexivity.
  - exists []. reflexivity.
Qed.

Lemma run_app sc ops1 ops2 w : run sc (ops1 ++ ops2) w = run sc ops2 (run sc ops1 w).
Proof. revert w. induction ops1; intros w; [reflexivity|apply IHops1]. Qed.

Lemma wrun_world sc inps md w : exists ops, snd (wrun sc inps (md, w)) = run sc ops w.
Proof.
  revert md w. induction inps as [|inp r IH]; intros md w; [exists []; reflexivity|].
  cbn [wrun]. destruct (wstep sc inp (md, w)) as [md1 w1] eqn:E.
  destruct (wstep_world sc inp md w) as [ops1 H1]. rewrite E in H1. cbn [snd] in H1.
  destruct (IH md1 w1) as [ops2 H2]. exists (ops1 ++ ops2). rewrite run_app, <- H1. exact H2.
Qed.

(** * The claims *)

(** ** Empty node set *)

(** C5: with an empty node set the effect returns at once: the result is
    [NoOp] and the world (heap, render surface, simulation, drag state,
    callbacks) is left exactly as it was, whatever the links are. *)
Theorem init_empty_noop place v cb links w : init place v cb [] links w = (Ok NoOp, w).
Proof. reflexivity. Qed.

(** ** Malformed links *)

(** C4, counterexample: with no nodes, a link naming absent ids is not
    rejected: the initialisation is the no-op of the empty case. *)
Lemma dangling_without_nodes :
  w_heap dangling_world !! 0%nat = Some (OLink (link_obj (mkLink "1" "9" "encodes")))
  /\ init origin Plain true [] [0]%nat dangling_world = (Ok NoOp, dangling_world).
Proof. split; reflexivity. Qed.

Lemma init_dangling_witness :
  (exists e, fst (init origin Plain true [0]%nat [1]%nat bad_world) = Err e) /\
  the_graph (w_surf (snd (init origin Plain true [0]%nat [1]%nat bad_world))) = None.
Proof.
  apply (init_dangling origin Plain true 0 [] [1]%nat bad_world 1
           (link_obj (mkLink "1" "9" "encodes")) "9").
  - exact bad_input_ok.
  - left.
  - vm_compute. reflexivity.
  - right. reflexivity.
  - repeat apply Forall_cons_2; try apply Forall_nil_2.
    intros o Ho. vm_compute in Ho. injection Ho as <-. vm_compute. discriminate.
Defined.

(** ** Clicks elsewhere *)

(** C10: a click on anything but a node circle or the bare svg (a link
    line, an edge label, a node label, an arrow marker, a group) bubbles to
    the svg, whose handler does nothing for a target whose tag name is not
    ["svg"]: [onNodeClick] is not called and the world is unchanged. *)
Theorem click_elsewhere_silent sc t w :
  (forall i, t <> TCircle i) -> t <> TSvg -> click sc t w = (Ok tt, w).
Proof.
  intros Hc Hs. destruct t as [i|i|i|i| | |];
    [exfalso; exact (Hc i eq_refl)| | | | | |exfalso; exact (Hs eq_refl)];
    unfold click, propagation_path, propagate, listener, bg_click, get, mbind, M_bind, mret, M_ret;
    destruct (sf_bg_click (w_surf w)) as [[|]|]; reflexivity.
Qed.

Lemma click_elsewhere_silent_witness :
  click (ex_scene Plain) (TLine 0) (ex_after_init Plain) = (Ok tt, ex_after_init Plain).
Proof. apply click_elsewhere_silent; [intros i; discriminate|discriminate]. Defined.

(** ** Zoom *)

(** C6: after any sequence of wheel, pinch, pan and double-click inputs,
    of any magnitude, the zoom scale lies in [[0.1, 8]], and so does the
    scale of every transform written on the root group; a double click
    leaves the zoom state unchanged. *)
Theorem zoom_scale_clamped is :
  scale_lo <= t_k (zs_zoom (zoom_run zoom_init is)) <= scale_hi
  /\ (forall t, zs_g (zoom_run zoom_init is) = Some t -> scale_lo <= t_k t <= scale_hi)
  /\ (forall s, zoom_step s DblClick = s).
Proof.
  destruct (zoom_run_bounds is zoom_init) as [Hk Hg].
  - cbn. unfold scale_lo, scale_hi. lra.
  - intros t Ht. discriminate.
  - split; [exact Hk|]. split; [exact Hg|]. intros s. reflexivity.
Qed.

(** ** Tooltip placement *)

(** C3, counterexample: in a 300 x 200 container a pointer at (100, 100)
    flips both ways and puts the tooltip at (-155, -30), outside. *)
Lemma tooltip_small_container :
  0 <= 100 <= 300 /\ 0 <= 100 <= 200 /\
  tooltip_pos 300 200 100 100 = (-155, -30) /\
  ~ tooltip_inside 300 200 (tooltip_pos 300 200 100 100) 100 50.
Proof.
  assert (E : tooltip_pos 300 200 100 100 = (-155, -30)) by (vm_compute; reflexivity).
  split; [lra|]. split; [lra|]. split; [exact E|].
  unfold tooltip_inside. rewrite E. simpl. lra.
Qed.

(** C3 (amended): the anchor is [(x+15, y+15)], moved to [x-255] when
    [x+15 > W-250] and to [y-130] when [y+15 > H-120]; a pointer at
    [(W-10, H-10)] flips both ways; and in a container at least 520 wide
    and 265 high, a tooltip at most 240 x 120 stays inside for every
    pointer inside the container. *)
Theorem tooltip_rule W H x y :
  (W - 250 < x + 15 -> fst (tooltip_pos W H x y) = x - 255)
  /\ (x + 15 <= W - 250 -> fst (tooltip_pos W H x y) = x + 15)
  /\ (H - 120 < y + 15 -> snd (tooltip_pos W H x y) = y - 130)
  /\ (y + 15 <= H - 120 -> snd (tooltip_pos W H x y) = y + 15)
  /\ tooltip_pos W H (W - 10) (H - 10) = (W - 10 - 255, H - 10 - 130)
  /\ (forall w h, 520 <= W -> 265 <= H -> 0 <= x <= W -> 0 <= y <= H ->
        0 <= w <= 240 -> 0 <= h <= 120 -> tooltip_inside W H (tooltip_pos W H x y) w h).
Proof.
  unfold tooltip_pos, tooltip_inside.
  destruct (Qlt_le_dec (W - 250) (x + 15)) as [Hx|Hx];
  destruct (Qlt_le_dec (H - 120) (y + 15)) as [Hy|Hy];
  destruct (Qlt_le_dec (W - 250) (W - 10 + 15)) as [Hx'|Hx'];
  destruct (Qlt_le_dec (H - 120) (H - 10 + 15)) as [Hy'|Hy'];
  simpl; (split; [intros; reflexivity || lra|]);
  (split; [intros; reflexivity || lra|]);
  (split; [intros; reflexivity || lra|]);
  (split; [intros; reflexivity || lra|]);
  (split; [reflexivity || (exfalso; lra)|]);
  intros w h HW HH [Hx0 Hx1] [Hy0 Hy1] [Hw0 Hw1] [Hh0 Hh1]; repeat split; lra.
Qed.

Lemma tooltip_rule_witness :
  tooltip_inside 800 600 (tooltip_pos 800 600 790 590) 240 100.
Proof.
  apply (tooltip_rule 800 600 790 590); vm_compute; try split; discriminate.
Defined.

(** ** The caller's data *)

(** C8: after a successful initialisation and any sequence of ticks,
    drags, hovers, pointer moves and clicks, every object the caller had
    in the heap (in particular every element of [nodes] and [links]) is
    unchanged, and the scene keeps the caller's [nodes] array itself. *)
Theorem init_then_run_frame place v cb nodes links w0 sc w1 ops l :
  input_ok w0 nodes links ->
  init place v cb nodes links w0 = (Ok (Built sc), w1) ->
  (l < w_next w0)%nat ->
  sc_nodes sc = nodes /\ w_heap (run sc ops w1) !! l = w_heap w0 !! l.
Proof.
  intros Hin Hinit Hl.
  destruct (init_built _ _ _ _ _ _ _ _ Hin Hinit) as [Hsc [HI _]].
  split; [rewrite Hsc; reflexivity|].
  exact (si_frame _ _ _ _ (run_inv _ _ _ ops w1 HI) l Hl).
Qed.

Lemma init_then_run_frame_witness :
  sc_nodes (ex_scene Plain) = [0; 1; 2]%nat /\
  w_heap (run (ex_scene Plain)
            [OTick [((1, 1), (-1, -1))] (2, 2) [(1, 0)]; ODragStart 0 0 3 4; ODrag 0 10 10;
             ODragEnd 0; OOver 1; OOut 1; OClick (TCircle 2)] (ex_after_init Plain)) !! 0%nat
  = w_heap ex_world !! 0%nat.
Proof.
  apply init_then_run_frame with (place := origin) (v := Plain) (cb := true) (links := [3; 4]%nat).
  - exact ex_input_ok.
  - apply ex_init.
  - vm_compute. lia.
Defined.

(** ** Visual encoding *)

(** C9, counterexample: a node with [val: 0] is drawn with radius 10 (the
    value [0] is falsy), not [0*3+8 = 8]. *)
Lemma zero_val_radius :
  n_val zero_node = Some 0 /\
  exists g c, the_graph (w_surf (snd (init origin Plain true [0]%nat [] zero_world))) = Some g
    /\ g_circles g = [c] /\ c_r c = 10 /\ ~ c_r c == radius_spec zero_node.
Proof.
  split; [reflexivity|]. vm_compute.
  eexists _, _. split; [reflexivity|]. split; [reflexivity|]. split; [reflexivity|].
  discriminate.
Qed.

(** C9 (amended): after a successful initialisation, the circle of each
    caller node (in order) has the fill of the fixed palette for its type,
    and radius [val*3+8] when [val] is present and nonzero, [10] when
    [val] is absent or zero. *)
Theorem rendered_encoding place v cb nodes links w0 sc w1 :
  input_ok w0 nodes links ->
  init place v cb nodes links w0 = (Ok (Built sc), w1) ->
  exists g, the_graph (w_surf w1) = Some g /\
    Forall2 (fun c l => exists o, w_heap w0 !! l = Some (ONode o)
               /\ c_fill c = palette (n_type (no_data o))
               /\ (forall q, n_val (no_data o) = Some q -> q == 0 -> c_r c = 10)
               /\ ((forall q, n_val (no_data o) = Some q -> ~ q == 0) -> c_r c = radius_spec (no_data o)))
      (g_circles g) nodes.
Proof.
  intros Hin Hinit.
  destruct (init_built _ _ _ _ _ _ _ _ Hin Hinit) as (_ & _ & g & Hg & Hdr).
  exists g. split; [exact Hg|].
  eapply Forall2_impl; [exact Hdr|]. intros c l (o & Ho & Hr & Hf).
  exists o. split; [exact Ho|]. split; [exact Hf|].
  unfold radius, radius_spec, js_truthy in *. split.
  - intros q Hq Hz. rewrite Hr, Hq. apply Qeq_bool_iff in Hz. rewrite Hz. reflexivity.
  - intros Hnz. rewrite Hr. destruct (n_val (no_data o)) as [q|] eqn:E; [|reflexivity].
    destruct (Qeq_bool q 0) eqn:Ez; [|reflexivity].
    exfalso. apply (Hnz q eq_refl). apply Qeq_bool_iff. exact Ez.
Qed.

Lemma rendered_encoding_witness :
  exists g, the_graph (w_surf (ex_after_init Plain)) = Some g /\
    Forall2 (fun c l => exists o, w_heap ex_world !! l = Some (ONode o)
               /\ c_fill c = palette (n_type (no_data o))
               /\ (forall q, n_val (no_data o) = Some q -> q == 0 -> c_r c = 10)
               /\ ((forall q, n_val (no_data o) = Some q -> ~ q == 0) -> c_r c = radius_spec (no_data o)))
      (g_circles g) [0; 1; 2]%nat.
Proof.
  apply rendered_encoding with (place := origin) (v := Plain) (cb := true) (links := [3; 4]%nat)
    (sc := ex_scene Plain).
  - exact ex_input_ok.
  - apply ex_init.
Defined.

(** ** Node and background clicks *)




(** ** Hover and un-hover *)

(** C2: in the light theme of the tooltip variant, hovering and then
    un-hovering node 0 of the example restores the links, edge labels,
    tooltip, the radius and stroke width, but leaves the circle's stroke
    at the hover colour ["#0f172a"] instead of the baseline ["#f8fafc"]
    inherited from the node group: mouseout does not reset [stroke]. *)
Theorem hover_unhover_light_stroke :
  exists vi,
    visual (w_surf (ex_after_init (Tooltip false))) = Some vi
    /\ head (vi_circles vi) = Some (10, "#f8fafc", 3 # 2)
    /\ visual (w_surf (run (ex_scene (Tooltip false)) [OOver 0; OOut 0] (ex_after_init (Tooltip false))))
       = Some (mkVisual (<[0%nat := (10, "#0f172a", 3 # 2)]> (vi_circles vi))
                        (vi_lines vi) (vi_texts vi) (vi_tooltips vi)).
Proof.
  vm_compute. eexists. split; [reflexivity|]. split; reflexivity.
Qed.

(** ** Drag *)




(** * Further properties of the component *)

(** ** Hover *)

(** X1: the hover handlers ([mouseover], [mouseout], and the tooltip
    variant's [mousemove]) only restyle the rendering surface: they never
    change a node or link object, the simulation, the drag bookkeeping or
    the [onNodeClick] calls, also when they throw. *)
Theorem hover_keeps_state sc i W H px py :
  keeps non_visual (mouseover sc i) /\ keeps non_visual (mouseout sc i)
  /\ keeps non_visual (mousemove sc W H px py).
Proof.
  split; [|split].
  - unfold mouseover, set_circle, set_graph, set_links_visual, update_tooltips, get_graph.
    apply keeps_bind; [apply keeps_circle_at|intros c]. keeps_tac.
  - unfold mouseout, set_circle, set_graph, set_links_visual, update_tooltips, get_graph.
    apply keeps_bind; [apply keeps_circle_at|intros c]. keeps_tac.
  - unfold mousemove, update_tooltips. keeps_tac.
Qed.

(** ** Clicks *)

(** X2: of all the events after initialisation, only a click can call
    [onNodeClick], and a click calls it at most once (a node click stops
    propagation before the svg's handler runs). *)
Theorem only_clicks_call sc op w :
  w_calls (snd (step sc op w)) = w_calls w
  \/ exists t a, op = OClick t /\ w_calls (snd (step sc op w)) = a :: w_calls w.
Proof.
  destruct op as [| | | | | | |t]; [..|
    destruct (click_one_call sc t w) as [H|[a H]]; [left; exact H|right];
    exists t, a; split; [reflexivity|exact H]];
    left; apply (keeps_calls_handlers sc _); intros ? ?; discriminate.
Qed.

(** X3: when the component is initialised without an [onNodeClick]
    callback, no sequence of later events (clicks on nodes or on the
    background included) ever records a call. *)
Theorem no_callback_never_called place v nodes links w0 sc w1 ops :
  input_ok w0 nodes links ->
  init place v false nodes links w0 = (Ok (Built sc), w1) ->
  w_calls (run sc ops w1) = w_calls w0.
Proof.
  intros Hin Hinit. destruct (init_built _ _ _ _ _ _ _ _ Hin Hinit) as [Hsc [HI _]].
  rewrite (run_calls_nocb _ _ _ _ _ HI); [|rewrite Hsc; reflexivity].
  pose proof (keeps_init_calls place v false nodes links w0) as E. rewrite Hinit in E. exact E.
Qed.

Lemma no_callback_never_called_witness :
  w_calls (run (mkScene Plain false [0; 1; 2]%nat [5; 6; 7]%nat [8; 9]%nat)
             [OClick (TCircle 0); OClick TSvg; OOver 1; OClick (TLine 0)]
             (snd (init origin Plain false [0; 1; 2]%nat [3; 4]%nat ex_world)))
  = w_calls ex_world.
Proof.
  apply no_callback_never_called with (place := origin) (v := Plain)
    (nodes := [0; 1; 2]%nat) (links := [3; 4]%nat).
  - exact ex_input_ok.
  - apply ex_init_cb.
Defined.

(** X4: [nodes.find(n => n.id === d.id)] never changes the world; it
    returns the first element of [nodes] whose id matches, [undefined]
    when every element is a node with another id, and throws only when it
    meets a non-node before any match. *)
Theorem find_original_first nodes id w :
  snd (find_original nodes id w) = w /\
  match fst (find_original nodes id w) with
  | Ok None => Forall (fun l => exists o, w_heap w !! l = Some (ONode o) /\ n_id (no_data o) <> id) nodes
  | Ok (Some n) => exists pre post o, nodes = pre ++ n :: post
      /\ w_heap w !! n = Some (ONode o) /\ n_id (no_data o) = id
      /\ Forall (fun l => exists o, w_heap w !! l = Some (ONode o) /\ n_id (no_data o) <> id) pre
  | Err _ => exists pre l post, nodes = pre ++ l :: post
      /\ (forall o, w_heap w !! l <> Some (ONode o))
      /\ Forall (fun l => exists o, w_heap w !! l = Some (ONode o) /\ n_id (no_data o) <> id) pre
  end.
Proof.
  induction nodes as [|l r IH]; [split; [reflexivity|constructor]|].
  cbn [find_original]. unfold mbind, M_bind, read_node.
  destruct (w_heap w !! l) as [[o|o]|] eqn:E.
  - destruct (String.eqb (n_id (no_data o)) id) eqn:Eq.
    + apply String.eqb_eq in Eq. split; [reflexivity|]. exists [], r, o. auto.
    + apply String.eqb_neq in Eq. destruct IH as [IH1 IH2]. split; [exact IH1|].
      destruct (fst (find_original r id w)) as [[n|]|e].
      * destruct IH2 as (pre & post & o' & -> & H1 & H2 & H3).
        exists (l :: pre), post, o'. repeat split; auto. constructor; eauto.
      * constructor; eauto.
      * destruct IH2 as (pre & l' & post & -> & H1 & H2).
        exists (l :: pre), l', post. repeat split; auto. constructor; eauto.
  - split; [reflexivity|]. exists [], l, r. split; [reflexivity|]. split; [|constructor].
    intros o'. rewrite E. discriminate.
  - split; [reflexivity|]. exists [], l, r. split; [reflexivity|]. split; [|constructor].
    intros o'. rewrite E. discriminate.
Qed.

(** ** Link resolution *)

(** X5: forceLink's id map [new Map(nodes.map(d => [d.id, d]))] maps an id
    to the last node carrying it (a later duplicate wins), and has no
    entry for an id no node carries. *)
Theorem node_by_id_last objs id :
  node_by_id objs !! id
  = last (map fst (List.filter (fun p => String.eqb (n_id (no_data p.2)) id) objs)).
Proof.
  unfold node_by_id. rewrite node_by_id_fold. rewrite lookup_empty.
  destruct (last _); reflexivity.
Qed.

(** ** Tooltip contents *)

(** X6: the colour of the tooltip's dot agrees with the node's circle fill
    exactly for the three [NodeType] values; for any other type the dot is
    red ([#ef4444]) while the circle is grey ([#94a3b8]). *)
Theorem tooltip_dot_vs_fill d :
  (type_color (n_type d) = fill d <->
   n_type d = "DRUG" \/ n_type d = "PROTEIN" \/ n_type d = "SIDE_EFFECT")
  /\ (n_type d <> "DRUG" -> n_type d <> "PROTEIN" -> n_type d <> "SIDE_EFFECT" ->
      type_color (n_type d) = "#ef4444" /\ fill d = "#94a3b8").
Proof.
  unfold type_color, fill.
  destruct (String.eqb_spec (n_type d) "DRUG"); [split; [tauto|intros []; auto]|].
  destruct (String.eqb_spec (n_type d) "PROTEIN"); [split; [tauto|intros ? []; auto]|].
  destruct (String.eqb_spec (n_type d) "SIDE_EFFECT"); [split; [tauto|intros ? ? []; auto]|].
  split; [|auto]. split; [discriminate|intros [?|[?|?]]; contradiction].
Qed.


(** X7: a tick never allocates, never removes an object, and never changes a
    node's datum, index or pin (fx, fy) nor any link object: it only moves
    nodes and changes their velocities (and the rendered attributes). *)
Theorem tick_keeps_pins sc imp sh dv : keeps heap_skeleton (tick sc imp sh dv).
Proof. exact (tick_skeleton sc imp sh dv). Qed.

(** X8: after a successful tick, every node of the simulation that is pinned
    at (a, b) sits exactly at its pin with zero velocity, and keeps its
    datum and pin. *)
Theorem tick_pins_nodes sc imp sh dv w w' k l o a b :
  tick sc imp sh dv w = (Ok tt, w') -> sc_nodesData sc !! k = Some l ->
  w_heap w !! l = Some (ONode o) -> no_fx o = Some a -> no_fy o = Some b ->
  exists o', w_heap w' !! l = Some (ONode o') /\ no_data o' = no_data o
    /\ no_fx o' = Some a /\ no_fy o' = Some b
    /\ no_x o' = Some a /\ no_y o' = Some b /\ no_vx o' = Some 0 /\ no_vy o' = Some 0.
Proof.
  intros Ht Hk. apply (tick_keeps_pinned sc imp sh dv w w' l o a b Ht).
  eapply list_elem_of_lookup_2. exact Hk.
Qed.

Lemma tick_pins_nodes_witness :
  exists o',
    w_heap (snd (tick (ex_scene Plain) [((1, 1), (-1, -1))] (2, 2) [(1, 0)]
                   (run (ex_scene Plain) [ODragStart 0 0 3 4; ODrag 0 10 10] (ex_after_init Plain))))
      !! 5%nat = Some (ONode o')
    /\ no_data o' = mkNode "1" "A" "DRUG" None None
    /\ no_fx o' = Some 7 /\ no_fy o' = Some 6
    /\ no_x o' = Some 7 /\ no_y o' = Some 6 /\ no_vx o' = Some 0 /\ no_vy o' = Some 0.
Proof.
  apply (tick_pins_nodes (ex_scene Plain) [((1, 1), (-1, -1))] (2, 2) [(1, 0)]
           (run (ex_scene Plain) [ODragStart 0 0 3 4; ODrag 0 10 10] (ex_after_init Plain))
           _ 0 5
           (mkNodeObj (mkNode "1" "A" "DRUG" None None) (Some 0%nat) (Some 0) (Some 0)
              (Some 0) (Some 0) (Some 7) (Some 6))).
  - vm_compute. reflexivity.
  - vm_compute. reflexivity.
  - vm_compute. reflexivity.
  - reflexivity.
  - reflexivity.
Defined.

(** X10: a drag gesture that starts and ends without moves restores the
    gesture table; when it was the only gesture, the alpha target ends at 0. *)
Theorem drag_round_trip sc gid i px py w w1 :
  gesture_of (w_drag w) gid = None ->
  dragstart sc gid i px py w = (Ok tt, w1) ->
  w_drag (snd (dragend sc gid w1)) = w_drag w
  /\ (ds_active (w_drag w) = 0%nat ->
      option_map sim_alpha_target (w_sim (snd (dragend sc gid w1)))
      = option_map (fun _ => 0) (w_sim w)).
Proof.
  intros Hn Hs. destruct (dragstart_drag _ _ _ _ _ _ _ Hs) as (s & dx & dy & Hd & Ha).
  assert (Eg : forall {B} (k : World -> M B) w, (get ≫= k) w = k w w) by reflexivity.
  assert (Hend : dragend sc gid w1 =
    (modify (set_drag (mkDrag (ds_active (w_drag w)) (ds_gestures (w_drag w))));;
     (if Nat.eqb (ds_active (w_drag w)) 0 then set_alpha_target 0 false else mret tt);;
     match sc_variant sc with Plain => set_pin s None None | Tooltip _ => mret tt end) w1).
  { unfold dragend. rewrite Eg. unfold gesture_of at 1. rewrite Hd.
    cbn [ds_gestures gesture_lookup fst snd]. rewrite Nat.eqb_refl. cbn [ds_active pred].
    rewrite without_cons_same. unfold gesture_of in Hn. rewrite !(without_absent _ _ Hn).
    reflexivity. }
  rewrite Hend, modify_seq.
  set (w2 := set_drag _ w1).
  split.
  - match goal with |- w_drag (snd (?m w2)) = _ =>
      assert (Kd : keeps w_drag m) by (unfold set_alpha_target, set_pin, write; keeps_tac);
      rewrite (Kd w2) end.
    subst w2. cbn. destruct (w_drag w); reflexivity.
  - intros Hz. rewrite Hz. cbn [Nat.eqb]. unfold set_alpha_target at 1. rewrite modify_seq.
    match goal with |- context [w_sim (snd (?m (set_sim ?S w2)))] =>
      assert (Ks : keeps w_sim m) by (destruct (sc_variant sc); unfold set_pin, write; keeps_tac);
      rewrite (Ks (set_sim S w2)) end.
    cbn [w_sim set_sim]. subst w2. cbn [w_sim set_drag]. specialize (Ha Hz).
    destruct (w_sim w1), (w_sim w); cbn in *; congruence.
Qed.

Lemma drag_round_trip_witness :
  gesture_of (w_drag (ex_after_init Plain)) 0 = None /\
  dragstart (ex_scene Plain) 0 0 3 4 (ex_after_init Plain)
  = (Ok tt, snd (dragstart (ex_scene Plain) 0 0 3 4 (ex_after_init Plain))) /\
  (w_drag (snd (dragend (ex_scene Plain) 0 (snd (dragstart (ex_scene Plain) 0 0 3 4 (ex_after_init Plain)))))
   = w_drag (ex_after_init Plain)
   /\ (ds_active (w_drag (ex_after_init Plain)) = 0%nat ->
       option_map sim_alpha_target
         (w_sim (snd (dragend (ex_scene Plain) 0 (snd (dragstart (ex_scene Plain) 0 0 3 4 (ex_after_init Plain))))))
       = option_map (fun _ => 0) (w_sim (ex_after_init Plain)))).
Proof.
  assert (H1 : gesture_of (w_drag (ex_after_init Plain)) 0 = None) by (vm_compute; reflexivity).
  assert (H2 : dragstart (ex_scene Plain) 0 0 3 4 (ex_after_init Plain)
    = (Ok tt, snd (dragstart (ex_scene Plain) 0 0 3 4 (ex_after_init Plain)))) by (vm_compute; reflexivity).
  split; [exact H1|]. split; [exact H2|].
  exact (drag_round_trip (ex_scene Plain) 0 0 3 4 _ _ H1 H2).
Defined.


(** ** Hover, initialisation and resize *)

(** X12: a mouseout on circle [i] resets every link line to the theme's
    link colour at opacity 0.4 and width 1.5, hides every edge label, gives
    circle [i] the radius of its datum and stroke width 1.5, and hides every
    tooltip in the tooltip variant (leaving the tooltips alone in the plain
    one). The lines and labels keep their data. *)
Theorem mouseout_resets sc i w w' :
  mouseout sc i w = (Ok tt, w') ->
  exists g0 g, the_graph (w_surf w) = Some g0 /\ the_graph (w_surf w') = Some g
  /\ map ln_datum (g_lines g) = map ln_datum (g_lines g0)
  /\ map lt_datum (g_link_texts g) = map lt_datum (g_link_texts g0)
  /\ Forall (fun ln => ln_stroke_style ln = Some (link_color (sc_variant sc))
                /\ ln_opacity_style ln = Some (4 # 10) /\ ln_width_style ln = Some (3 # 2)) (g_lines g)
  /\ Forall (fun t => lt_opacity_style t = Some 0) (g_link_texts g)
  /\ (exists c o, g_circles g !! i = Some c /\ w_heap w' !! c_datum c = Some (ONode o)
        /\ c_r c = radius (no_data o) /\ c_stroke_width c = Some (3 # 2))
  /\ match sc_variant sc with
     | Tooltip _ => Forall (fun t => tt_opacity t = 0) (sf_tooltips (w_surf w'))
     | Plain => sf_tooltips (w_surf w') = sf_tooltips (w_surf w)
     end.
Proof.
  intros H. unfold mouseout in H.
  apply bind_ok in H as (c & w1 & H1 & H). apply circle_at_ok in H1 as (-> & g0 & Hg0 & Hc).
  apply bind_ok in H as (o & w2 & H2 & H). apply read_node_ok in H2 as (-> & Ho).
  apply bind_ok in H as ([] & w3 & H3 & H).
  apply set_circle_ok in H3 as (g0' & Hg0' & ->). rewrite Hg0 in Hg0'. injection Hg0' as <-.
  set (c' := mkCircle _ _ _ _ _) in *.
  destruct (set_graph_ok (with_circle g0 i c') w g0 Hg0) as (Hg3 & Hh3 & Ht3).
  set (w3 := snd (set_graph _ w)) in *.
  apply bind_ok in H as (g1 & w4 & H4 & H). apply get_graph_ok in H4 as (-> & Hg1).
  rewrite Hg3 in Hg1. injection Hg1 as <-.
  apply bind_ok in H as ([] & w5 & H5 & H).
  apply set_links_visual_ok in H5 as (g2 & Hg2 & ->). rewrite Hg3 in Hg2. injection Hg2 as <-.
  set (lines := map _ _) in *. set (texts := map _ (g_link_texts _)) in *.
  destruct (set_graph_ok (with_links (with_circle g0 i c') lines texts) w3 _ Hg3) as (Hg5 & Hh5 & Ht5).
  set (w5 := snd (set_graph _ w3)) in *.
  assert (Hi : is_Some (g_circles g0 !! i)) by eauto.
  assert (Hc' : g_circles (with_links (with_circle g0 i c') lines texts) !! i = Some c').
  { cbn. apply list_lookup_insert_eq; apply lookup_lt_is_Some_1; exact Hi. }
  exists g0, (with_links (with_circle g0 i c') lines texts).
  assert (Hw : the_graph (w_surf w') = the_graph (w_surf w5) /\ w_heap w' = w_heap w5 /\
     match sc_variant sc with
     | Tooltip _ => Forall (fun t => tt_opacity t = 0) (sf_tooltips (w_surf w'))
     | Plain => sf_tooltips (w_surf w') = sf_tooltips (w_surf w)
     end).
  { rewrite <- Ht3, <- Ht5. destruct (sc_variant sc); cbn in H; injection H as <-.
    - auto.
    - split; [reflexivity|]. split; [reflexivity|].
      apply List.Forall_map, List.Forall_forall. intros; reflexivity. }
  destruct Hw as (Hgw & Hhw & Htw).
  split; [exact Hg0|]. split; [rewrite Hgw; exact Hg5|].
  split; [subst lines; cbn; rewrite map_map; reflexivity|].
  split; [subst texts; cbn; rewrite map_map; reflexivity|].
  split; [subst lines; apply List.Forall_map, List.Forall_forall; intros; cbn; auto|].
  split; [subst texts; apply List.Forall_map, List.Forall_forall; intros; reflexivity|].
  split; [|exact Htw].
  exists c', o. split; [exact Hc'|]. rewrite Hhw, Hh5, Hh3. auto.
Qed.

Lemma mouseout_resets_witness :
  mouseout (ex_scene (Tooltip true)) 0
    (run (ex_scene (Tooltip true)) [OOver 0] (ex_after_init (Tooltip true)))
  = (Ok tt, snd (mouseout (ex_scene (Tooltip true)) 0
                   (run (ex_scene (Tooltip true)) [OOver 0] (ex_after_init (Tooltip true))))) /\
  exists g, the_graph (w_surf (snd (mouseout (ex_scene (Tooltip true)) 0
                   (run (ex_scene (Tooltip true)) [OOver 0] (ex_after_init (Tooltip true))))))
            = Some g
    /\ Forall (fun t => lt_opacity_style t = Some 0) (g_link_texts g).
Proof.
  assert (H : mouseout (ex_scene (Tooltip true)) 0
    (run (ex_scene (Tooltip true)) [OOver 0] (ex_after_init (Tooltip true)))
  = (Ok tt, snd (mouseout (ex_scene (Tooltip true)) 0
                   (run (ex_scene (Tooltip true)) [OOver 0] (ex_after_init (Tooltip true))))))
    by (vm_compute; reflexivity).
  split; [exact H|].
  destruct (mouseout_resets _ _ _ _ H) as (g0 & g & _ & Hg & _ & _ & _ & Ht & _).
  exists g. split; [exact Hg|exact Ht].
Defined.

(** X13: a mouseover on circle [i] emphasises exactly the links incident
    to the hovered node: line [k] gets opacity 1 and width 2.5 when its
    link's source or target is the circle's datum, and opacity 0.1 and
    width 1.5 otherwise; edge label [k] is shown (opacity 1) exactly for
    incident links. No object of the heap changes, and in the tooltip
    variant every tooltip is shown with the hovered node as content. *)
Theorem mouseover_highlights sc i w w' :
  mouseover sc i w = (Ok tt, w') ->
  exists c g0 g, the_graph (w_surf w) = Some g0 /\ g_circles g0 !! i = Some c
  /\ the_graph (w_surf w') = Some g
  /\ Forall2 (fun ln ln' => ln_datum ln' = ln_datum ln /\ exists lo,
        w_heap w !! ln_datum ln = Some (OLink lo)
        /\ ln_opacity_style ln' = Some (if incident (c_datum c) lo then 1 else 1 # 10)
        /\ ln_width_style ln' = Some (if incident (c_datum c) lo then 5 # 2 else 3 # 2))
      (g_lines g0) (g_lines g)
  /\ Forall2 (fun t t' => lt_datum t' = lt_datum t /\ exists lo,
        w_heap w !! lt_datum t = Some (OLink lo)
        /\ lt_opacity_style t' = Some (if incident (c_datum c) lo then 1 else 0))
      (g_link_texts g0) (g_link_texts g)
  /\ w_heap w' = w_heap w
  /\ match sc_variant sc with
     | Tooltip _ => Forall (fun t => tt_opacity t = 1 /\ tt_content t = Some (c_datum c))
                      (sf_tooltips (w_surf w'))
     | Plain => sf_tooltips (w_surf w') = sf_tooltips (w_surf w)
     end.
Proof.
  intros H. unfold mouseover in H. cbv zeta in H.
  apply bind_ok in H as (c & w1 & H1 & H). apply circle_at_ok in H1 as (-> & g0 & Hg0 & Hc).
  apply bind_ok in H as (o & w2 & H2 & H). apply read_node_ok in H2 as (-> & Ho).
  apply bind_ok in H as ([] & w3 & H3 & H).
  apply set_circle_ok in H3 as (g0' & Hg0' & ->). rewrite Hg0 in Hg0'. injection Hg0' as <-.
  set (c' := mkCircle _ _ _ _ _) in *.
  destruct (set_graph_ok (with_circle g0 i c') w g0 Hg0) as (Hg3 & Hh3 & Ht3).
  set (w3 := snd (set_graph _ w)) in *.
  apply bind_ok in H as (g1 & w4 & H4 & H). apply get_graph_ok in H4 as (-> & Hg1).
  rewrite Hg3 in Hg1. injection Hg1 as <-.
  apply bind_ok in H as (lines & w5 & H5 & H).
  apply mapW_pure in H5 as (-> & HL);
    [|intros x w0 b w0' Hx; apply bind_ok in Hx as (lo & w9 & Hr & Hx);
      apply read_link_ok in Hr as (-> & _); cbv [mret M_ret] in Hx; congruence].
  apply bind_ok in H as (texts & w6 & H6 & H).
  apply mapW_pure in H6 as (-> & HT);
    [|intros x w0 b w0' Hx; apply bind_ok in Hx as (lo & w9 & Hr & Hx);
      apply read_link_ok in Hr as (-> & _); cbv [mret M_ret] in Hx; congruence].
  apply bind_ok in H as ([] & w7 & H7 & H).
  apply set_links_visual_ok in H7 as (g2 & Hg2 & ->). rewrite Hg3 in Hg2. injection Hg2 as <-.
  destruct (set_graph_ok (with_links (with_circle g0 i c') lines texts) w3 _ Hg3) as (Hg5 & Hh5 & Ht5).
  set (w5 := snd (set_graph _ w3)) in *.
  assert (Hw : the_graph (w_surf w') = the_graph (w_surf w5) /\ w_heap w' = w_heap w5 /\
     match sc_variant sc with
     | Tooltip _ => Forall (fun t => tt_opacity t = 1 /\ tt_content t = Some (c_datum c))
                      (sf_tooltips (w_surf w'))
     | Plain => sf_tooltips (w_surf w') = sf_tooltips (w_surf w)
     end).
  { rewrite <- Ht3, <- Ht5. destruct (sc_variant sc); cbn in H; injection H as <-.
    - auto.
    - split; [reflexivity|]. split; [reflexivity|].
      apply List.Forall_map, List.Forall_forall. intros; split; reflexivity. }
  destruct Hw as (Hgw & Hhw & Htw).
  exists c, g0, (with_links (with_circle g0 i c') lines texts).
  split; [exact Hg0|]. split; [exact Hc|]. split; [rewrite Hgw; exact Hg5|].
  split.
  { cbn [with_links with_circle g_lines g_link_texts] in HL |- *.
    eapply Forall2_impl; [exact HL|]. intros ln ln' Hf.
    apply bind_ok in Hf as (lo & w9 & Hr & Hf). apply read_link_ok in Hr as (-> & Hr).
    cbv [mret M_ret] in Hf. injection Hf as <-. cbn. split; [reflexivity|].
    exists lo. rewrite <- Hh3. split; [exact Hr|]. split; reflexivity. }
  split.
  { cbn [with_links with_circle g_lines g_link_texts] in HT |- *.
    eapply Forall2_impl; [exact HT|]. intros t t' Hf.
    apply bind_ok in Hf as (lo & w9 & Hr & Hf). apply read_link_ok in Hr as (-> & Hr).
    cbv [mret M_ret] in Hf. injection Hf as <-. cbn. split; [reflexivity|].
    exists lo. rewrite <- Hh3. split; [exact Hr|]. reflexivity. }
  split; [|exact Htw]. rewrite Hhw, Hh5, Hh3. reflexivity.
Qed.

Lemma mouseover_highlights_witness :
  mouseover (ex_scene Plain) 1 (ex_after_init Plain)
  = (Ok tt, snd (mouseover (ex_scene Plain) 1 (ex_after_init Plain))) /\
  w_heap (snd (mouseover (ex_scene Plain) 1 (ex_after_init Plain))) = w_heap (ex_after_init Plain).
Proof.
  assert (H : mouseover (ex_scene Plain) 1 (ex_after_init Plain)
    = (Ok tt, snd (mouseover (ex_scene Plain) 1 (ex_after_init Plain)))) by (vm_compute; reflexivity).
  split; [exact H|].
  destruct (mouseover_highlights _ _ _ _ H) as (c & g0 & g & _ & _ & _ & _ & _ & Hh & _).
  exact Hh.
Defined.

(** X14: a successful initialisation leaves the svg with exactly one zoom
    group, holding the graph, and one marker definition, whatever the svg
    held before; the background click handler and the zoom are installed;
    the tooltip variant has exactly one (hidden, empty) tooltip, the plain
    variant leaves the tooltips alone. The simulation holds the working
    copies, one per input node and link; the circles and node labels are
    bound to the node copies and the lines and edge labels to the link
    copies, in input order. *)
Theorem init_builds_once place v cb nodes links w0 sc w1 :
  init place v cb nodes links w0 = (Ok (Built sc), w1) ->
  exists g,
    sf_children (w_surf w1) = [EG (Some g); EDefs 1]
    /\ sf_bg_click (w_surf w1) = Some cb /\ sf_zoom (w_surf w1) = true
    /\ sf_tooltips (w_surf w1)
       = match v with Tooltip _ => [mkTooltip 0 0 0 None] | Plain => sf_tooltips (w_surf w0) end
    /\ w_sim w1 = Some (mkSim (sc_nodesData sc) (sc_linksData sc) 0 1)
    /\ length (sc_nodesData sc) = length nodes /\ length (sc_linksData sc) = length links
    /\ map c_datum (g_circles g) = sc_nodesData sc /\ g_labels g = sc_nodesData sc
    /\ map ln_datum (g_lines g) = sc_linksData sc /\ map lt_datum (g_link_texts g) = sc_linksData sc.
Proof.
  intros H. destruct nodes as [|n ns]; [cbv [init mret M_ret] in H; congruence|].
  unfold init, clear_surface, on_bg_click, append_child, install_zoom in H. cbv beta iota in H.
  rewrite !modify_seq, tooltip_seq, modify_seq in H.
  set (wz := _ : World) in H at 1.
  apply bind_ok in H as (nD & w2 & H2 & H).
  pose proof (mapW_length _ _ _ _ _ H2) as Ln.
  apply heap_only_ok in H2 as [S2 M2]; [|apply heap_only_mapW; intros; apply heap_only_copy_node].
  apply bind_ok in H as (lD & w3 & H3 & H).
  pose proof (mapW_length _ _ _ _ _ H3) as Ll.
  apply heap_only_ok in H3 as [S3 M3]; [|apply heap_only_mapW; intros; apply heap_only_copy_link].
  apply bind_ok in H as ([] & w4 & H4 & H).
  apply heap_only_ok in H4 as [S4 M4]; [|apply heap_only_iterW; intros; apply heap_only_init_node].
  apply bind_ok in H as ([] & w5 & H5 & H). apply modify_ok in H5. subst w5.
  apply bind_ok in H as ([] & w6 & H6 & H).
  apply heap_only_ok in H6 as [S6 M6]; [|apply heap_only_init_links].
  apply bind_ok in H as ([] & w7 & H7 & H). apply modify_ok in H7. subst w7.
  apply bind_ok in H as ([] & w8 & H8 & H). apply modify_ok in H8. subst w8.
  apply bind_ok in H as (g & w9 & H9 & H). apply render_ok in H9 as (-> & Hc & Hl & Hn & Ht).
  apply bind_ok in H as ([] & w10 & H10 & H). apply modify_ok in H10. subst w10.
  cbv [mret M_ret] in H. injection H as <- <-.
  exists g. cbn. rewrite S6. cbn. rewrite S4, S3, S2. subst wz.
  destruct v; cbn; auto 20.
Qed.

Lemma init_builds_once_witness :
  init origin (Tooltip true) true [0; 1; 2]%nat [3; 4]%nat ex_world
    = (Ok (Built (ex_scene (Tooltip true))), ex_after_init (Tooltip true)) /\
  exists g,
    sf_children (w_surf (ex_after_init (Tooltip true))) = [EG (Some g); EDefs 1]
    /\ map ln_datum (g_lines g) = sc_linksData (ex_scene (Tooltip true)).
Proof.
  split; [apply ex_init|].
  destruct (init_builds_once _ _ _ _ _ _ _ _ (ex_init (Tooltip true)))
    as (g & Hch & _ & _ & _ & _ & _ & _ & _ & _ & Hl & _).
  exists g. split; [exact Hch|exact Hl].
Defined.

(** X15: the resize handling is debounced to one frame: from a state where
    at most the frame named by [animationFrameId] is queued, a run of
    observations followed by a frame has the visible effect of the last
    observation's frame callback alone. *)
Theorem resize_debounced s obs es :
  rs_inv s -> rs_connected s = true ->
  rvisible (rrun s (map RObserve obs ++ [RObserve es; RFrame])) = rvisible (frame_callback es s).
Proof.
  intros Hi Hc. unfold rrun. rewrite fold_left_app. fold (rrun s (map RObserve obs)).
  destruct (observe_many s obs Hc) as (H1 & H2 & H3 & H4).
  pose proof (rs_inv_run s (map RObserve obs) Hi) as (_ & Hid & HF & _).
  set (s1 := rrun s (map RObserve obs)) in *.
  cbn [fold_left rstep]. rewrite H1.
  pose proof (cancel_pending_empty s1 Hid HF) as He.
  destruct (cancel_pending_fields s1) as (_ & _ & _ & G4 & G5 & G6).
  unfold run_frame, on_resize, requestAnimationFrame. cbn [rs_pending]. rewrite He. cbn.
  apply frame_callback_visible; cbn; [congruence|congruence|].
  unfold rvisible in *. cbn. congruence.
Qed.

Lemma resize_debounced_witness :
  (rs_inv resize_example /\ rs_connected resize_example = true) /\
  rvisible (rrun resize_example
    (map RObserve [[mkEntry 100 50]] ++ [RObserve [mkEntry 300 200]; RFrame]))
  = rvisible (frame_callback [mkEntry 300 200] resize_example).
Proof.
  assert (Hi : rs_inv resize_example)
    by (split; [cbn; lia|split; [intros ? ?; discriminate|split; [constructor|cbn; lia]]]).
  assert (Hc : rs_connected resize_example = true) by reflexivity.
  split; [split; assumption|]. exact (resize_debounced _ _ _ Hi Hc).
Defined.

(** X16: after the unmount, nothing the resize effect writes changes any
    more: a frame requested before the unmount is cancelled and later
    resize observations are not delivered. *)
Theorem resize_after_unmount s evs :
  rs_inv s -> rvisible (rrun (rstep s RUnmount) evs) = rvisible s.
Proof.
  intros (Hn & Hid & HF & _).
  assert (H0 : rs_connected (rstep s RUnmount) = false /\ rs_pending (rstep s RUnmount) = []
               /\ rvisible (rstep s RUnmount) = rvisible s).
  { cbn [rstep]. unfold resize_cleanup. set (s1 := mkRState false _ _ _ _ _ _ _ _ _).
    destruct (cancel_pending_fields s1) as (_ & _ & G3 & G4 & _).
    split_and!; [exact G3|apply cancel_pending_empty; assumption|exact G4]. }
  destruct H0 as (Hc & Hp & Hv). rewrite <- Hv.
  generalize dependent (rstep s RUnmount). induction evs as [|ev evs IH]; intros t Hc Hp Hv; [reflexivity|].
  cbn. destruct (unmounted_step t ev Hc Hp) as (G1 & G2 & G3).
  rewrite <- G3. apply IH; congruence.
Qed.

Lemma resize_after_unmount_witness :
  rs_inv resize_example /\
  rvisible (rrun (rstep resize_example RUnmount)
              [RObserve [mkEntry 300 200]; ROtherRequest; RFrame])
  = rvisible resize_example.
Proof.
  assert (Hi : rs_inv resize_example)
    by (split; [cbn; lia|split; [intros ? ?; discriminate|split; [constructor|cbn; lia]]]).
  split; [exact Hi|]. exact (resize_after_unmount _ _ Hi).
Defined.

(** X17: while a simulation exists, the simulation's centre force stays at
    the middle of the svg's viewBox through any resize events. *)
Theorem resize_center_follows s evs :
  rs_sim s = true -> center_ok s -> center_ok (rrun s evs).
Proof.
  revert s. induction evs as [|ev evs IH]; intros s Hm Hc; [exact Hc|].
  cbn. apply IH.
  - destruct ev as [es| | |]; cbn [rstep].
    + destruct (rs_connected s); [|exact Hm].
      destruct (cancel_pending_fields s) as (_ & _ & _ & _ & _ & H). cbn. congruence.
    + unfold run_frame. destruct (fold_frames_fields (rs_pending s) (set_pending [] s)) as (_ & _ & _ & _ & _ & H).
      rewrite H. exact Hm.
    + exact Hm.
    + unfold resize_cleanup. destruct (cancel_pending_fields (mkRState false (rs_afid s) (rs_next_id s) (rs_pending s) (rs_svg s) (rs_sim s)
       (rs_viewBox s) (rs_center s) (rs_alpha s) (rs_restarts s))) as (_ & _ & _ & _ & _ & H).
      rewrite H. exact Hm.
  - destruct ev as [es| | |]; cbn [rstep].
    + destruct (rs_connected s); [|exact Hc].
      destruct (cancel_pending_fields s) as (_ & _ & _ & H & _).
      unfold center_ok, rvisible in *. cbn. intros x y w h Hv. injection H as H1 H2 _ _.
      rewrite H2. apply (Hc x y w h). congruence.
    + unfold run_frame. apply center_ok_fold; [exact Hm|exact Hc].
    + exact Hc.
    + unfold resize_cleanup. set (s1 := mkRState false _ _ _ _ _ _ _ _ _).
      destruct (cancel_pending_fields s1) as (_ & _ & _ & H & _).
      unfold center_ok, rvisible in *. intros x y w h Hv. injection H as H1 H2 _ _.
      rewrite H2. apply (Hc x y w h). congruence.
Qed.

Lemma resize_center_follows_witness :
  (rs_sim resize_example = true /\ center_ok resize_example) /\
  center_ok (rrun resize_example [RObserve [mkEntry 300 200]; RFrame; RObserve []; RFrame]).
Proof.
  assert (Hm : rs_sim resize_example = true) by reflexivity.
  assert (Hc : center_ok resize_example).
  { intros x y w h [= <- <- <- <-]. exists 400, 300. split; [reflexivity|split; reflexivity]. }
  split; [split; assumption|]. exact (resize_center_follows _ _ Hm Hc).
Defined.

(** X18: at most one resize frame callback is ever queued, and it is the one
    whose handle [animationFrameId] holds, provided handles are positive
    (a handle 0 would be falsy and never cancelled). *)
Theorem resize_single_frame s evs :
  rs_inv s ->
  (length (rs_pending (rrun s evs)) <= 1)%nat
  /\ Forall (fun p => rs_afid (rrun s evs) = Some p.1) (rs_pending (rrun s evs)).
Proof. intros H. destruct (rs_inv_run s evs H) as (_ & _ & HF & Hl). auto. Qed.

Lemma resize_single_frame_witness :
  rs_inv resize_example /\
  (length (rs_pending (rrun resize_example
     [RObserve [mkEntry 1 1]; ROtherRequest; RObserve [mkEntry 2 2]; RObserve [mkEntry 3 3]])) <= 1)%nat.
Proof.
  assert (Hi : rs_inv resize_example)
    by (split; [cbn; lia|split; [intros ? ?; discriminate|split; [constructor|cbn; lia]]]).
  split; [exact Hi|]. apply (resize_single_frame _ _ Hi).
Defined.
